(** * ovn-nbctl: [ovn/utilities/ovn-nbctl.c]

    A shallow embedding of the transaction engine ([main]'s sync/retry
    loop, [run_prerequisites], [do_nbctl] and [nbctl_exit]) and of the
    command handlers that [nbctl_commands] registers, and the properties
    proved about them.

    The engine talks to collaborators whose code lives in other
    translation units: the database session ([ovsdb_idl_*]) and the
    [ctl_*] helpers of the shared command library; and it reaches the
    command handlers, those of this file and those of the library alike,
    through the function pointers of [struct ctl_command_syntax].  The
    session is an interface (a type class), the handlers of the engine
    are functions stored in the command's syntax record, and a run of the
    program is a computation in a small monad that threads the process
    state, accumulates the trace of observable calls, and can leave
    through [exit] or [abort].  The handlers of this file are modelled
    in [Northbound], with the rows they read, the calls they make and
    what they print. *)

From Stdlib Require Import ZArith List String Ascii Bool Arith Lia.
From Stdlib Require Import DecimalString Permutation.
Import ListNotations.
Local Open Scope string_scope.
Local Open Scope list_scope.

Set Implicit Arguments.

(* ===================================================================== *)
(** ** C strings and [struct ds] *)
(* ===================================================================== *)

(** A Rocq [string] stands for the contents of a NUL-terminated C string
    (the bytes before the terminator). *)

(** ['\n'] *)
Definition LF : ascii := "010"%char.
(** ['\\'] *)
Definition BACKSLASH : ascii := "092"%char.
(** The double-quote character, written backslash-quote inside the C
    string literals of the diagnostics. *)
Definition DQUOTE : string := String "034"%char EmptyString.

(** [struct ds]: [None] is the state left by [ds_init] ([string == NULL],
    [length == 0]); [Some s] is an allocated buffer holding [s]. *)
Definition ds : Type := option string.

Definition ds_init : ds := None.

(** [ds->length] *)
Definition ds_length (d : ds) : nat :=
  match d with
  | None => 0
  | Some s => String.length s
  end.

(** [ds_cstr(ds)]: the contents, the empty string for a fresh [ds]. *)
Definition ds_cstr (d : ds) : string :=
  match d with
  | None => EmptyString
  | Some s => s
  end.

(** Drops the last character of [s] when it is [c]. *)
Fixpoint chomp (s : string) (c : ascii) : string :=
  match s with
  | EmptyString => EmptyString
  | String a EmptyString => if Ascii.eqb a c then EmptyString else s
  | String a rest => String a (chomp rest c)
  end.

(** Modelled from the spec: [ds_chomp] comes from the dynamic-string
    library, which is not part of this file.  The output dispatcher is
    specified to "strip a single trailing newline": if the buffer is not
    empty and its last character is [c], that one character is removed;
    otherwise the buffer is left alone. *)
Definition ds_chomp (d : ds) (c : ascii) : ds :=
  match d with
  | None => None
  | Some s => Some (chomp s c)
  end.

(** [n] copies of the character [c]. *)
Fixpoint replicate (n : nat) (c : ascii) : string :=
  match n with
  | O => EmptyString
  | S k => String c (replicate k c)
  end.

(** [n] copies of the string [s], concatenated. *)
Fixpoint repeat_string (n : nat) (s : string) : string :=
  match n with
  | O => EmptyString
  | S k => s ++ repeat_string k s
  end.

(* ===================================================================== *)
(** ** Data of the engine *)
(* ===================================================================== *)

(** Modelled from the spec: [enum ovsdb_idl_txn_status] is declared by the
    session library.  The spec lists the outcomes uncommitted, incomplete,
    aborted, unchanged, success, try-again, error and not-locked; a C
    object of enumeration type can hold any other integer as well, which
    is what the [default:] label of [do_nbctl]'s switch catches:
    [TXN_unlisted] stands for those values. *)
Inductive ovsdb_idl_txn_status : Type :=
| TXN_UNCOMMITTED
| TXN_UNCHANGED
| TXN_INCOMPLETE
| TXN_ABORTED
| TXN_SUCCESS
| TXN_TRY_AGAIN
| TXN_NOT_LOCKED
| TXN_ERROR
| TXN_unlisted (value : Z).

(** [struct ovsdb_symbol], the fields [do_nbctl] reads. *)
Record ovsdb_symbol : Type := {
  created : bool;
  strong_ref : bool;
  weak_ref : bool
}.

(** [struct ovsdb_symbol_table]: the nodes of its [shash], name and
    symbol, in the order in which [SHASH_FOR_EACH] visits them. *)
Definition ovsdb_symbol_table : Type := list (string * ovsdb_symbol).

(** [ovsdb_symbol_table_create()] *)
Definition ovsdb_symbol_table_create : ovsdb_symbol_table := [].

(** A C pointer to an object of which at most one exists at a time (the
    session, the attempt's transaction, the attempt's symbol table). *)
Inductive pointer : Type := NULL | PTR.

Definition is_null (p : pointer) : bool :=
  match p with
  | NULL => true
  | PTR => false
  end.

(** [EXIT_SUCCESS], [EXIT_FAILURE] *)
Definition EXIT_SUCCESS : Z := 0.
Definition EXIT_FAILURE : Z := 1.

(** The Database Session collaborator and the table renderer, as
    [ovn-nbctl.c] uses them.  [ovsdb_idl] is the state of the session
    together with what it mirrors; [poll_block] stands for
    [ovsdb_idl_wait(idl); poll_block();]. *)
Class DatabaseSession : Type := {
  ovsdb_idl : Type;
  ovsdb_idl_txn : Type;
  table : Type;
  table_style : Type;
  ovsdb_idl_get_seqno : ovsdb_idl -> Z;
  ovsdb_idl_run : ovsdb_idl -> ovsdb_idl;
  ovsdb_idl_is_alive : ovsdb_idl -> bool;
  ovsdb_idl_get_last_error : ovsdb_idl -> Z;
  poll_block : ovsdb_idl -> ovsdb_idl;
  ovsdb_idl_txn_create : ovsdb_idl -> ovsdb_idl_txn;
  ovsdb_idl_txn_set_dry_run : ovsdb_idl_txn -> ovsdb_idl_txn;
  ovsdb_idl_txn_add_comment : ovsdb_idl_txn -> string -> ovsdb_idl_txn;
  ovsdb_idl_txn_commit_block :
    ovsdb_idl_txn -> ovsdb_idl ->
    ovsdb_idl_txn_status * ovsdb_idl_txn * ovsdb_idl;
  ovsdb_idl_txn_get_error : ovsdb_idl_txn -> string;
  ovs_retval_to_string : Z -> string;
  table_print : table -> table_style -> string
}.

(** Modelled from the spec: what the session persists, which only the
    session library decides.  The spec asks of the collaborator that a
    transaction opened in dry-run mode reports what would change "without
    persisting", and that "commit during a dry run ... must guarantee no
    persisted change occurred".  [persisted] is the content of the remote
    store, [txn_is_dry_run] the mark left by [ovsdb_idl_txn_set_dry_run]. *)
Class DryRunSession (session : DatabaseSession) : Type := {
  database : Type;
  persisted : ovsdb_idl -> database;
  txn_is_dry_run : ovsdb_idl_txn -> bool;
  set_dry_run_marks :
    forall t, txn_is_dry_run (ovsdb_idl_txn_set_dry_run t) = true;
  add_comment_keeps_mark :
    forall t s,
      txn_is_dry_run (ovsdb_idl_txn_add_comment t s) = txn_is_dry_run t;
  dry_run_commit_persists_nothing :
    forall t i,
      txn_is_dry_run t = true ->
      persisted (snd (ovsdb_idl_txn_commit_block t i)) = persisted i
}.

(** The globals set by [parse_options]. *)
Record nbctl_options {session : DatabaseSession} : Type := {
  db : string;
  oneline : bool;
  dry_run : bool;
  style : table_style
}.

Section Engine.

Context {session : DatabaseSession}.

(** [struct ctl_context].  [ctx_idl], [ctx_txn] and [ctx_symtab] are the
    pointers stored by [ctl_context_init]; the objects they point to are
    handed to the handlers next to the context (see [txn_objects]). *)
Record ctl_context : Type := {
  ctx_argv : list string;
  ctx_options : list (string * option string);
  ctx_output : ds;
  ctx_table : option table;
  ctx_idl : pointer;
  ctx_txn : pointer;
  ctx_symtab : pointer;
  try_again : bool
}.

(** The handlers are the functions behind the pointers [prerequisites],
    [run] and [postprocess] of [struct ctl_command_syntax]; all of them
    are [void (*)(struct ctl_context *)], and the engine does not look
    inside them.  A handler works on the context it is given and on the
    objects the context points to; it does not know the file-scope
    variables of [ovn-nbctl.c].  Its text belongs in [ctx->output], but
    nothing keeps it from writing to the standard output itself: of the
    handlers that this file registers (see [Northbound]),
    [nbctl_acl_list] does, with [printf].  A handler returns, or calls
    [ctl_fatal] with a message, or dies in [abort()], which is where
    [OVS_NOT_REACHED] of [dir_encode] leads.

    A call of a handler is therefore described by the texts that it
    writes to the standard output itself, in order, and by the way it
    ends. *)
Inductive handler_result (A : Type) : Type :=
| handler_returns (a : A)
| handler_fatal (msg : string)
| handler_aborts.
Arguments handler_fatal {A} msg.
Arguments handler_aborts {A}.

(** The objects a handler reaches through a context of an attempt. *)
Record txn_objects : Type := {
  o_idl : ovsdb_idl;
  o_txn : ovsdb_idl_txn;
  o_symtab : ovsdb_symbol_table
}.

(** A [prerequisites] function: called with [ctx->txn == NULL] and
    [ctx->symtab == NULL], it can reach the context and the session. *)
Definition read_phase : Type :=
  ctl_context -> ovsdb_idl
  -> list string * handler_result (ctl_context * ovsdb_idl).

(** A [run] or [postprocess] function: it can reach the context, the
    session, the transaction and the symbol table. *)
Definition txn_phase : Type :=
  ctl_context -> txn_objects
  -> list string * handler_result (ctl_context * txn_objects).

Inductive ctl_mode : Type := RO | RW.

(** [struct ctl_command_syntax], in the order of the initialisers of
    [nbctl_commands]. *)
Record ctl_command_syntax : Type := {
  name : string;
  min_args : Z;
  max_args : Z;
  arguments : string;
  prerequisites : option read_phase;
  run : option txn_phase;
  postprocess : option txn_phase;
  syntax_options : string;
  mode : ctl_mode
}.

(** [struct ctl_command] *)
Record ctl_command : Type := {
  syntax : ctl_command_syntax;
  argv : list string;
  options : list (string * option string);
  output : ds;
  cmd_table : option table
}.

(** The part of a command that parsing fixed: handler binding, arguments
    and options. *)
Definition parsed (c : ctl_command) :
  ctl_command_syntax * list string * list (string * option string) :=
  (syntax c, argv c, options c).

(** [ds_init(&c->output); c->table = NULL;] *)
Definition reset_output (c : ctl_command) : ctl_command :=
  {| syntax := syntax c; argv := argv c; options := options c;
     output := ds_init; cmd_table := None |}.

(* ===================================================================== *)
(** ** The process: state, trace, and ways to leave *)
(* ===================================================================== *)

(** The observable calls of a run, in order.  [ev_attempt seqno] marks
    the call of [do_nbctl] by [main], which has just stored [seqno];
    [ev_prerequisites], [ev_run] and [ev_postprocess] mark the call of a
    handler for the command at index [i] with the context it receives;
    [ev_printf] is a text that a handler writes to the standard output
    itself; [ev_stdout] is what a call of [fputs], [putchar] or
    [table_print] of the output loop writes there; [ev_warn] is a line
    of [VLOG_WARN] and [ev_stderr] the diagnostic of [ctl_fatal], both on
    the error stream; the others are the calls of the library functions
    they are named after. *)
Inductive event : Type :=
| ev_idl_run
| ev_attempt (seqno : Z)
| ev_poll_block
| ev_txn_create
| ev_txn_set_dry_run
| ev_txn_add_comment (text : string)
| ev_symtab_create
| ev_prerequisites (i : nat) (ctx : ctl_context)
| ev_run (i : nat) (ctx : ctl_context)
| ev_postprocess (i : nat) (ctx : ctl_context)
| ev_printf (text : string)
| ev_warn (msg : string)
| ev_commit (status : ovsdb_idl_txn_status)
| ev_txn_abort
| ev_txn_destroy
| ev_symtab_destroy
| ev_output_destroy (i : nat)
| ev_table_destroy (i : nat)
| ev_options_destroy (i : nat)
| ev_free_commands
| ev_idl_destroy
| ev_stdout (text : string)
| ev_stderr (msg : string).

(** The file-scope variables [the_idl] and [the_idl_txn]. *)
Record process : Type := {
  the_idl : ovsdb_idl;
  the_idl_txn : pointer
}.

(** How a piece of the program ends: it returns a value, the process
    leaves through [exit(status)], or it dies in [abort()]. *)
Inductive result (A : Type) : Type :=
| Ret (a : A)
| Exit (status : Z)
| Abort.
Arguments Exit {A} status.
Arguments Abort {A}.

Definition M (A : Type) : Type := process -> list event * result A * process.

Definition ret {A} (a : A) : M A := fun p => ([], Ret a, p).

Definition bind {A B} (m : M A) (f : A -> M B) : M B :=
  fun p =>
    match m p with
    | (tr, Ret a, p1) =>
        match f a p1 with
        | (tr', r, p2) => (tr ++ tr', r, p2)
        end
    | (tr, Exit status, p1) => (tr, Exit status, p1)
    | (tr, Abort, p1) => (tr, Abort, p1)
    end.

Definition emit (e : event) : M unit := fun p => ([e], Ret tt, p).
Definition get_idl : M ovsdb_idl := fun p => ([], Ret (the_idl p), p).
Definition set_idl (i : ovsdb_idl) : M unit :=
  fun p => ([], Ret tt, {| the_idl := i; the_idl_txn := the_idl_txn p |}).
Definition get_the_idl_txn : M pointer :=
  fun p => ([], Ret (the_idl_txn p), p).
Definition set_the_idl_txn (t : pointer) : M unit :=
  fun p => ([], Ret tt, {| the_idl := the_idl p; the_idl_txn := t |}).
Definition exit {A} (status : Z) : M A := fun p => ([], Exit status, p).
Definition abort {A} : M A := fun p => ([], Abort, p).

End Engine.

Arguments handler_fatal {A} msg.
Arguments handler_returns {A} a.
Arguments handler_aborts {A}.
Arguments Ret {A} a.
Arguments Exit {A} status.
Arguments Abort {A}.

Declare Scope nbctl_scope.
Delimit Scope nbctl_scope with nbctl.
Notation "x <- m ;; k" := (bind m (fun x => k))
  (at level 61, m at next level, right associativity) : nbctl_scope.
Notation "' pat <- m ;; k" := (bind m (fun x => match x with pat => k end))
  (at level 61, pat pattern, m at next level, right associativity) : nbctl_scope.
Notation "m ;; k" := (bind m (fun _ => k))
  (at level 61, right associativity) : nbctl_scope.
Local Open Scope nbctl_scope.

(* ===================================================================== *)
(** ** Helpers of the command library *)
(* ===================================================================== *)

Section Program.

Context {session : DatabaseSession}.

(** The globals [db], [oneline], [dry_run] and [table_style]. *)
Variable opts : nbctl_options.

(** [nbctl_exit]: frees the current transaction and the session, then
    calls [exit(status)]. *)
Definition nbctl_exit {A} (status : Z) : M A :=
  t <- get_the_idl_txn;;
  (if is_null t then ret tt
   else emit ev_txn_abort;; emit ev_txn_destroy);;
  emit ev_idl_destroy;;
  exit status.

(** Modelled from the spec: [ctl_fatal] belongs to the shared command
    library.  "Fatal errors print a single diagnostic line to the error
    stream before exit", and the exit code is non-zero; the library leaves
    through the exit function that [nbctl_cmd_init] registers with
    [ctl_init], which is [nbctl_exit]. *)
Definition ctl_fatal {A} (msg : string) : M A :=
  emit (ev_stderr msg);;
  nbctl_exit EXIT_FAILURE.

(** [OVS_NOT_REACHED()] is [abort()]. *)
Definition OVS_NOT_REACHED {A} : M A := abort.

(** [ovs_assert(condition)] *)
Definition ovs_assert (condition : bool) : M unit :=
  if condition then ret tt else abort.

(** [VLOG_WARN(...)].  [main] sets the level of the console to
    warnings ([vlog_set_levels(NULL, VLF_CONSOLE, VLL_WARN)]), so the
    line goes to the error stream. *)
Definition VLOG_WARN (msg : string) : M unit := emit (ev_warn msg).

(** [fputs(s, stdout)] and [putchar(ch)] *)
Definition fputs (s : string) : M unit := emit (ev_stdout s).
Definition putchar (ch : ascii) : M unit :=
  emit (ev_stdout (String ch EmptyString)).

(** Modelled from the spec: [ctl_context_init_command] belongs to the
    shared command library.  It binds the command to the context: the
    context carries "the current command ... and an accumulated output
    buffer", and the retry request of the phase is inspected after each
    command, so it starts cleared. *)
Definition ctl_context_init_command (ctx : ctl_context) (c : ctl_command)
  : ctl_context :=
  {| ctx_argv := argv c;
     ctx_options := options c;
     ctx_output := output c;
     ctx_table := cmd_table c;
     ctx_idl := ctx_idl ctx;
     ctx_txn := ctx_txn ctx;
     ctx_symtab := ctx_symtab ctx;
     try_again := false |}.

(** Modelled from the spec: [ctl_context_init] belongs to the shared
    command library.  The context "holds a reference to the session, the
    active transaction (nullable ...), the symbol table (nullable ...),
    and the currently bound Command".  With no command the fields of the
    binding are left as they were; the model starts them empty, and every
    use below binds a command before a handler sees the context. *)
Definition ctl_context_init (command : option ctl_command)
  (idl txn symtab : pointer) : ctl_context :=
  let ctx :=
    {| ctx_argv := []; ctx_options := []; ctx_output := ds_init;
       ctx_table := None;
       ctx_idl := idl; ctx_txn := txn; ctx_symtab := symtab;
       try_again := false |} in
  match command with
  | Some c => ctl_context_init_command ctx c
  | None => ctx
  end.

(** Modelled from the spec: [ctl_context_done_command] belongs to the
    shared command library.  It hands the output buffer and the table that
    the phase accumulated in the context back to the command. *)
Definition ctl_context_done_command (ctx : ctl_context) (c : ctl_command)
  : ctl_command :=
  {| syntax := syntax c; argv := argv c; options := options c;
     output := ctx_output ctx; cmd_table := ctx_table ctx |}.

(** Modelled from the spec: [ctl_context_done] belongs to the shared
    command library; with a command it is [ctl_context_done_command], and
    the cache callback is [NULL] throughout this program. *)
Definition ctl_context_done (ctx : ctl_context) (c : ctl_command)
  : ctl_command :=
  ctl_context_done_command ctx c.

(** What a handler writes to the standard output while it runs. *)
Fixpoint handler_prints (texts : list string) : M unit :=
  match texts with
  | [] => ret tt
  | text :: rest => emit (ev_printf text);; handler_prints rest
  end.

(** [(c->syntax->prerequisites)(&ctx)] *)
Definition call_read_phase (h : read_phase) (ctx : ctl_context)
  : M ctl_context :=
  idl <- get_idl;;
  let (texts, r) := h ctx idl in
  handler_prints texts;;
  match r with
  | handler_returns (ctx', idl') => set_idl idl';; ret ctx'
  | handler_fatal msg => ctl_fatal msg
  | handler_aborts => abort
  end.

(** [(c->syntax->run)(&ctx)] and [(c->syntax->postprocess)(&ctx)] *)
Definition call_txn_phase (h : txn_phase) (ctx : ctl_context)
  (txn : ovsdb_idl_txn) (symtab : ovsdb_symbol_table)
  : M (ctl_context * ovsdb_idl_txn * ovsdb_symbol_table) :=
  idl <- get_idl;;
  let (texts, r) :=
    h ctx {| o_idl := idl; o_txn := txn; o_symtab := symtab |} in
  handler_prints texts;;
  match r with
  | handler_returns (ctx', o) =>
      set_idl (o_idl o);; ret (ctx', o_txn o, o_symtab o)
  | handler_fatal msg => ctl_fatal msg
  | handler_aborts => abort
  end.

(* ===================================================================== *)
(** ** [run_prerequisites] *)
(* ===================================================================== *)

(** [!c->output.string] *)
Definition output_string_is_null (c : ctl_command) : bool :=
  match output c with
  | None => true
  | Some _ => false
  end.

(** [!c->table] *)
Definition table_is_null (c : ctl_command) : bool :=
  match cmd_table c with
  | None => true
  | Some _ => false
  end.

(** The body of the loop of [run_prerequisites] for the command at
    index [i]. *)
Definition run_prerequisite (i : nat) (c : ctl_command) : M ctl_command :=
  match prerequisites (syntax c) with
  | Some pre =>
      let c := reset_output c in
      let ctx := ctl_context_init (Some c) PTR NULL NULL in
      emit (ev_prerequisites i ctx);;
      ctx <- call_read_phase pre ctx;;
      let c := ctl_context_done ctx c in
      ovs_assert (output_string_is_null c);;
      ovs_assert (table_is_null c);;
      ret c
  | None => ret c
  end.

Fixpoint run_prerequisites_from (i : nat) (commands : list ctl_command)
  : M (list ctl_command) :=
  match commands with
  | [] => ret []
  | c :: rest =>
      c' <- run_prerequisite i c;;
      rest' <- run_prerequisites_from (S i) rest;;
      ret (c' :: rest')
  end.

(** [run_prerequisites(commands, n_commands, idl)]; the result is the
    array as the function leaves it. *)
Definition run_prerequisites (commands : list ctl_command)
  : M (list ctl_command) :=
  run_prerequisites_from 0 commands.

(* ===================================================================== *)
(** ** [do_nbctl] *)
(* ===================================================================== *)

(** The loop that runs the mutate phases.  The first component of the
    result tells whether the loop was left through [goto try_again]. *)
Fixpoint mutate_phases (i : nat) (ctx : ctl_context)
  (commands : list ctl_command)
  (txn : ovsdb_idl_txn) (symtab : ovsdb_symbol_table)
  : M (bool * list ctl_command * ovsdb_idl_txn * ovsdb_symbol_table) :=
  match commands with
  | [] => ret (false, [], txn, symtab)
  | c :: rest =>
      let ctx := ctl_context_init_command ctx c in
      '(ctx, txn, symtab) <-
        match run (syntax c) with
        | Some h => emit (ev_run i ctx);; call_txn_phase h ctx txn symtab
        | None => ret (ctx, txn, symtab)
        end;;
      let c := ctl_context_done_command ctx c in
      if try_again ctx then ret (true, c :: rest, txn, symtab)
      else
        '(again, rest, txn, symtab) <-
          mutate_phases (S i) ctx rest txn symtab;;
        ret (again, c :: rest, txn, symtab)
  end.

Definition never_created_message (node_name : string) : string :=
  "row id " ++ DQUOTE ++ node_name ++ DQUOTE
  ++ " is referenced but never created (e.g. with "
  ++ DQUOTE ++ "-- --id=" ++ node_name ++ " create ..." ++ DQUOTE ++ ")".

Definition no_reference_message (node_name : string) : string :=
  "row id " ++ DQUOTE ++ node_name ++ DQUOTE
  ++ " was created but no reference to it was inserted, so it will not "
  ++ "actually appear in the database".

Definition weak_reference_message (node_name : string) : string :=
  "row id " ++ DQUOTE ++ node_name ++ DQUOTE
  ++ " was created but only a weak reference to it was inserted, so it "
  ++ "will not actually appear in the database".

(** The [SHASH_FOR_EACH (node, &symtab->sh)] loop. *)
Fixpoint check_symbols (nodes : ovsdb_symbol_table) : M unit :=
  match nodes with
  | [] => ret tt
  | (node_name, symbol) :: rest =>
      (if negb (created symbol)
       then ctl_fatal (never_created_message node_name)
       else ret tt);;
      (if negb (strong_ref symbol) then
         if negb (weak_ref symbol)
         then VLOG_WARN (no_reference_message node_name)
         else VLOG_WARN (weak_reference_message node_name)
       else ret tt);;
      check_symbols rest
  end.

(** [status == TXN_UNCHANGED || status == TXN_SUCCESS] *)
Definition unchanged_or_success (status : ovsdb_idl_txn_status) : bool :=
  match status with
  | TXN_UNCHANGED | TXN_SUCCESS => true
  | _ => false
  end.

(** The loop that runs the post-commit phases. *)
Fixpoint postprocess_phases (i : nat) (commands : list ctl_command)
  (txn : ovsdb_idl_txn) (symtab : ovsdb_symbol_table)
  : M (list ctl_command * ovsdb_idl_txn * ovsdb_symbol_table) :=
  match commands with
  | [] => ret ([], txn, symtab)
  | c :: rest =>
      '(c, txn, symtab) <-
        match postprocess (syntax c) with
        | Some h =>
            let ctx := ctl_context_init (Some c) PTR PTR PTR in
            emit (ev_postprocess i ctx);;
            '(ctx, txn, symtab) <- call_txn_phase h ctx txn symtab;;
            ret (ctl_context_done ctx c, txn, symtab)
        | None => ret (c, txn, symtab)
        end;;
      '(rest, txn, symtab) <- postprocess_phases (S i) rest txn symtab;;
      ret (c :: rest, txn, symtab)
  end.

(** The two-character sequence backslash, n and the doubled backslash
    that the single-line mode writes. *)
Definition ESCAPED_LF : string := String BACKSLASH (String "n"%char EmptyString).
Definition ESCAPED_BACKSLASH : string :=
  String BACKSLASH (String BACKSLASH EmptyString).

(** The [for (j = 0; j < ds->length; j++)] loop over the characters of
    the buffer. *)
Fixpoint print_escaped (s : string) : M unit :=
  match s with
  | EmptyString => ret tt
  | String ch rest =>
      (if Ascii.eqb ch LF then fputs ESCAPED_LF
       else if Ascii.eqb ch BACKSLASH then fputs ESCAPED_BACKSLASH
       else putchar ch);;
      print_escaped rest
  end.

(** The body of the output loop up to the point where the command's
    buffers are released.  [table_print] writes the rendered table to the
    standard output.  [ds_chomp] shortens [c->output] in place; the buffer
    is released right after, so the model does not store it back. *)
Definition print_command (c : ctl_command) : M unit :=
  match cmd_table c with
  | Some t => emit (ev_stdout (table_print t (style opts)))
  | None =>
      if oneline opts then
        let d := ds_chomp (output c) LF in
        match d with
        | None => ret tt
        | Some s => print_escaped s
        end;;
        putchar LF
      else fputs (ds_cstr (output c))
  end.

(** The output loop of the success path. *)
Fixpoint dispatch_output (i : nat) (commands : list ctl_command) : M unit :=
  match commands with
  | [] => ret tt
  | c :: rest =>
      print_command c;;
      emit (ev_output_destroy i);;
      emit (ev_table_destroy i);;
      emit (ev_options_destroy i);;
      dispatch_output (S i) rest
  end.

(** The loop under [try_again:] that releases every command's output. *)
Fixpoint destroy_outputs (i : nat) (commands : list ctl_command) : M unit :=
  match commands with
  | [] => ret tt
  | _ :: rest =>
      emit (ev_output_destroy i);;
      emit (ev_table_destroy i);;
      destroy_outputs (S i) rest
  end.

(** The code under the label [try_again:].  [txn] is the local pointer
    of [do_nbctl]. *)
Definition try_again_path (txn : pointer) (commands : list ctl_command)
  : M (bool * list ctl_command) :=
  (if is_null txn then ret tt
   else emit ev_txn_abort;; emit ev_txn_destroy;; set_the_idl_txn NULL);;
  emit ev_symtab_destroy;;
  destroy_outputs 0 commands;;
  ret (false, commands).

(** The [switch (status)] and what follows it. *)
Definition classify (status : ovsdb_idl_txn_status) (error : string)
  (txn : pointer) (commands : list ctl_command)
  : M (bool * list ctl_command) :=
  match status with
  | TXN_UNCOMMITTED | TXN_INCOMPLETE => OVS_NOT_REACHED
  | TXN_ABORTED => ctl_fatal "transaction aborted"
  | TXN_UNCHANGED | TXN_SUCCESS =>
      emit ev_symtab_destroy;;
      dispatch_output 0 commands;;
      emit ev_free_commands;;
      emit ev_txn_destroy;;
      emit ev_idl_destroy;;
      ret (true, commands)
  | TXN_TRY_AGAIN => try_again_path txn commands
  | TXN_ERROR => ctl_fatal ("transaction error: " ++ error)%string
  | TXN_NOT_LOCKED => ctl_fatal "database not locked"
  | TXN_unlisted _ => OVS_NOT_REACHED
  end.

(** [ovsdb_idl_txn_commit_block(txn)] *)
Definition commit_block (txn : ovsdb_idl_txn)
  : M (ovsdb_idl_txn_status * ovsdb_idl_txn) :=
  idl <- get_idl;;
  match ovsdb_idl_txn_commit_block txn idl with
  | (status, txn, idl) =>
      emit (ev_commit status);; set_idl idl;; ret (status, txn)
  end.

(** What [do_nbctl] does with the status that the commit returned: the
    post-commit phases, then the [switch]. *)
Definition after_commit (status : ovsdb_idl_txn_status)
  (commands : list ctl_command)
  (txn : ovsdb_idl_txn) (symtab : ovsdb_symbol_table)
  : M (bool * list ctl_command) :=
  '(commands, txn, symtab) <-
    (if unchanged_or_success status
     then postprocess_phases 0 commands txn symtab
     else ret (commands, txn, symtab));;
  let error := ovsdb_idl_txn_get_error txn in
  classify status error PTR commands.

(** From the symbol check to the end of [do_nbctl]: the part that runs
    when no command asked to try again. *)
Definition commit_and_finish (commands : list ctl_command)
  (txn : ovsdb_idl_txn) (symtab : ovsdb_symbol_table)
  : M (bool * list ctl_command) :=
  check_symbols symtab;;
  '(status, txn) <- commit_block txn;;
  after_commit status commands txn symtab.

(** The start of [do_nbctl]: the transaction, its dry-run mark and its
    comment. *)
Definition open_transaction (args : string) : M ovsdb_idl_txn :=
  idl <- get_idl;;
  emit ev_txn_create;;
  let txn := ovsdb_idl_txn_create idl in
  set_the_idl_txn PTR;;
  txn <- (if dry_run opts
          then emit ev_txn_set_dry_run;; ret (ovsdb_idl_txn_set_dry_run txn)
          else ret txn);;
  let comment := ("ovs-nbctl: " ++ args)%string in
  emit (ev_txn_add_comment comment);;
  ret (ovsdb_idl_txn_add_comment txn comment).

(** [do_nbctl] from its first line to the end of the loop over the
    mutate phases.  The result is whether the loop was left through
    [goto try_again], the array, the transaction and the symbol table. *)
Definition mutate_attempt (args : string) (commands : list ctl_command)
  : M (bool * list ctl_command * ovsdb_idl_txn * ovsdb_symbol_table) :=
  txn <- open_transaction args;;
  emit ev_symtab_create;;
  let symtab := ovsdb_symbol_table_create in
  let commands := map reset_output commands in
  let ctx := ctl_context_init None PTR PTR PTR in
  mutate_phases 0 ctx commands txn symtab.

(** [do_nbctl(args, commands, n_commands, idl)].  The second component
    of the result is the array as the attempt leaves it: on success, its
    contents when they were printed and released. *)
Definition do_nbctl (args : string) (commands : list ctl_command)
  : M (bool * list ctl_command) :=
  '(again, commands, txn, symtab) <- mutate_attempt args commands;;
  if again : bool then try_again_path PTR commands
  else commit_and_finish commands txn symtab.

(* ===================================================================== *)
(** ** [main]: the sync/retry loop *)
(* ===================================================================== *)

(** One pass through the body of [for (;;)].  [seqno] is the local of
    [main], an [unsigned int] that is only ever assigned from and compared
    with [ovsdb_idl_get_seqno(idl)]; the result is its value, and the
    array, at the end of the pass. *)
Definition main_iteration (args : string) (seqno : Z)
  (commands : list ctl_command) : M (Z * list ctl_command) :=
  idl <- get_idl;;
  emit ev_idl_run;;
  set_idl (ovsdb_idl_run idl);;
  idl <- get_idl;;
  (if negb (ovsdb_idl_is_alive idl) then
     let retval := ovsdb_idl_get_last_error idl in
     ctl_fatal (db opts ++ ": database connection failed ("
                ++ ovs_retval_to_string retval ++ ")")%string
   else ret tt);;
  '(seqno, commands) <-
    (if negb (seqno =? ovsdb_idl_get_seqno idl)%Z then
       let seqno := ovsdb_idl_get_seqno idl in
       emit (ev_attempt seqno);;
       '(ok, commands) <- do_nbctl args commands;;
       if ok : bool then exit EXIT_SUCCESS else ret (seqno, commands)
     else ret (seqno, commands));;
  idl <- get_idl;;
  (if (seqno =? ovsdb_idl_get_seqno idl)%Z
   then emit ev_poll_block;; set_idl (poll_block idl)
   else ret tt);;
  ret (seqno, commands).

(** [fuel] passes through the loop. *)
Fixpoint main_loop (fuel : nat) (args : string) (seqno : Z)
  (commands : list ctl_command) : M (Z * list ctl_command) :=
  match fuel with
  | O => ret (seqno, commands)
  | S n =>
      '(seqno, commands) <- main_iteration args seqno commands;;
      main_loop n args seqno commands
  end.

(** [main], from the call of [run_prerequisites] on. *)
Definition main (fuel : nat) (args : string) (commands : list ctl_command)
  : M (Z * list ctl_command) :=
  commands <- run_prerequisites commands;;
  idl <- get_idl;;
  main_loop fuel args (ovsdb_idl_get_seqno idl) commands.

End Program.

(* ===================================================================== *)
(** ** Observations on runs *)
(* ===================================================================== *)

Section Observations.

Context {session : DatabaseSession}.

Definition run_trace {A} (x : list event * result A * process)
  : list event := fst (fst x).
Definition run_result {A} (x : list event * result A * process)
  : result A := snd (fst x).
Definition run_final {A} (x : list event * result A * process)
  : process := snd x.

(** What a trace wrote to the standard output: the texts of the
    handlers and those of the output loop, in the order of the calls. *)
Fixpoint stdout_of (tr : list event) : string :=
  match tr with
  | [] => EmptyString
  | ev_printf text :: rest => (text ++ stdout_of rest)%string
  | ev_stdout text :: rest => (text ++ stdout_of rest)%string
  | _ :: rest => stdout_of rest
  end.

(** The part of it that the handlers wrote themselves. *)
Fixpoint printed_of (tr : list event) : string :=
  match tr with
  | [] => EmptyString
  | ev_printf text :: rest => (text ++ printed_of rest)%string
  | _ :: rest => printed_of rest
  end.

(** The diagnostics of [ctl_fatal] in a trace.  They are not all that
    the error stream holds: see [warnings_of] and [error_stream]. *)
Fixpoint stderr_of (tr : list event) : list string :=
  match tr with
  | [] => []
  | ev_stderr msg :: rest => msg :: stderr_of rest
  | _ :: rest => stderr_of rest
  end.

(** The statuses returned by the calls of the commit operation. *)
Fixpoint commits_of (tr : list event) : list ovsdb_idl_txn_status :=
  match tr with
  | [] => []
  | ev_commit status :: rest => status :: commits_of rest
  | _ :: rest => commits_of rest
  end.

(** The warnings logged. *)
Fixpoint warnings_of (tr : list event) : list string :=
  match tr with
  | [] => []
  | ev_warn msg :: rest => msg :: warnings_of rest
  | _ :: rest => warnings_of rest
  end.

(** What a trace wrote to the error stream: the messages of the warnings
    and of the diagnostics of [ctl_fatal], in the order of the calls. *)
Fixpoint error_stream (tr : list event) : list string :=
  match tr with
  | [] => []
  | ev_warn msg :: rest => msg :: error_stream rest
  | ev_stderr msg :: rest => msg :: error_stream rest
  | _ :: rest => error_stream rest
  end.

(** The sequence numbers at which [main] called [do_nbctl]. *)
Fixpoint attempts_of (tr : list event) : list Z :=
  match tr with
  | [] => []
  | ev_attempt seqno :: rest => seqno :: attempts_of rest
  | _ :: rest => attempts_of rest
  end.

(** The read phases executed: index of the command and the context the
    handler was given. *)
Fixpoint prerequisites_of (tr : list event) : list (nat * ctl_context) :=
  match tr with
  | [] => []
  | ev_prerequisites i ctx :: rest => (i, ctx) :: prerequisites_of rest
  | _ :: rest => prerequisites_of rest
  end.

(** The post-commit phases executed, by index of the command. *)
Fixpoint postprocessed_of (tr : list event) : list nat :=
  match tr with
  | [] => []
  | ev_postprocess i _ :: rest => i :: postprocessed_of rest
  | _ :: rest => postprocessed_of rest
  end.

(** Events by the part of the program that produces them. *)
Inductive event_kind : Type :=
| K_loop | K_open | K_prerequisites | K_run | K_postprocess | K_printf
| K_warn | K_commit | K_release | K_stdout | K_stderr.

Definition kind_of (e : event) : event_kind :=
  match e with
  | ev_idl_run | ev_attempt _ | ev_poll_block => K_loop
  | ev_txn_create | ev_txn_set_dry_run | ev_txn_add_comment _
  | ev_symtab_create => K_open
  | ev_prerequisites _ _ => K_prerequisites
  | ev_run _ _ => K_run
  | ev_postprocess _ _ => K_postprocess
  | ev_printf _ => K_printf
  | ev_warn _ => K_warn
  | ev_commit _ => K_commit
  | ev_txn_abort | ev_txn_destroy | ev_symtab_destroy
  | ev_output_destroy _ | ev_table_destroy _ | ev_options_destroy _
  | ev_free_commands | ev_idl_destroy => K_release
  | ev_stdout _ => K_stdout
  | ev_stderr _ => K_stderr
  end.

(** Every event of every run of [m] is of one of the kinds [ks]. *)
Definition emits_only {A} (ks : list event_kind) (m : M A) : Prop :=
  forall p, Forall (fun e => In (kind_of e) ks) (run_trace (m p)).

(** What the single-line mode writes for one character. *)
Definition escape_char (ch : ascii) : string :=
  if Ascii.eqb ch LF then ESCAPED_LF
  else if Ascii.eqb ch BACKSLASH then ESCAPED_BACKSLASH
  else String ch EmptyString.

(** What the single-line mode writes for a text. *)
Fixpoint escape (s : string) : string :=
  match s with
  | EmptyString => EmptyString
  | String ch rest => (escape_char ch ++ escape rest)%string
  end.

(** The output block of a command. *)
Definition block (opts : nbctl_options) (c : ctl_command) : string :=
  match cmd_table c with
  | Some t => table_print t (style opts)
  | None =>
      if oneline opts
      then (escape (chomp (ds_cstr (output c)) LF)
            ++ String LF EmptyString)%string
      else ds_cstr (output c)
  end.

(** The output blocks of the commands, in the order of the array. *)
Definition blocks (opts : nbctl_options) (commands : list ctl_command)
  : string :=
  String.concat EmptyString (map (block opts) commands).

(** The warning events that the symbol check logs for one node. *)
Definition warning_events (node : string * ovsdb_symbol) : list event :=
  if strong_ref (snd node) then []
  else if weak_ref (snd node)
       then [ev_warn (weak_reference_message (fst node))]
       else [ev_warn (no_reference_message (fst node))].

(** The name of the first node, in iteration order, whose symbol was
    never created. *)
Fixpoint first_uncreated (nodes : ovsdb_symbol_table) : option string :=
  match nodes with
  | [] => None
  | (node_name, symbol) :: rest =>
      if created symbol then first_uncreated rest else Some node_name
  end.

(** The nodes visited before the first one that was never created. *)
Fixpoint created_prefix (nodes : ovsdb_symbol_table) : ovsdb_symbol_table :=
  match nodes with
  | [] => []
  | (node_name, symbol) :: rest =>
      if created symbol then (node_name, symbol) :: created_prefix rest
      else []
  end.

Definition all_created (nodes : ovsdb_symbol_table) : bool :=
  forallb (fun node => created (snd node)) nodes.

(** The events of the release loop under [try_again:], for commands
    [i], [i+1], ... *)
Fixpoint destroy_events (i : nat) (commands : list ctl_command)
  : list event :=
  match commands with
  | [] => []
  | _ :: rest =>
      ev_output_destroy i :: ev_table_destroy i
      :: destroy_events (S i) rest
  end.

(** The indices, from [i] on, of the commands that satisfy [f]. *)
Fixpoint indices_where (f : ctl_command -> bool) (i : nat)
  (commands : list ctl_command) : list nat :=
  match commands with
  | [] => []
  | c :: rest =>
      if f c then i :: indices_where f (S i) rest
      else indices_where f (S i) rest
  end.

Definition has_prerequisites (c : ctl_command) : bool :=
  match prerequisites (syntax c) with
  | Some _ => true
  | None => false
  end.

Definition has_postprocess (c : ctl_command) : bool :=
  match postprocess (syntax c) with
  | Some _ => true
  | None => false
  end.

(** Each attempt recorded in the trace was made at a sequence number
    that differs from the one of the attempt before it, [last] being the
    sequence number last seen before the trace starts. *)
Fixpoint attempts_differ (last : Z) (attempts : list Z) : Prop :=
  match attempts with
  | [] => True
  | v :: rest => v <> last /\ attempts_differ v rest
  end.

(** The process leaves without returning, other than with success. *)
Definition dies {A} (r : result A) : Prop :=
  match r with
  | Ret _ => False
  | Exit status => status <> EXIT_SUCCESS
  | Abort => True
  end.

End Observations.

Section Contracts.

Context {session : DatabaseSession}.

(** [m] leaves through [exit] only with [EXIT_FAILURE]. *)
Definition exits_failing {A} (m : M A) : Prop :=
  forall p status, run_result (m p) = Exit status -> status = EXIT_FAILURE.

(** [m] does not assign [the_idl_txn]. *)
Definition keeps_txn_pointer {A} (m : M A) : Prop :=
  forall p, the_idl_txn (run_final (m p)) = the_idl_txn p.

(** Every event of every run of [m] that returns is of one of the kinds
    [ks]. *)
Definition returning_emits {A} (ks : list event_kind) (m : M A) : Prop :=
  forall p a, run_result (m p) = Ret a ->
    Forall (fun e => In (kind_of e) ks) (run_trace (m p)).

(** A command that produced the text [text] and no table. *)
Definition text_command (syn : ctl_command_syntax) (av : list string)
  (os : list (string * option string)) (text : ds) : ctl_command :=
  {| syntax := syn; argv := av; options := os;
     output := text; cmd_table := None |}.

(** The single-line mode among the globals. *)
Definition oneline_options (d : string) (dr : bool) (st : table_style)
  : nbctl_options :=
  {| db := d; oneline := true; dry_run := dr; style := st |}.

(** The events of [ctl_fatal] while the attempt's transaction is live. *)
Definition fatal_events (msg : string) : list event :=
  [ev_stderr msg; ev_txn_abort; ev_txn_destroy; ev_idl_destroy].

(** The context that [run_prerequisites] hands to the read phase of [c]. *)
Definition prerequisites_context (c : ctl_command) : ctl_context :=
  ctl_context_init (Some (reset_output c)) PTR NULL NULL.

(** The calls of read phases that the array asks for, from index [i]
    on: the index of each command that declares one, and the context. *)
Fixpoint read_phase_calls (i : nat) (commands : list ctl_command)
  : list (nat * ctl_context) :=
  match commands with
  | [] => []
  | c :: rest =>
      if has_prerequisites c
      then (i, prerequisites_context c) :: read_phase_calls (S i) rest
      else read_phase_calls (S i) rest
  end.

(** What the two assertions of [run_prerequisites] test, on the context
    that a read phase leaves: [!c->output.string] and [!c->table]. *)
Definition left_null (ctx : ctl_context) : bool :=
  match ctx_output ctx, ctx_table ctx with
  | None, None => true
  | _, _ => false
  end.

(** Every read phase of the array, called in turn on the session that
    the ones before it left, returns and has left the output string and
    the table of its context null. *)
Fixpoint read_phases_pass (commands : list ctl_command) (idl : ovsdb_idl)
  : bool :=
  match commands with
  | [] => true
  | c :: rest =>
      match prerequisites (syntax c) with
      | None => read_phases_pass rest idl
      | Some h =>
          match snd (h (prerequisites_context c) idl) with
          | handler_returns (ctx', idl') =>
              left_null ctx' && read_phases_pass rest idl'
          | _ => false
          end
      end
  end.

(** The array as [run_prerequisites] returns it: the commands that
    declare a read phase with their output and table reset. *)
Definition after_prerequisites (commands : list ctl_command)
  : list ctl_command :=
  map (fun c => if has_prerequisites c then reset_output c else c) commands.

(** The events of a call of the read phase of [c], as command [i], that
    writes [texts] to the standard output. *)
Definition read_phase_events (i : nat) (c : ctl_command)
    (texts : list string) : list event :=
  ev_prerequisites i (prerequisites_context c) :: map ev_printf texts.

(** Handlers that write nothing to the standard output themselves. *)
Definition silent_read_phase (h : read_phase) : Prop :=
  forall ctx idl, fst (h ctx idl) = [].

Definition silent_txn_phase (h : txn_phase) : Prop :=
  forall ctx o, fst (h ctx o) = [].

(** A batch all of whose handlers are silent. *)
Definition silent_batch (commands : list ctl_command) : Prop :=
  forall c, In c commands ->
    (forall h, prerequisites (syntax c) = Some h -> silent_read_phase h)
    /\ (forall h, run (syntax c) = Some h \/ postprocess (syntax c) = Some h ->
                  silent_txn_phase h).

(** [m] runs without a handler printing. *)
Definition prints_nothing {A} (m : M A) : Prop :=
  forall p, printed_of (run_trace (m p)) = EmptyString.

(** The warnings of the symbol check. *)
Definition symbol_warning (msg : string) : Prop :=
  exists node_name,
    msg = no_reference_message node_name
    \/ msg = weak_reference_message node_name.

(** The process after [ovsdb_idl_run(idl)]. *)
Definition after_idl_run (p : process) : process :=
  {| the_idl := ovsdb_idl_run (the_idl p); the_idl_txn := the_idl_txn p |}.

(** The same globals with the dry-run mode switched off. *)
Definition without_dry_run (opts : nbctl_options) : nbctl_options :=
  {| db := db opts; oneline := oneline opts; dry_run := false;
     style := style opts |}.

Section Persistence.

Context {dry : DryRunSession session}.

(** The contract of a mutate or post-commit phase towards the store:
    all mutation is queued on the open transaction, so a phase that
    returns has changed neither what the store persists nor the dry-run
    mark of the transaction. *)
Definition frame_phase (h : txn_phase) : Prop :=
  forall ctx o ctx' o',
    snd (h ctx o) = handler_returns (ctx', o') ->
    persisted (o_idl o') = persisted (o_idl o)
    /\ txn_is_dry_run (o_txn o') = txn_is_dry_run (o_txn o).

(** [m] leaves what the store persists as it is, however it ends. *)
Definition keeps_persisted {A} (m : M A) : Prop :=
  forall p,
    persisted (the_idl (run_final (m p))) = persisted (the_idl p).

End Persistence.

End Contracts.

(* ===================================================================== *)
(** ** A small session and a few handlers, to run the engine on *)
(* ===================================================================== *)

Module Fixture.

(** A session whose store is a list of rows.  [pending] tells that a
    change has arrived that [ovsdb_idl_run] has not processed yet;
    [conflicts] is the number of coming commits that another writer will
    beat. *)
Record idl_state : Type := {
  seqno : Z;
  pending : bool;
  alive : bool;
  rows : list string;
  conflicts : nat
}.

Record txn_state : Type := {
  dry : bool;
  comments : list string;
  queued : list string
}.

Definition run_idl (i : idl_state) : idl_state :=
  if pending i
  then {| seqno := seqno i + 1; pending := false; alive := alive i;
          rows := rows i; conflicts := conflicts i |}
  else i.

Definition wait_idl (i : idl_state) : idl_state :=
  {| seqno := seqno i; pending := true; alive := alive i;
     rows := rows i; conflicts := conflicts i |}.

Definition commit_status (t : txn_state) (i : idl_state)
  : ovsdb_idl_txn_status :=
  match conflicts i with
  | S _ => TXN_TRY_AGAIN
  | O => match queued t with
         | [] => TXN_UNCHANGED
         | _ :: _ => TXN_SUCCESS
         end
  end.

Definition commit (t : txn_state) (i : idl_state)
  : ovsdb_idl_txn_status * txn_state * idl_state :=
  (commit_status t i, t,
   {| seqno := seqno i;
      pending := match conflicts i with S _ => true | O => pending i end;
      alive := alive i;
      rows := if dry t then rows i
              else match conflicts i with
                   | S _ => rows i
                   | O => rows i ++ queued t
                   end;
      conflicts := Nat.pred (conflicts i) |}).

#[export] Instance session : DatabaseSession := {|
  ovsdb_idl := idl_state;
  ovsdb_idl_txn := txn_state;
  table := list string;
  table_style := unit;
  ovsdb_idl_get_seqno := seqno;
  ovsdb_idl_run := run_idl;
  ovsdb_idl_is_alive := alive;
  ovsdb_idl_get_last_error := fun _ => 111%Z;
  poll_block := wait_idl;
  ovsdb_idl_txn_create :=
    fun _ => {| dry := false; comments := []; queued := [] |};
  ovsdb_idl_txn_set_dry_run :=
    fun t => {| dry := true; comments := comments t; queued := queued t |};
  ovsdb_idl_txn_add_comment :=
    fun t s => {| dry := dry t; comments := comments t ++ [s];
                  queued := queued t |};
  ovsdb_idl_txn_commit_block := commit;
  ovsdb_idl_txn_get_error := fun _ => "constraint violation";
  ovs_retval_to_string := fun _ => "Connection refused";
  table_print := fun t _ => String.concat "," t
|}.

#[export] Instance dry_run_session : DryRunSession session.
Proof.
  refine {| database := list string;
            persisted := rows;
            txn_is_dry_run := dry;
            set_dry_run_marks := fun _ => eq_refl;
            add_comment_keeps_mark := fun _ _ => eq_refl;
            dry_run_commit_persists_nothing := _ |}.
  intros t i H. simpl in *. rewrite H. reflexivity.
Defined.

Definition with_output (ctx : ctl_context) (text : ds) : ctl_context :=
  {| ctx_argv := ctx_argv ctx; ctx_options := ctx_options ctx;
     ctx_output := text; ctx_table := ctx_table ctx;
     ctx_idl := ctx_idl ctx; ctx_txn := ctx_txn ctx;
     ctx_symtab := ctx_symtab ctx; try_again := try_again ctx |}.

Definition with_try_again (ctx : ctl_context) : ctl_context :=
  {| ctx_argv := ctx_argv ctx; ctx_options := ctx_options ctx;
     ctx_output := ctx_output ctx; ctx_table := ctx_table ctx;
     ctx_idl := ctx_idl ctx; ctx_txn := ctx_txn ctx;
     ctx_symtab := ctx_symtab ctx; try_again := true |}.

(** Appends [text] and a newline to the output of the command. *)
Definition say (ctx : ctl_context) (text : string) : ctl_context :=
  with_output ctx
    (Some (ds_cstr (ctx_output ctx) ++ text ++ String LF EmptyString)%string).

(** A mutate phase that queues the insertion of the row named by the
    first argument and reports it. *)
Definition add_row : txn_phase :=
  fun ctx o =>
    let row := hd EmptyString (ctx_argv ctx) in
    ([],
     handler_returns
       (say ctx ("added " ++ row)%string,
        {| o_idl := o_idl o;
           o_txn := {| dry := dry (o_txn o); comments := comments (o_txn o);
                       queued := queued (o_txn o) ++ [row] |};
           o_symtab := o_symtab o |})).

(** A mutate phase that refers to the symbol named by the first argument
    without creating it. *)
Definition refer_to : txn_phase :=
  fun ctx o =>
    ([],
     handler_returns
       (ctx,
        {| o_idl := o_idl o; o_txn := o_txn o;
           o_symtab :=
             o_symtab o
             ++ [(hd EmptyString (ctx_argv ctx),
                  {| created := false; strong_ref := true;
                     weak_ref := false |})] |})).

(** A mutate phase that creates a row under the symbol named by the
    first argument, and inserts no reference to it. *)
Definition create_as : txn_phase :=
  fun ctx o =>
    ([],
     handler_returns
       (ctx,
        {| o_idl := o_idl o;
           o_txn := {| dry := dry (o_txn o); comments := comments (o_txn o);
                       queued := queued (o_txn o)
                                 ++ [hd EmptyString (ctx_argv ctx)] |};
           o_symtab :=
             o_symtab o
             ++ [(hd EmptyString (ctx_argv ctx),
                  {| created := true; strong_ref := false;
                     weak_ref := false |})] |})).

(** A mutate phase that asks to try again. *)
Definition wait_until : txn_phase :=
  fun ctx o => ([], handler_returns (with_try_again ctx, o)).

(** A read phase that only looks. *)
Definition look : read_phase :=
  fun ctx idl => ([], handler_returns (ctx, idl)).

(** A read phase that reports what it does in the output of its
    command. *)
Definition shout : read_phase :=
  fun ctx idl => ([], handler_returns (say ctx "looking", idl)).

(** A post-commit phase that reports the number of rows. *)
Definition report : txn_phase :=
  fun ctx o => ([], handler_returns (say ctx "done", o)).

Definition command (verb : string)
  (pre : option read_phase) (body post : option txn_phase)
  (args : list string) : ctl_command :=
  {| syntax := {| name := verb; min_args := 0; max_args := 1;
                  arguments := "[ARG]";
                  prerequisites := pre; run := body; postprocess := post;
                  syntax_options := ""; mode := RW |};
     argv := args; options := []; output := ds_init; cmd_table := None |}.

Definition cmd_add (row : string) : ctl_command :=
  command "add" (Some look) (Some add_row) (Some report) [row].
Definition cmd_refer (symbol : string) : ctl_command :=
  command "refer" None (Some refer_to) None [symbol].
Definition cmd_create (symbol : string) : ctl_command :=
  command "create" None (Some create_as) None [symbol].
Definition cmd_wait : ctl_command :=
  command "wait-until" None (Some wait_until) None [].
Definition cmd_shout : ctl_command :=
  command "shout" (Some shout) None None [].

Definition globals (single_line dry_mode : bool) : nbctl_options :=
  {| db := "unix:ovnnb_db.sock"; oneline := single_line;
     dry_run := dry_mode; style := tt |}.

(** A batch that refers to a symbol nobody creates. *)
Definition dangling_batch : list ctl_command := [cmd_refer "x"].

(** A batch that refers to two symbols nobody creates. *)
Definition two_dangling_batch : list ctl_command :=
  [cmd_refer "x"; cmd_refer "z"].

(** The same, followed by a command that asks to try again. *)
Definition dangling_retry_batch : list ctl_command :=
  [cmd_refer "x"; cmd_wait].

(** A batch that refers to a symbol nobody creates and then creates
    another one that nothing refers to. *)
Definition dangling_orphan_batch : list ctl_command :=
  [cmd_refer "x"; cmd_create "y"].

(** A batch that creates a row nothing refers to. *)
Definition orphan_batch : list ctl_command := [cmd_create "y"].

(** A batch that asks to try again. *)
Definition retry_batch : list ctl_command := [cmd_add "r1"; cmd_wait].

(** A batch that adds two rows. *)
Definition add_batch : list ctl_command := [cmd_add "r1"; cmd_add "r2"].

(** A batch whose second command has a read phase that writes output. *)
Definition shout_batch : list ctl_command :=
  [cmd_add "r1"; cmd_shout; cmd_add "r2"].

(** The symbol of [cmd_refer] and the symbol of [cmd_create]. *)
Definition dangling_symbol : ovsdb_symbol :=
  {| created := false; strong_ref := true; weak_ref := false |}.
Definition orphan_symbol : ovsdb_symbol :=
  {| created := true; strong_ref := false; weak_ref := false |}.

(** A live session that has a first change to process; the first
    [n] commits lose against another writer. *)
Definition start (n : nat) : process :=
  {| the_idl := {| seqno := 0; pending := true; alive := true;
                   rows := ["r0"]; conflicts := n |};
     the_idl_txn := NULL |}.

End Fixture.

(* ===================================================================== *)
(** ** The northbound commands: rows, lookups and handlers *)
(* ===================================================================== *)

(** The handlers that [nbctl_commands] registers, with their helpers.
    They read the rows that the session has replicated, write through
    the setters that the schema compiler generates ([nbrec_*]), append
    text to the command's output buffer and leave through [ctl_fatal].

    The rows are records with the fields that the handlers read; a
    pointer to a row is the row, and two pointers are equal when the
    uuids are, the database keeping uuids distinct.  The setters belong
    to another translation unit: what a handler writes is kept as the
    list of the setter calls it makes, in order, and no handler reads a
    row again after it has written to it.  The handlers are modelled on
    their own, on this view of the database; [Embedding] below puts the
    read-only ones behind the pointers of the engine above. *)

Module Northbound.

Local Open Scope string_scope.

(** [struct uuid]: 128 bits. *)
Definition uuid : Type := N.

(** One row of the [ACL] table, as [struct nbrec_acl] shows it. *)
Record nbrec_acl : Type := {
  acl_uuid : uuid;
  acl_direction : string;
  acl_priority : Z;
  acl_match : string;
  acl_action : string;
  acl_log : bool
}.

(** One row of the [Logical_Port] table.  [lport_tag] holds [n_tag]
    elements, [parent_name], [up] and [enabled] are pointers that may be
    null, [lport_options] is the [smap] in the order in which
    [SMAP_FOR_EACH] visits it. *)
Record nbrec_logical_port : Type := {
  lport_uuid : uuid;
  lport_name : string;
  lport_parent_name : option string;
  lport_tag : list Z;
  lport_addresses : list string;
  lport_port_security : list string;
  lport_up : option bool;
  lport_enabled : option bool;
  lport_type : string;
  lport_options : list (string * string)
}.

(** One row of the [Logical_Switch] table; [lswitch_ports] and
    [lswitch_acls] are the arrays of row pointers. *)
Record nbrec_logical_switch : Type := {
  lswitch_uuid : uuid;
  lswitch_name : string;
  lswitch_ports : list nbrec_logical_port;
  lswitch_acls : list nbrec_acl
}.

(** What a handler sees of [ctx->idl]: the two tables it iterates, in
    the order of [NBREC_LOGICAL_SWITCH_FOR_EACH] and
    [NBREC_LOGICAL_PORT_FOR_EACH]. *)
Record nb_idl : Type := {
  logical_switches : list nbrec_logical_switch;
  logical_ports : list nbrec_logical_port
}.

(** A row pointer handed to a setter: a replicated row, which its uuid
    identifies, or the row that the [k]-th insertion of the running
    handler returned. *)
Inductive row : Type :=
| Row (u : uuid)
| New (k : nat).

(** The calls of generated setters. *)
Inductive nb_call : Type :=
| nbrec_logical_switch_insert (k : nat)
| nbrec_logical_switch_set_name (lswitch : row) (name : string)
| nbrec_logical_switch_delete (lswitch : row)
| nbrec_logical_switch_verify_ports (lswitch : row)
| nbrec_logical_switch_set_ports (lswitch : row) (new_ports : list row)
| nbrec_logical_switch_verify_acls (lswitch : row)
| nbrec_logical_switch_set_acls (lswitch : row) (new_acls : list row)
| nbrec_logical_port_insert (k : nat)
| nbrec_logical_port_set_name (lport : row) (name : string)
| nbrec_logical_port_set_parent_name (lport : row) (name : option string)
| nbrec_logical_port_set_tag (lport : row) (tag : list Z)
| nbrec_logical_port_delete (lport : row)
| nbrec_logical_port_set_addresses (lport : row) (addrs : list string)
| nbrec_logical_port_set_port_security (lport : row) (addrs : list string)
| nbrec_logical_port_set_enabled (lport : row) (enabled : list bool)
| nbrec_logical_port_set_type (lport : row) (type : string)
| nbrec_logical_port_set_options (lport : row) (opts : list (string * string))
| nbrec_acl_insert (k : nat)
| nbrec_acl_set_priority (acl : row) (priority : Z)
| nbrec_acl_set_direction (acl : row) (direction : string)
| nbrec_acl_set_match (acl : row) (m : string)
| nbrec_acl_set_action (acl : row) (action : string)
| nbrec_acl_set_log (acl : row) (log : bool).

(** The library routines the handlers call whose code is elsewhere:
    [uuid_from_string] and the [UUID_FMT] rendering, [ovs_scan] with the
    two formats used here, the sorted views of [smap] and [svec], the
    buffer append of [struct ds], and the C library's [qsort]. *)
Class Library : Type := {
  uuid_from_string : string -> option uuid;
  UUID_FMT : uuid -> string;
  (** [ovs_scan(s, "%"SCNd64, &v)] *)
  scan_d64 : string -> option Z;
  (** [ovs_scan(s, ETH_ADDR_SCAN_FMT, ETH_ADDR_SCAN_ARGS(ea))] *)
  scan_eth_addr : string -> bool;
  (** [smap_sort] on the pairs added so far, in the order of addition *)
  smap_sort : list (string * string) -> list (string * string);
  svec_sort : list string -> list string;
  ds_put_cstr : ds -> string -> ds;
  qsort : (nbrec_acl -> nbrec_acl -> Z) -> list nbrec_acl -> list nbrec_acl
}.

(** *** C library *)

(** [strcmp]: C fixes the sign of the result only; the model returns
    -1, 0 or 1 by the bytewise lexicographic order. *)
Definition strcmp (a b : string) : Z :=
  match String.compare a b with
  | Lt => -1
  | Eq => 0
  | Gt => 1
  end.

(** [tolower] in the C locale. *)
Definition tolower (c : ascii) : ascii :=
  let n := nat_of_ascii c in
  if (65 <=? n)%nat && (n <=? 90)%nat then ascii_of_nat (n + 32) else c.

Fixpoint lowercase (s : string) : string :=
  match s with
  | EmptyString => EmptyString
  | String c rest => String (tolower c) (lowercase rest)
  end.

(** [strcasecmp], reduced to its sign as [strcmp] is. *)
Definition strcasecmp (a b : string) : Z :=
  strcmp (lowercase a) (lowercase b).

(** [strsep(&value, "=")] on a copy of [s]: the text before the first
    ['='] and, when there is one, the text after it. *)
Fixpoint strsep (s : string) : string * option string :=
  match s with
  | EmptyString => (EmptyString, None)
  | String c rest =>
      if Ascii.eqb c "="%char then (EmptyString, Some rest)
      else let (key, value) := strsep rest in (String c key, value)
  end.

(** The conversions ["%"PRId64] and ["%"PRIu64] of an [int64_t]. *)
Definition PRId64 (z : Z) : string :=
  DecimalString.NilZero.string_of_int (Z.to_int z).

Definition PRIu64 (z : Z) : string :=
  DecimalString.NilZero.string_of_int (Z.to_int (z mod 2 ^ 64)).

(** ["%Ns"]: right-justified in a field of [width] characters. *)
Definition pad_left (width : nat) (s : string) : string :=
  replicate (width - String.length s) " "%char ++ s.

Definition INT_MAX : Z := 2147483647.

(** [arg[0]], the terminator for the empty string. *)
Definition first_char (s : string) : ascii :=
  match s with
  | EmptyString => zero
  | String c _ => c
  end.

(** *** The handler's context and effects *)

(** The fields of [struct ctl_context] that a handler reads: its
    arguments ([argv[0]] is the command's name, [argc] the length), its
    options and the replica. *)
Record nb_context : Type := {
  nb_argv : list string;
  nb_options : list (string * option string);
  nb_idl_view : nb_idl
}.

Definition argc (ctx : nb_context) : nat := List.length (nb_argv ctx).

(** What a handler changes: [ctx->output], the process's standard output
    (the texts written, in order), the setter calls made on [ctx->txn],
    and the number of rows inserted so far. *)
Record handler_state : Type := {
  h_output : ds;
  h_stdout : list string;
  h_calls : list nb_call;
  h_inserted : nat
}.

(** Why a handler does not return: [ctl_fatal] with its message,
    [OVS_NOT_REACHED], or a read of [argv[i]] with [i >= argc]; what such
    a read finds depends on what follows the command on the command
    line, which the handler cannot see. *)
Inductive stop : Type :=
| fatal (msg : string)
| not_reached
| past_argv (i : nat).

Inductive outcome (A : Type) : Type :=
| returns (a : A) (s : handler_state)
| stops (why : stop) (s : handler_state).

Arguments returns {A} a s.
Arguments stops {A} why s.

Definition handler (A : Type) : Type := handler_state -> outcome A.

Definition ret {A} (a : A) : handler A := fun s => returns a s.

Definition bind {A B} (m : handler A) (f : A -> handler B) : handler B :=
  fun s =>
    match m s with
    | returns a s' => f a s'
    | stops why s' => stops why s'
    end.

Declare Scope handler_scope.
Delimit Scope handler_scope with handler.
Notation "x <- m ;; k" := (bind m (fun x => k))
  (at level 61, m at next level, right associativity) : handler_scope.
Notation "m ;; k" := (bind m (fun _ => k))
  (at level 61, right associativity) : handler_scope.
Local Open Scope handler_scope.

Definition ctl_fatal {A} (msg : string) : handler A :=
  fun s => stops (fatal msg) s.

Definition OVS_NOT_REACHED {A} : handler A := fun s => stops not_reached s.

(** [ctx->argv[i]] *)
Definition arg (ctx : nb_context) (i : nat) : handler string :=
  fun s =>
    match nth_error (nb_argv ctx) i with
    | Some a => returns a s
    | None => stops (past_argv i) s
    end.

(** [shash_find(&ctx->options, name) != NULL] *)
Definition has_option (ctx : nb_context) (name : string) : bool :=
  existsb (fun o => String.eqb (fst o) name) (nb_options ctx).

(** A setter call on the transaction. *)
Definition call (c : nb_call) : handler unit :=
  fun s =>
    returns tt {| h_output := h_output s;
                  h_stdout := h_stdout s;
                  h_calls := (h_calls s ++ [c])%list;
                  h_inserted := h_inserted s |}.

(** An insertion: the call, and the pointer to the new row. *)
Definition insert (c : nat -> nb_call) : handler row :=
  fun s =>
    returns (New (h_inserted s))
            {| h_output := h_output s;
               h_stdout := h_stdout s;
               h_calls := (h_calls s ++ [c (h_inserted s)])%list;
               h_inserted := S (h_inserted s) |}.

(** [printf] *)
Definition printf (text : string) : handler unit :=
  fun s =>
    returns tt {| h_output := h_output s;
                  h_stdout := (h_stdout s ++ [text])%list;
                  h_calls := h_calls s;
                  h_inserted := h_inserted s |}.

Section Handlers.

Context {library : Library}.

(** [ds_put_format(&ctx->output, ...)], the format already expanded. *)
Definition put (text : string) : handler unit :=
  fun s =>
    returns tt {| h_output := ds_put_cstr (h_output s) text;
                  h_stdout := h_stdout s;
                  h_calls := h_calls s;
                  h_inserted := h_inserted s |}.

(** *** Lookups *)

(** [nbrec_logical_switch_get_for_uuid] *)
Definition nbrec_logical_switch_get_for_uuid (idl : nb_idl) (u : uuid)
  : option nbrec_logical_switch :=
  find (fun r => N.eqb (lswitch_uuid r) u) (logical_switches idl).

(** [nbrec_logical_port_get_for_uuid] *)
Definition nbrec_logical_port_get_for_uuid (idl : nb_idl) (u : uuid)
  : option nbrec_logical_port :=
  find (fun r => N.eqb (lport_uuid r) u) (logical_ports idl).

(** The loop of [lswitch_by_name_or_uuid] over the rows still to visit,
    [lswitch] being the match found so far. *)
Fixpoint lswitch_by_name (id : string) (rows : list nbrec_logical_switch)
    (lswitch : option nbrec_logical_switch)
  : handler (option nbrec_logical_switch) :=
  match rows with
  | [] => ret lswitch
  | iter :: rest =>
      if negb (strcmp (lswitch_name iter) id =? 0)%Z
      then lswitch_by_name id rest lswitch
      else
        match lswitch with
        | Some _ =>
            ctl_fatal ("Multiple logical switches named '" ++ id
                       ++ "'.  Use a UUID.")
        | None => lswitch_by_name id rest (Some iter)
        end
  end.

Definition lswitch_by_name_or_uuid (ctx : nb_context) (id : string)
    (must_exist : bool) : handler (option nbrec_logical_switch) :=
  let is_uuid := uuid_from_string id in
  let lswitch :=
    match is_uuid with
    | Some u => nbrec_logical_switch_get_for_uuid (nb_idl_view ctx) u
    | None => None
    end in
  lswitch <- match lswitch with
             | Some _ => ret lswitch
             | None =>
                 lswitch_by_name id (logical_switches (nb_idl_view ctx)) None
             end ;;
  match lswitch with
  | None =>
      if must_exist
      then ctl_fatal (id ++ ": lswitch "
                      ++ match is_uuid with Some _ => "UUID" | None => "name" end
                      ++ " not found")
      else ret None
  | Some _ => ret lswitch
  end.

(** The loop of [lport_by_name_or_uuid]: it leaves at the first row
    whose name is [id]. *)
Fixpoint lport_by_name (id : string) (rows : list nbrec_logical_port)
  : option nbrec_logical_port :=
  match rows with
  | [] => None
  | lport :: rest =>
      if (strcmp (lport_name lport) id =? 0)%Z then Some lport
      else lport_by_name id rest
  end.

Definition lport_by_name_or_uuid (ctx : nb_context) (id : string)
    (must_exist : bool) : handler (option nbrec_logical_port) :=
  let is_uuid := uuid_from_string id in
  let lport :=
    match is_uuid with
    | Some u => nbrec_logical_port_get_for_uuid (nb_idl_view ctx) u
    | None => None
    end in
  let lport :=
    match lport with
    | Some _ => lport
    | None => lport_by_name id (logical_ports (nb_idl_view ctx))
    end in
  match lport with
  | None =>
      if must_exist
      then ctl_fatal (id ++ ": lport "
                      ++ match is_uuid with Some _ => "UUID" | None => "name" end
                      ++ " not found")
      else ret None
  | Some _ => ret lport
  end.

(** [lswitch->ports[i] == lport] for the first such [i]: pointers to
    rows are equal when the rows' uuids are. *)
Fixpoint port_index (lport : nbrec_logical_port)
    (ports : list nbrec_logical_port) (i : nat) : option nat :=
  match ports with
  | [] => None
  | p :: rest =>
      if N.eqb (lport_uuid p) (lport_uuid lport) then Some i
      else port_index lport rest (S i)
  end.

Fixpoint switch_of_port (lport : nbrec_logical_port)
    (rows : list nbrec_logical_switch)
  : option (nbrec_logical_switch * nat) :=
  match rows with
  | [] => None
  | lswitch :: rest =>
      match port_index lport (lswitch_ports lswitch) 0 with
      | Some i => Some (lswitch, i)
      | None => switch_of_port lport rest
      end
  end.

Definition lport_to_lswitch (idl : nb_idl) (lport : nbrec_logical_port)
  : handler nbrec_logical_switch :=
  match switch_of_port lport (logical_switches idl) with
  | Some (lswitch, _) => ret lswitch
  | None =>
      ctl_fatal ("logical port " ++ lport_name lport
                 ++ " is not part of any logical switch")
  end.

Definition lswitch_get_name (lswitch : nbrec_logical_switch) : string :=
  match lswitch_name lswitch with
  | String _ _ => lswitch_name lswitch
  | EmptyString => UUID_FMT (lswitch_uuid lswitch)
  end.

(** *** [show] and the switch commands *)

Fixpoint print_addresses (j : nat) (addrs : list string) (s : ds) : ds :=
  match addrs with
  | [] => s
  | a :: rest =>
      print_addresses (S j) rest
        (ds_put_cstr s ((if (j =? 0)%nat then "" else ", ")
                        ++ DQUOTE ++ a ++ DQUOTE))
  end.

Definition print_lport (lport : nbrec_logical_port) (s : ds) : ds :=
  let s := ds_put_cstr s ("        lport " ++ lport_name lport
                          ++ String LF "") in
  let s := match lport_parent_name lport with
           | Some parent =>
               ds_put_cstr s ("            parent: " ++ parent
                              ++ String LF "")
           | None => s
           end in
  let s := match lport_tag lport with
           | t :: _ =>
               ds_put_cstr s ("            tag: " ++ PRIu64 t
                              ++ String LF "")
           | [] => s
           end in
  match lport_addresses lport with
  | [] => s
  | _ :: _ =>
      let s := ds_put_cstr s "            addresses: [" in
      let s := print_addresses 0 (lport_addresses lport) s in
      ds_put_cstr s (String "]" (String LF ""))
  end.

Definition print_lswitch (lswitch : nbrec_logical_switch) (s : ds) : ds :=
  let s := ds_put_cstr s ("    lswitch " ++ UUID_FMT (lswitch_uuid lswitch)
                          ++ " (" ++ lswitch_name lswitch ++ ")"
                          ++ String LF "") in
  fold_left (fun s lport => print_lport lport s) (lswitch_ports lswitch) s.

(** [print_lswitch(lswitch, &ctx->output)] *)
Definition show_lswitch (lswitch : nbrec_logical_switch) : handler unit :=
  fun s =>
    returns tt {| h_output := print_lswitch lswitch (h_output s);
                  h_stdout := h_stdout s;
                  h_calls := h_calls s;
                  h_inserted := h_inserted s |}.

Fixpoint for_each {A} (rows : list A) (body : A -> handler unit) : handler unit :=
  match rows with
  | [] => ret tt
  | r :: rest => body r ;; for_each rest body
  end.

Definition nbctl_show (ctx : nb_context) : handler unit :=
  if (argc ctx =? 2)%nat then
    id <- arg ctx 1 ;;
    lswitch <- lswitch_by_name_or_uuid ctx id false ;;
    match lswitch with
    | Some l => show_lswitch l
    | None => ret tt
    end
  else
    for_each (logical_switches (nb_idl_view ctx)) show_lswitch.

(** The loop of [nbctl_lswitch_add] over the existing switches: [true]
    when the handler returns from inside the loop. *)
Fixpoint lswitch_add_existing (name : string) (may_exist : bool)
    (rows : list nbrec_logical_switch) : handler bool :=
  match rows with
  | [] => ret false
  | lswitch :: rest =>
      if (strcmp (lswitch_name lswitch) name =? 0)%Z
      then
        if may_exist then ret true
        else ctl_fatal (name ++ ": an lswitch with this name already exists")
      else lswitch_add_existing name may_exist rest
  end.

Definition nbctl_lswitch_add (ctx : nb_context) : handler unit :=
  name <- (if (argc ctx =? 2)%nat
           then (a <- arg ctx 1 ;; ret (Some a))
           else ret None) ;;
  let may_exist := has_option ctx "--may-exist" in
  let add_duplicate := has_option ctx "--add-duplicate" in
  (if may_exist && add_duplicate
   then ctl_fatal "--may-exist and --add-duplicate may not be used together"
   else ret tt) ;;
  returned <- match name with
          | Some name =>
              if negb add_duplicate
              then lswitch_add_existing name may_exist
                     (logical_switches (nb_idl_view ctx))
              else ret false
          | None =>
              if may_exist
              then ctl_fatal "--may-exist requires specifying a name"
              else if add_duplicate
              then ctl_fatal "--add-duplicate requires specifying a name"
              else ret false
          end ;;
  if returned then ret tt
  else
    lswitch <- insert nbrec_logical_switch_insert ;;
    match name with
    | Some name => call (nbrec_logical_switch_set_name lswitch name)
    | None => ret tt
    end.

Definition nbctl_lswitch_del (ctx : nb_context) : handler unit :=
  let must_exist := negb (has_option ctx "--if-exists") in
  id <- arg ctx 1 ;;
  lswitch <- lswitch_by_name_or_uuid ctx id must_exist ;;
  match lswitch with
  | None => ret tt
  | Some l => call (nbrec_logical_switch_delete (Row (lswitch_uuid l)))
  end.

(** The lines of a sorted [smap], one value per line. *)
Definition put_values (nodes : list (string * string)) : handler unit :=
  for_each nodes (fun node => put (snd node ++ String LF "")).

Definition nbctl_lswitch_list (ctx : nb_context) : handler unit :=
  let lswitches :=
    map (fun l => (lswitch_name l,
                   UUID_FMT (lswitch_uuid l) ++ " (" ++ lswitch_name l ++ ")"))
        (logical_switches (nb_idl_view ctx)) in
  put_values (smap_sort lswitches).

(** *** The port commands *)

(** A lookup with [must_exist] set: it returns a row or dies, so that
    the caller dereferences the result unchecked.  The branch of the null
    result is there for the type only. *)
Definition the_lswitch (ctx : nb_context) (id : string)
  : handler nbrec_logical_switch :=
  found <- lswitch_by_name_or_uuid ctx id true ;;
  match found with
  | Some lswitch => ret lswitch
  | None => OVS_NOT_REACHED
  end.

Definition the_lport (ctx : nb_context) (id : string)
  : handler nbrec_logical_port :=
  found <- lport_by_name_or_uuid ctx id true ;;
  match found with
  | Some lport => ret lport
  | None => OVS_NOT_REACHED
  end.

(** [new_ports[idx] = new_ports[n - 1]] on a copy of the array, of which
    the first [n - 1] elements are kept. *)
Definition swap_remove {A} (idx : nat) (l : list A) : list A :=
  match nth_error l (List.length l - 1) with
  | Some last =>
      firstn (List.length l - 1)
             (firstn idx l ++ last :: skipn (S idx) l)%list
  | None => l
  end.

Definition port_row (lport : nbrec_logical_port) : row :=
  Row (lport_uuid lport).

Definition nbctl_lport_add (ctx : nb_context) : handler unit :=
  let may_exist := has_option ctx "--may-exist" in
  id <- arg ctx 1 ;;
  lswitch <- the_lswitch ctx id ;;
  parent_tag <-
    (if (argc ctx =? 3)%nat then ret (None, (-1)%Z)
     else if (argc ctx =? 5)%nat then
       a3 <- arg ctx 3 ;;
       a4 <- arg ctx 4 ;;
       match scan_d64 a4 with
       | Some tag =>
           if (tag <? 0)%Z || (4095 <? tag)%Z
           then ctl_fatal (a4 ++ ": invalid tag")
           else ret (Some a3, tag)
       | None => ctl_fatal (a4 ++ ": invalid tag")
       end
     else ctl_fatal "lport-add with parent must also specify a tag") ;;
  let parent_name : option string := fst parent_tag in
  let tag : Z := snd parent_tag in
  lport_name <- arg ctx 2 ;;
  lport <- lport_by_name_or_uuid ctx lport_name false ;;
  match lport with
  | Some lport =>
      (if negb may_exist
       then ctl_fatal (lport_name
                       ++ ": an lport with this name already exists")
       else ret tt) ;;
      lsw <- lport_to_lswitch (nb_idl_view ctx) lport ;;
      (if negb (N.eqb (lswitch_uuid lsw) (lswitch_uuid lswitch))
       then ctl_fatal (lport_name
                       ++ ": lport already exists but in lswitch "
                       ++ lswitch_get_name lsw)
       else ret tt) ;;
      match parent_name with
      | Some parent =>
          match lport_parent_name lport with
          | None =>
              ctl_fatal (lport_name
                         ++ ": lport already exists but has no parent")
          | Some existing =>
              if negb (strcmp parent existing =? 0)%Z
              then ctl_fatal (lport_name
                     ++ ": lport already exists with different parent "
                     ++ existing)
              else ret tt
          end ;;
          match lport_tag lport with
          | [] =>
              ctl_fatal (lport_name
                         ++ ": lport already exists but has no tag")
          | t :: _ =>
              if negb (t =? tag)%Z
              then ctl_fatal (lport_name
                     ++ ": lport already exists with different tag "
                     ++ PRId64 t)
              else ret tt
          end
      | None =>
          match lport_parent_name lport with
          | Some existing =>
              ctl_fatal (lport_name
                         ++ ": lport already exists but has parent "
                         ++ existing)
          | None => ret tt
          end
      end
  | None =>
      lport <- insert nbrec_logical_port_insert ;;
      call (nbrec_logical_port_set_name lport lport_name) ;;
      (if (0 <=? tag)%Z then
         call (nbrec_logical_port_set_parent_name lport parent_name) ;;
         call (nbrec_logical_port_set_tag lport [tag])
       else ret tt) ;;
      let this := Row (lswitch_uuid lswitch) in
      call (nbrec_logical_switch_verify_ports this) ;;
      call (nbrec_logical_switch_set_ports this
              (map port_row (lswitch_ports lswitch) ++ [lport])%list)
  end.

(** [idx] is an index of [lswitch->ports]; the other branch is there for
    the type only. *)
Definition remove_lport (lswitch : nbrec_logical_switch) (idx : nat)
  : handler unit :=
  match nth_error (lswitch_ports lswitch) idx with
  | None => OVS_NOT_REACHED
  | Some lport =>
      let this := Row (lswitch_uuid lswitch) in
      call (nbrec_logical_switch_verify_ports this) ;;
      call (nbrec_logical_switch_set_ports this
              (swap_remove idx (map port_row (lswitch_ports lswitch)))) ;;
      call (nbrec_logical_port_delete (port_row lport))
  end.

Definition nbctl_lport_del (ctx : nb_context) : handler unit :=
  let must_exist := negb (has_option ctx "--if-exists") in
  id <- arg ctx 1 ;;
  lport <- lport_by_name_or_uuid ctx id must_exist ;;
  match lport with
  | None => ret tt
  | Some lport =>
      match switch_of_port lport (logical_switches (nb_idl_view ctx)) with
      | Some (lswitch, i) => remove_lport lswitch i
      | None =>
          ctl_fatal ("logical port " ++ id
                     ++ " is not part of any logical switch")
      end
  end.

Definition nbctl_lport_list (ctx : nb_context) : handler unit :=
  id <- arg ctx 1 ;;
  lswitch <- the_lswitch ctx id ;;
  let lports :=
    map (fun p => (lport_name p,
                   UUID_FMT (lport_uuid p) ++ " (" ++ lport_name p ++ ")"))
        (lswitch_ports lswitch) in
  put_values (smap_sort lports).

Definition nbctl_lport_get_parent (ctx : nb_context) : handler unit :=
  id <- arg ctx 1 ;;
  lport <- the_lport ctx id ;;
  match lport_parent_name lport with
  | Some parent => put (parent ++ String LF "")
  | None => ret tt
  end.

Definition nbctl_lport_get_tag (ctx : nb_context) : handler unit :=
  id <- arg ctx 1 ;;
  lport <- the_lport ctx id ;;
  match lport_tag lport with
  | t :: _ => put (PRId64 t ++ String LF "")
  | [] => ret tt
  end.

(** The validation loop of [nbctl_lport_set_addresses]. *)
Fixpoint check_addresses (addrs : list string) : handler unit :=
  match addrs with
  | [] => ret tt
  | a :: rest =>
      if negb (strcmp a "unknown" =? 0)%Z && negb (scan_eth_addr a)
      then ctl_fatal (a ++ ": Invalid address format. See ovn-nb(5). "
                      ++ "Hint: An Ethernet address must be "
                      ++ "listed before an IP address, together as a single "
                      ++ "argument.")
      else check_addresses rest
  end.

Definition nbctl_lport_set_addresses (ctx : nb_context) : handler unit :=
  id <- arg ctx 1 ;;
  lport <- the_lport ctx id ;;
  check_addresses (skipn 2 (nb_argv ctx)) ;;
  call (nbrec_logical_port_set_addresses (port_row lport)
          (skipn 2 (nb_argv ctx))).

Definition put_lines (lines : list string) : handler unit :=
  for_each lines (fun line => put (line ++ String LF "")).

Definition nbctl_lport_get_addresses (ctx : nb_context) : handler unit :=
  id <- arg ctx 1 ;;
  lport <- the_lport ctx id ;;
  put_lines (svec_sort (lport_addresses lport)).

Definition nbctl_lport_set_port_security (ctx : nb_context) : handler unit :=
  id <- arg ctx 1 ;;
  lport <- the_lport ctx id ;;
  call (nbrec_logical_port_set_port_security (port_row lport)
          (skipn 2 (nb_argv ctx))).

Definition nbctl_lport_get_port_security (ctx : nb_context) : handler unit :=
  id <- arg ctx 1 ;;
  lport <- the_lport ctx id ;;
  put_lines (svec_sort (lport_port_security lport)).

Definition nbctl_lport_get_up (ctx : nb_context) : handler unit :=
  id <- arg ctx 1 ;;
  lport <- the_lport ctx id ;;
  put ((match lport_up lport with
        | Some true => "up"
        | _ => "down"
        end) ++ String LF "").

Definition nbctl_lport_set_enabled (ctx : nb_context) : handler unit :=
  id <- arg ctx 1 ;;
  state <- arg ctx 2 ;;
  lport <- the_lport ctx id ;;
  if (strcasecmp state "enabled" =? 0)%Z then
    call (nbrec_logical_port_set_enabled (port_row lport) [true])
  else if (strcasecmp state "disabled" =? 0)%Z then
    call (nbrec_logical_port_set_enabled (port_row lport) [false])
  else
    ctl_fatal (state ++ ": state must be " ++ DQUOTE ++ "enabled" ++ DQUOTE
               ++ " or " ++ DQUOTE ++ "disabled" ++ DQUOTE).

Definition nbctl_lport_get_enabled (ctx : nb_context) : handler unit :=
  id <- arg ctx 1 ;;
  lport <- the_lport ctx id ;;
  put ((match lport_enabled lport with
        | Some false => "disabled"
        | _ => "enabled"
        end) ++ String LF "").

Definition nbctl_lport_set_type (ctx : nb_context) : handler unit :=
  id <- arg ctx 1 ;;
  type <- arg ctx 2 ;;
  lport <- the_lport ctx id ;;
  call (nbrec_logical_port_set_type (port_row lport) type).

Definition nbctl_lport_get_type (ctx : nb_context) : handler unit :=
  id <- arg ctx 1 ;;
  lport <- the_lport ctx id ;;
  put (lport_type lport ++ String LF "").

(** The loop of [nbctl_lport_set_options]: the pairs added to the local
    [smap], in the order of the arguments. *)
Fixpoint parse_options (args : list string) : list (string * string) :=
  match args with
  | [] => []
  | a :: rest =>
      match strsep a with
      | (key, Some value) => (key, value) :: parse_options rest
      | (_, None) => parse_options rest
      end
  end.

Definition nbctl_lport_set_options (ctx : nb_context) : handler unit :=
  id <- arg ctx 1 ;;
  lport <- the_lport ctx id ;;
  call (nbrec_logical_port_set_options (port_row lport)
          (parse_options (skipn 2 (nb_argv ctx)))).

Definition nbctl_lport_get_options (ctx : nb_context) : handler unit :=
  id <- arg ctx 1 ;;
  lport <- the_lport ctx id ;;
  for_each (lport_options lport)
    (fun node => put (fst node ++ "=" ++ snd node ++ String LF "")).

(** *** The ACL commands *)

Definition DIR_FROM_LPORT : Z := 0.
Definition DIR_TO_LPORT : Z := 1.

(** [None] is [OVS_NOT_REACHED]. *)
Definition dir_encode (dir : string) : option Z :=
  if (strcmp dir "from-lport" =? 0)%Z then Some DIR_FROM_LPORT
  else if (strcmp dir "to-lport" =? 0)%Z then Some DIR_TO_LPORT
  else None.

Definition acl_cmp (acl1 acl2 : nbrec_acl) : option Z :=
  match dir_encode (acl_direction acl1) with
  | None => None
  | Some dir1 =>
      match dir_encode (acl_direction acl2) with
      | None => None
      | Some dir2 =>
          if negb (dir1 =? dir2)%Z
          then Some (if (dir1 <? dir2)%Z then -1 else 1)%Z
          else if negb (acl_priority acl1 =? acl_priority acl2)%Z
          then Some (if (acl_priority acl2 <? acl_priority acl1)%Z then -1 else 1)%Z
          else Some (strcmp (acl_match acl1) (acl_match acl2))
      end
  end.

(** The comparator as [qsort] sees it when no call leaves through
    [OVS_NOT_REACHED]. *)
Definition acl_cmp_value (acl1 acl2 : nbrec_acl) : Z :=
  match acl_cmp acl1 acl2 with
  | Some z => z
  | None => 0
  end.

Definition acl_line (acl : nbrec_acl) : string :=
  pad_left 10 (acl_direction acl) ++ " "
  ++ pad_left 5 (PRId64 (acl_priority acl))
  ++ " (" ++ acl_match acl ++ ") " ++ acl_action acl
  ++ (if acl_log acl then " log" else "") ++ String LF "".

(** The lines go to the standard output through [printf], not to
    [ctx->output].  [qsort] hands every element of an array of two or
    more to the comparator, so that a direction [dir_encode] does not
    know ends the program there; an array of fewer elements is not
    compared at all. *)
Definition nbctl_acl_list (ctx : nb_context) : handler unit :=
  id <- arg ctx 1 ;;
  lswitch <- the_lswitch ctx id ;;
  let acls := lswitch_acls lswitch in
  if (2 <=? List.length acls)%nat
     && existsb (fun acl => match dir_encode (acl_direction acl) with
                            | None => true
                            | Some _ => false
                            end) acls
  then OVS_NOT_REACHED
  else for_each (qsort acl_cmp_value acls)
                (fun acl => printf (acl_line acl)).

Definition parse_direction (arg : string) : handler string :=
  if Ascii.eqb (first_char arg) "t"%char then ret "to-lport"
  else if Ascii.eqb (first_char arg) "f"%char then ret "from-lport"
  else ctl_fatal (arg ++ ": direction must be " ++ DQUOTE ++ "to-lport"
                  ++ DQUOTE ++ " or " ++ DQUOTE ++ "from-lport" ++ DQUOTE).

Definition parse_priority (arg : string) : handler Z :=
  match scan_d64 arg with
  | Some priority =>
      if (priority <? 0)%Z || (32767 <? priority)%Z
      then ctl_fatal (arg ++ ": priority must in range 0...32767")
      else ret priority
  | None => ctl_fatal (arg ++ ": priority must in range 0...32767")
  end.

Definition acl_row (acl : nbrec_acl) : row := Row (acl_uuid acl).

Definition nbctl_acl_add (ctx : nb_context) : handler unit :=
  action <- arg ctx 5 ;;
  id <- arg ctx 1 ;;
  lswitch <- the_lswitch ctx id ;;
  a2 <- arg ctx 2 ;;
  direction <- parse_direction a2 ;;
  a3 <- arg ctx 3 ;;
  priority <- parse_priority a3 ;;
  if negb (strcmp action "allow" =? 0)%Z
     && negb (strcmp action "allow-related" =? 0)%Z
     && negb (strcmp action "drop" =? 0)%Z
     && negb (strcmp action "reject" =? 0)%Z
  then ctl_fatal (action ++ ": action must be one of " ++ DQUOTE ++ "allow"
                  ++ DQUOTE ++ ", " ++ DQUOTE ++ "allow-related" ++ DQUOTE
                  ++ ", " ++ DQUOTE ++ "drop" ++ DQUOTE ++ ", and "
                  ++ DQUOTE ++ "reject" ++ DQUOTE)
  else
    acl <- insert nbrec_acl_insert ;;
    call (nbrec_acl_set_priority acl priority) ;;
    call (nbrec_acl_set_direction acl direction) ;;
    a4 <- arg ctx 4 ;;
    call (nbrec_acl_set_match acl a4) ;;
    call (nbrec_acl_set_action acl action) ;;
    (if has_option ctx "--log" then call (nbrec_acl_set_log acl true)
     else ret tt) ;;
    let this := Row (lswitch_uuid lswitch) in
    call (nbrec_logical_switch_verify_acls this) ;;
    call (nbrec_logical_switch_set_acls this
            (map acl_row (lswitch_acls lswitch) ++ [acl])%list).

(** The index of the first ACL that the three keys select. *)
Fixpoint matching_acl (priority : Z) (m direction : string)
    (acls : list nbrec_acl) (i : nat) : option nat :=
  match acls with
  | [] => None
  | acl :: rest =>
      if (priority =? acl_priority acl)%Z
         && (strcmp m (acl_match acl) =? 0)%Z
         && (strcmp direction (acl_direction acl) =? 0)%Z
      then Some i
      else matching_acl priority m direction rest (S i)
  end.

Definition nbctl_acl_del (ctx : nb_context) : handler unit :=
  id <- arg ctx 1 ;;
  lswitch <- the_lswitch ctx id ;;
  let this := Row (lswitch_uuid lswitch) in
  (if negb (argc ctx =? 2)%nat && negb (argc ctx =? 3)%nat
      && negb (argc ctx =? 5)%nat
   then ctl_fatal "cannot specify priority without match"
   else ret tt) ;;
  if (argc ctx =? 2)%nat then
    call (nbrec_logical_switch_verify_acls this) ;;
    call (nbrec_logical_switch_set_acls this [])
  else
    a2 <- arg ctx 2 ;;
    direction <- parse_direction a2 ;;
    if (argc ctx =? 3)%nat then
      let new_acls :=
        filter (fun acl =>
                  negb (strcmp direction (acl_direction acl) =? 0)%Z)
               (lswitch_acls lswitch) in
      call (nbrec_logical_switch_verify_acls this) ;;
      call (nbrec_logical_switch_set_acls this (map acl_row new_acls))
    else
      a3 <- arg ctx 3 ;;
      priority <- parse_priority a3 ;;
      a4 <- arg ctx 4 ;;
      match matching_acl priority a4 direction (lswitch_acls lswitch) 0 with
      | Some i =>
          call (nbrec_logical_switch_verify_acls this) ;;
          call (nbrec_logical_switch_set_acls this
                  (swap_remove i (map acl_row (lswitch_acls lswitch))))
      | None => ret tt
      end.

(** *** The command table *)

Inductive nb_mode : Type := RO | RW.

(** [struct ctl_command_syntax], the handlers being those above. *)
Record nb_command_syntax : Type := {
  nb_name : string;
  nb_min_args : Z;
  nb_max_args : Z;
  nb_arguments : string;
  nb_prerequisites : option (nb_context -> handler unit);
  nb_run : option (nb_context -> handler unit);
  nb_postprocess : option (nb_context -> handler unit);
  nb_syntax_options : string;
  nb_mode_of : nb_mode
}.

Definition command (name : string) (min_args max_args : Z)
    (arguments : string) (run : nb_context -> handler unit) (options : string)
    (mode : nb_mode) : nb_command_syntax :=
  {| nb_name := name; nb_min_args := min_args; nb_max_args := max_args;
     nb_arguments := arguments; nb_prerequisites := None;
     nb_run := Some run; nb_postprocess := None;
     nb_syntax_options := options; nb_mode_of := mode |}.

(** The entries before the terminating one. *)
Definition nbctl_commands : list nb_command_syntax :=
  [ command "show" 0 1 "[LSWITCH]" nbctl_show "" RO;
    command "lswitch-add" 0 1 "[LSWITCH]" nbctl_lswitch_add
            "--may-exist,--add-duplicate" RW;
    command "lswitch-del" 1 1 "LSWITCH" nbctl_lswitch_del "--if-exists" RW;
    command "lswitch-list" 0 0 "" nbctl_lswitch_list "" RO;
    command "acl-add" 5 5 "LSWITCH DIRECTION PRIORITY MATCH ACTION"
            nbctl_acl_add "--log" RW;
    command "acl-del" 1 4 "LSWITCH [DIRECTION [PRIORITY MATCH]]"
            nbctl_acl_del "" RW;
    command "acl-list" 1 1 "LSWITCH" nbctl_acl_list "" RO;
    command "lport-add" 2 4 "LSWITCH LPORT [PARENT] [TAG]" nbctl_lport_add
            "--may-exist" RW;
    command "lport-del" 1 1 "LPORT" nbctl_lport_del "--if-exists" RW;
    command "lport-list" 1 1 "LSWITCH" nbctl_lport_list "" RO;
    command "lport-get-parent" 1 1 "LPORT" nbctl_lport_get_parent "" RO;
    command "lport-get-tag" 1 1 "LPORT" nbctl_lport_get_tag "" RO;
    command "lport-set-addresses" 1 INT_MAX "LPORT [ADDRESS]..."
            nbctl_lport_set_addresses "" RW;
    command "lport-get-addresses" 1 1 "LPORT" nbctl_lport_get_addresses
            "" RO;
    command "lport-set-port-security" 0 INT_MAX "LPORT [ADDRS]..."
            nbctl_lport_set_port_security "" RW;
    command "lport-get-port-security" 1 1 "LPORT"
            nbctl_lport_get_port_security "" RO;
    command "lport-get-up" 1 1 "LPORT" nbctl_lport_get_up "" RO;
    command "lport-set-enabled" 2 2 "LPORT STATE" nbctl_lport_set_enabled
            "" RW;
    command "lport-get-enabled" 1 1 "LPORT" nbctl_lport_get_enabled "" RO;
    command "lport-set-type" 2 2 "LPORT TYPE" nbctl_lport_set_type "" RW;
    command "lport-get-type" 1 1 "LPORT" nbctl_lport_get_type "" RO;
    command "lport-set-options" 1 INT_MAX "LPORT KEY=VALUE [KEY=VALUE]..."
            nbctl_lport_set_options "" RW;
    command "lport-get-options" 1 1 "LPORT" nbctl_lport_get_options "" RO ].

End Handlers.

End Northbound.

(* ===================================================================== *)
(** ** Contracts of the northbound handlers *)
(* ===================================================================== *)

Section HandlerContracts.

Import Northbound.

Context {library : Library}.

(** The state in which a handler ends, however it ends. *)
Definition final {A} (o : outcome A) : handler_state :=
  match o with
  | returns _ s => s
  | stops _ s => s
  end.

(** [m] leaves the part [part] of the state as it is, however it ends. *)
Definition preserves {A X} (part : handler_state -> X) (m : handler A) : Prop :=
  forall s, part (final (m s)) = part s.

(** [m] changes nothing: it looks, and returns or stops. *)
Definition reads_only {A} (m : handler A) : Prop :=
  preserves (fun s => s) m.

(** [m] makes no setter call and inserts no row. *)
Definition keeps_calls {A} (m : handler A) : Prop :=
  preserves (fun s => (h_calls s, h_inserted s)) m.

(** [m] writes nothing to the standard output itself. *)
Definition keeps_stdout {A} (m : handler A) : Prop :=
  preserves h_stdout m.

(** [m] leaves [ctx->output] as it is. *)
Definition keeps_output {A} (m : handler A) : Prop :=
  preserves h_output m.

(** [m] always returns. *)
Definition never_stops {A} (m : handler A) : Prop :=
  forall s, exists a s', m s = returns a s'.

(** When [m] stops, it has changed nothing. *)
Definition stops_clean {A} (m : handler A) : Prop :=
  forall s why s', m s = stops why s' -> s' = s.

(** When [m] stops, it is through [ctl_fatal]: it neither reads past
    the end of [argv] nor reaches [OVS_NOT_REACHED]. *)
Definition stops_diagnosed {A} (m : handler A) : Prop :=
  forall s why s', m s = stops why s' -> exists msg, why = fatal msg.

(** The arity that the table allows: [argc - 1] arguments. *)
Definition arity_allowed (c : nb_command_syntax) (ctx : nb_context) : Prop :=
  (nb_min_args c + 1 <= Z.of_nat (argc ctx) <= nb_max_args c + 1)%Z.


(** The setter calls of [m] all satisfy [ok]. *)
Definition calls_satisfy {A} (ok : nb_call -> Prop) (m : handler A) : Prop :=
  forall s, exists cs,
    h_calls (final (m s)) = h_calls s ++ cs /\ Forall ok cs.

(** [dir_encode] knows the direction of the ACL. *)
Definition known_direction (acl : nbrec_acl) : bool :=
  match dir_encode (acl_direction acl) with
  | Some _ => true
  | None => false
  end.

(** The schema lets the direction of an ACL be one of two words. *)
Definition directions_known (ctx : nb_context) : Prop :=
  Forall (fun l => Forall (fun acl => known_direction acl = true)
                          (lswitch_acls l))
         (logical_switches (nb_idl_view ctx)).

(** The three keys by which [acl_cmp] compares. *)
Definition same_keys (acl1 acl2 : nbrec_acl) : Prop :=
  acl_direction acl1 = acl_direction acl2
  /\ acl_priority acl1 = acl_priority acl2
  /\ acl_match acl1 = acl_match acl2.

(** The row that a lookup by uuid finds for the identifier [id]. *)
Definition lswitch_for_id (ctx : nb_context) (id : string)
  : option nbrec_logical_switch :=
  match uuid_from_string id with
  | Some u => nbrec_logical_switch_get_for_uuid (nb_idl_view ctx) u
  | None => None
  end.

Definition lport_for_id (ctx : nb_context) (id : string)
  : option nbrec_logical_port :=
  match uuid_from_string id with
  | Some u => nbrec_logical_port_get_for_uuid (nb_idl_view ctx) u
  | None => None
  end.

(** The switches named [id], in the order of the table. *)
Definition lswitches_named (ctx : nb_context) (id : string)
  : list nbrec_logical_switch :=
  filter (fun l => String.eqb (lswitch_name l) id)
         (logical_switches (nb_idl_view ctx)).

(** The ports named [id], in the order of the table. *)
Definition lports_named (ctx : nb_context) (id : string)
  : list nbrec_logical_port :=
  filter (fun p => String.eqb (lport_name p) id)
         (logical_ports (nb_idl_view ctx)).

(** The word of the diagnostics for the kind of identifier. *)
Definition id_kind (id : string) : string :=
  match uuid_from_string id with
  | Some _ => "UUID"
  | None => "name"
  end.

(** The state after the setter calls [cs], [n] of which are insertions. *)
Definition after_calls (s : handler_state) (cs : list nb_call) (n : nat)
  : handler_state :=
  {| h_output := h_output s;
     h_stdout := h_stdout s;
     h_calls := h_calls s ++ cs;
     h_inserted := n + h_inserted s |}.

(** The state after [printf] has written the texts [lines]. *)
Definition after_printf (s : handler_state) (lines : list string)
  : handler_state :=
  {| h_output := h_output s;
     h_stdout := h_stdout s ++ lines;
     h_calls := h_calls s;
     h_inserted := h_inserted s |}.

(** The name that [lswitch-add] was given: [argv[1]] when [argc] is 2. *)
Definition lswitch_add_name (ctx : nb_context) : option string :=
  if (argc ctx =? 2)%nat then nth_error (nb_argv ctx) 1 else None.

(** Some switch of the table has the name [name]. *)
Definition lswitch_exists (ctx : nb_context) (name : string) : bool :=
  existsb (fun l => String.eqb (lswitch_name l) name)
          (logical_switches (nb_idl_view ctx)).

(** The ACL has the three keys that [acl-del] was given. *)
Definition acl_selected (priority : Z) (m direction : string)
    (acl : nbrec_acl) : bool :=
  (priority =? acl_priority acl)%Z
  && String.eqb m (acl_match acl)
  && String.eqb direction (acl_direction acl).

(** The values that the handlers validate before they write them: a tag
    is a single number of 0..4095, a priority is in 0..32767, a
    direction is one of the two that [dir_encode] knows, an action is one
    of the four, an address is the word unknown or scans as an Ethernet
    address, and the enabled state is a single boolean. *)
Definition valid_call (c : nb_call) : Prop :=
  match c with
  | nbrec_logical_port_set_tag _ tag =>
      exists t, tag = [t] /\ (0 <= t <= 4095)%Z
  | nbrec_acl_set_priority _ priority => (0 <= priority <= 32767)%Z
  | nbrec_acl_set_direction _ direction =>
      direction = "from-lport" \/ direction = "to-lport"
  | nbrec_acl_set_action _ action =>
      In action ["allow"; "allow-related"; "drop"; "reject"]
  | nbrec_logical_port_set_addresses _ addrs =>
      Forall (fun a => a = "unknown" \/ scan_eth_addr a = true) addrs
  | nbrec_logical_port_set_enabled _ enabled =>
      exists b, enabled = [b]
  | _ => True
  end.

(** The text of an option as [lport-get-options] prints it and as
    [lport-set-options] reads it. *)
Definition option_text (node : string * string) : string :=
  fst node ++ "=" ++ snd node.

Fixpoint has_equals (s : string) : bool :=
  match s with
  | EmptyString => false
  | String c rest => Ascii.eqb c "="%char || has_equals rest
  end.

End HandlerContracts.

(* ===================================================================== *)
(** ** The life of the session and of the transaction *)
(* ===================================================================== *)

Section LifeCycle.

Context {session : DatabaseSession}.

(** What the process holds: the session, until [ovsdb_idl_destroy], and
    a transaction, from [ovsdb_idl_txn_create] to
    [ovsdb_idl_txn_destroy]. *)
Record resources : Type := {
  session_open : bool;
  txn_open : bool
}.

Definition idle : resources := {| session_open := true; txn_open := false |}.
Definition in_txn : resources := {| session_open := true; txn_open := true |}.
Definition closed : resources :=
  {| session_open := false; txn_open := false |}.

(** The effect of one call on what the process holds.  [None] marks a
    misuse: a call on the session after it was destroyed; a call on a
    transaction, or a mutate or post-commit phase, with no transaction
    there; a second transaction while one is there; the session
    destroyed under a transaction. *)
Definition use (r : resources) (e : event) : option resources :=
  match e with
  | ev_txn_create =>
      if session_open r && negb (txn_open r) then Some in_txn else None
  | ev_txn_set_dry_run | ev_txn_add_comment _ | ev_commit _ | ev_txn_abort
  | ev_run _ _ | ev_postprocess _ _ =>
      if session_open r && txn_open r then Some r else None
  | ev_txn_destroy =>
      if session_open r && txn_open r then Some idle else None
  | ev_idl_destroy =>
      if session_open r && negb (txn_open r) then Some closed else None
  | ev_idl_run | ev_attempt _ | ev_poll_block | ev_prerequisites _ _ =>
      if session_open r then Some r else None
  | ev_symtab_create | ev_warn _ | ev_symtab_destroy | ev_output_destroy _
  | ev_table_destroy _ | ev_options_destroy _ | ev_free_commands
  | ev_printf _ | ev_stdout _ | ev_stderr _ => Some r
  end.

(** What the process holds after a trace, if the trace has no misuse. *)
Fixpoint life (r : resources) (tr : list event) : option resources :=
  match tr with
  | [] => Some r
  | e :: rest =>
      match use r e with
      | Some r' => life r' rest
      | None => None
      end
  end.

(** From a state that [P] admits, [m] runs without a misuse; if it
    returns [a], [Q a] admits the state it leaves, and if it leaves
    through [exit], everything has been released. *)
Definition lives {A} (P : resources -> process -> Prop) (m : M A)
    (Q : A -> resources -> process -> Prop) : Prop :=
  forall r p, P r p ->
    exists r',
      life r (run_trace (m p)) = Some r'
      /\ match run_result (m p) with
         | Ret a => Q a r' (run_final (m p))
         | Exit _ => r' = closed
         | Abort => True
         end.

(** No transaction is there, and [the_idl_txn] is null. *)
Definition no_txn (r : resources) (p : process) : Prop :=
  r = idle /\ the_idl_txn p = NULL.

(** A transaction is there, and [the_idl_txn] points to it. *)
Definition with_txn (r : resources) (p : process) : Prop :=
  r = in_txn /\ the_idl_txn p = PTR.

(** How an attempt leaves the resources: released after the one that
    succeeded, back to no transaction after one to be tried again. *)
Definition after_attempt (x : bool * list ctl_command) (r : resources)
    (p : process) : Prop :=
  if fst x then r = closed else no_txn r p.

(** [m] writes a diagnostic of [ctl_fatal] exactly when it ends the
    process with [EXIT_FAILURE], and then one, as the last line of the
    error stream; every other line there is a warning of the symbol
    check. *)
Definition diagnosed {A} (m : M A) : Prop :=
  forall p,
    Forall symbol_warning (warnings_of (run_trace (m p)))
    /\ match run_result (m p) with
       | Exit status =>
           (status = EXIT_SUCCESS /\ stderr_of (run_trace (m p)) = [])
           \/ (status = EXIT_FAILURE
               /\ exists msg,
                    stderr_of (run_trace (m p)) = [msg]
                    /\ error_stream (run_trace (m p))
                       = warnings_of (run_trace (m p)) ++ [msg])
       | _ => stderr_of (run_trace (m p)) = []
       end.

(** The mutate phases executed, by index of the command. *)
Fixpoint runs_of (tr : list event) : list nat :=
  match tr with
  | [] => []
  | ev_run i _ :: rest => i :: runs_of rest
  | _ :: rest => runs_of rest
  end.

Definition has_run (c : ctl_command) : bool :=
  match run (syntax c) with
  | Some _ => true
  | None => false
  end.

End LifeCycle.

(* ===================================================================== *)
(** ** A small database and library, to run the handlers on *)
(* ===================================================================== *)

Module NorthboundFixture.

Import Northbound.

(** Uuids are written as the letter u and a decimal number. *)
Definition read_uuid (s : string) : option uuid :=
  match s with
  | String "u" rest =>
      match rest with
      | EmptyString => None
      | _ => option_map N.of_uint (NilEmpty.uint_of_string rest)
      end
  | _ => None
  end.

Definition write_uuid (u : uuid) : string :=
  String "u" (NilZero.string_of_uint (N.to_uint u)).

Definition read_number (s : string) : option Z :=
  option_map Z.of_int (NilZero.int_of_string s).

(** Six pairs of hexadecimal digits take seventeen characters. *)
Definition looks_like_eth_addr (s : string) : bool :=
  (17 <=? String.length s)%nat.

Fixpoint insert_by {A} (le : A -> A -> bool) (x : A) (l : list A) : list A :=
  match l with
  | [] => [x]
  | y :: rest => if le x y then x :: l else y :: insert_by le x rest
  end.

Definition sort_by {A} (le : A -> A -> bool) (l : list A) : list A :=
  fold_right (insert_by le) [] l.

#[export] Instance library : Library := {|
  uuid_from_string := read_uuid;
  UUID_FMT := write_uuid;
  scan_d64 := read_number;
  scan_eth_addr := looks_like_eth_addr;
  smap_sort := sort_by (fun a b => String.leb (fst a) (fst b));
  svec_sort := sort_by String.leb;
  ds_put_cstr := fun d text => Some (ds_cstr d ++ text)%string;
  qsort := fun cmp => sort_by (fun a b => (cmp a b <=? 0)%Z)
|}.

Definition acl (u : uuid) (direction : string) (priority : Z)
    (m action : string) : nbrec_acl :=
  {| acl_uuid := u; acl_direction := direction; acl_priority := priority;
     acl_match := m; acl_action := action; acl_log := false |}.

Definition acl1 : nbrec_acl := acl 11%N "to-lport" 100 "ip4" "allow".
Definition acl2 : nbrec_acl := acl 12%N "from-lport" 100 "tcp" "drop".
Definition acl3 : nbrec_acl := acl 13%N "from-lport" 200 "arp" "allow".

Definition port (u : uuid) (name : string) : nbrec_logical_port :=
  {| lport_uuid := u; lport_name := name; lport_parent_name := None;
     lport_tag := []; lport_addresses := []; lport_port_security := [];
     lport_up := None; lport_enabled := None; lport_type := "";
     lport_options := [] |}.

Definition lp1 : nbrec_logical_port := port 21%N "lp1".
Definition lp2 : nbrec_logical_port := port 22%N "lp2".
Definition lp3 : nbrec_logical_port := port 23%N "lp3".

Definition sw1 : nbrec_logical_switch :=
  {| lswitch_uuid := 1%N; lswitch_name := "sw1";
     lswitch_ports := [lp1; lp2; lp3]; lswitch_acls := [acl1; acl2; acl3] |}.

Definition sw2 : nbrec_logical_switch :=
  {| lswitch_uuid := 2%N; lswitch_name := "sw2";
     lswitch_ports := []; lswitch_acls := [] |}.

Definition database : nb_idl :=
  {| logical_switches := [sw1; sw2]; logical_ports := [lp1; lp2; lp3] |}.

(** A command on the database, with its arguments and its options. *)
Definition context (argv : list string) (options : list string)
  : nb_context :=
  {| nb_argv := argv;
     nb_options := map (fun o => (o, None)) options;
     nb_idl_view := database |}.

Definition add_sw3 : nb_context := context ["lswitch-add"; "sw3"] [].
Definition del_nosuch : nb_context := context ["lswitch-del"; "nosuch"] [].
Definition show_all : nb_context := context ["show"] [].
Definition del_lp2 : nb_context := context ["lport-del"; "lp2"] [].
Definition add_lp4 : nb_context :=
  context ["lport-add"; "sw1"; "lp4"; "lp1"; "42"] [].
Definition set_opts : nb_context :=
  context ["lport-set-options"; "lp1"; "a=b"; "novalue"; "c=d=e"] [].
Definition add_acl : nb_context :=
  context ["acl-add"; "sw1"; "to-lport"; "1000"; "udp"; "reject"] ["--log"].
Definition del_acl : nb_context :=
  context ["acl-del"; "sw1"; "from-lport"; "100"; "tcp"] [].
Definition del_acls : nb_context := context ["acl-del"; "sw1"] [].
Definition list_acls : nb_context := context ["acl-list"; "sw1"] [].

(** The state in which a handler starts. *)
Definition start : handler_state :=
  {| h_output := ds_init; h_stdout := []; h_calls := []; h_inserted := 0 |}.

(** Two arrays for the same batch: one as parsed, one as an attempt left
    it, with output in the first command. *)
Definition stale_batch : list ctl_command :=
  [ {| syntax := syntax (Fixture.cmd_add "r1");
       argv := argv (Fixture.cmd_add "r1");
       options := options (Fixture.cmd_add "r1");
       output := Some "left over";
       cmd_table := None |};
    Fixture.cmd_add "r2" ].

End NorthboundFixture.

(* ===================================================================== *)
(** ** The read-only commands behind the pointers of the engine *)
(* ===================================================================== *)

Module Embedding.

(** A handler of [nbctl_commands] as the engine calls it, on the session
    of [Fixture] and the database of [NorthboundFixture]: it starts from
    the output buffer of its context, and what it leaves there and what
    it has printed are handed back.  This is for the commands that the
    table marks read-only: they make no setter call, and nothing is
    queued on the transaction.  A handler that reaches [OVS_NOT_REACHED],
    or reads past its arguments, is taken to die. *)
Definition read_only_phase
    (h : Northbound.nb_context -> Northbound.handler unit)
  : @txn_phase Fixture.session :=
  fun ctx o =>
    match h {| Northbound.nb_argv := ctx_argv ctx;
               Northbound.nb_options := ctx_options ctx;
               Northbound.nb_idl_view := NorthboundFixture.database |}
            {| Northbound.h_output := ctx_output ctx;
               Northbound.h_stdout := [];
               Northbound.h_calls := [];
               Northbound.h_inserted := 0 |} with
    | Northbound.returns _ s =>
        (Northbound.h_stdout s,
         handler_returns
           (Fixture.with_output ctx (Northbound.h_output s), o))
    | Northbound.stops (Northbound.fatal msg) s =>
        (Northbound.h_stdout s, handler_fatal msg)
    | Northbound.stops _ s => (Northbound.h_stdout s, handler_aborts)
    end.

(** The entry of [nbctl_commands] as [struct ctl_command_syntax]. *)
Definition as_syntax (c : Northbound.nb_command_syntax)
  : @ctl_command_syntax Fixture.session :=
  {| name := Northbound.nb_name c;
     min_args := Northbound.nb_min_args c;
     max_args := Northbound.nb_max_args c;
     arguments := Northbound.nb_arguments c;
     prerequisites := None;
     run := option_map read_only_phase (Northbound.nb_run c);
     postprocess := None;
     syntax_options := Northbound.nb_syntax_options c;
     mode := match Northbound.nb_mode_of c with
             | Northbound.RO => RO
             | Northbound.RW => RW
             end |}.

(** Whether the table marks the command read-only. *)
Definition read_only (c : Northbound.nb_command_syntax) : bool :=
  match Northbound.nb_mode_of c with
  | Northbound.RO => true
  | Northbound.RW => false
  end.

(** A command of the command line, given by its words; a command that
    the table does not have, or does not mark read-only, is left out. *)
Definition parse (words : list string) : list (@ctl_command Fixture.session) :=
  match find (fun c => String.eqb (Northbound.nb_name c)
                                  (hd EmptyString words)
                       && read_only c)
             (@Northbound.nbctl_commands NorthboundFixture.library) with
  | Some c =>
      [{| syntax := as_syntax c; argv := words; options := [];
          output := ds_init; cmd_table := None |}]
  | None => []
  end.

(** [ovn-nbctl lswitch-list -- acl-list sw1] *)
Definition list_batch : list (@ctl_command Fixture.session) :=
  flat_map parse [["lswitch-list"]; ["acl-list"; "sw1"]].

(** [acl-list sw1], followed by a command of [Fixture] that writes to
    the database, so that the commit can lose against another writer. *)
Definition list_add_batch : list (@ctl_command Fixture.session) :=
  parse ["acl-list"; "sw1"] ++ [Fixture.cmd_add "r1"].

(** What the two commands write on the database of the fixture. *)
Definition lswitch_list_text : string :=
  ("u1 (sw1)" ++ String LF ("u2 (sw2)" ++ String LF EmptyString))%string.

Definition acl_list_lines : list string :=
  [("from-lport   200 (arp) allow" ++ String LF EmptyString)%string;
   ("from-lport   100 (tcp) drop" ++ String LF EmptyString)%string;
   ("  to-lport   100 (ip4) allow" ++ String LF EmptyString)%string].

Definition acl_list_text : string := String.concat EmptyString acl_list_lines.

End Embedding.

(* ===================================================================== *)
(** ** Runs of the monad *)
(* ===================================================================== *)

Section MonadFacts.

Context {session : DatabaseSession}.

Lemma bind_run {A B} (m : M A) (f : A -> M B) (p : process) :
  bind m f p =
  match m p with
  | (tr, Ret a, p1) =>
      (tr ++ run_trace (f a p1), run_result (f a p1), run_final (f a p1))
  | (tr, Exit status, p1) => (tr, Exit status, p1)
  | (tr, Abort, p1) => (tr, Abort, p1)
  end.
Proof.
  unfold bind. destruct (m p) as [[tr r] p1]. destruct r; try reflexivity.
  destruct (f a p1) as [[tr' r'] p2]. reflexivity.
Qed.

Lemma bind_returns {A B} (m : M A) (f : A -> M B) p tr a p1 :
  m p = (tr, Ret a, p1) ->
  bind m f p =
  (tr ++ run_trace (f a p1), run_result (f a p1), run_final (f a p1)).
Proof. intros E. rewrite bind_run, E. reflexivity. Qed.

Lemma bind_exits {A B} (m : M A) (f : A -> M B) p tr status p1 :
  m p = (tr, Exit status, p1) -> bind m f p = (tr, Exit status, p1).
Proof. intros E. rewrite bind_run, E. reflexivity. Qed.

Lemma bind_aborts {A B} (m : M A) (f : A -> M B) p tr p1 :
  m p = (tr, Abort, p1) -> bind m f p = (tr, Abort, p1).
Proof. intros E. rewrite bind_run, E. reflexivity. Qed.

Lemma run_eta {A} (x : list event * result A * process) :
  x = (run_trace x, run_result x, run_final x).
Proof. destruct x as [[tr r] p]. reflexivity. Qed.

Lemma bind_ret {A B} (a : A) (f : A -> M B) p : bind (ret a) f p = f a p.
Proof. rewrite bind_run. simpl. symmetry. apply run_eta. Qed.

Lemma bind_emit {B} (e : event) (f : unit -> M B) p :
  bind (emit e) f p =
  (e :: run_trace (f tt p), run_result (f tt p), run_final (f tt p)).
Proof. rewrite bind_run. reflexivity. Qed.

(** *** Splitting observations over concatenated traces *)

Lemma stdout_of_app tr1 tr2 :
  stdout_of (tr1 ++ tr2) = (stdout_of tr1 ++ stdout_of tr2)%string.
Proof.
  induction tr1 as [|e tr1 IH]; simpl; [reflexivity|].
  destruct e; simpl; try exact IH;
    rewrite IH; clear IH;
    induction text as [|c text IHt]; simpl;
    first [reflexivity|now rewrite IHt].
Qed.

Lemma printed_of_app tr1 tr2 :
  printed_of (tr1 ++ tr2) = (printed_of tr1 ++ printed_of tr2)%string.
Proof.
  induction tr1 as [|e tr1 IH]; simpl; [reflexivity|].
  destruct e; simpl; try exact IH.
  rewrite IH. clear IH.
  induction text as [|c text IHt]; simpl; [reflexivity|now rewrite IHt].
Qed.

Lemma error_stream_app tr1 tr2 :
  error_stream (tr1 ++ tr2) = error_stream tr1 ++ error_stream tr2.
Proof.
  induction tr1 as [|e tr1 IH]; simpl; [reflexivity|].
  destruct e; simpl; rewrite ?IH; reflexivity.
Qed.

(** Without a diagnostic, the error stream holds the warnings. *)
Lemma error_stream_warnings tr :
  stderr_of tr = [] -> error_stream tr = warnings_of tr.
Proof.
  induction tr as [|e tr IH]; simpl; [reflexivity|].
  destruct e; simpl; intros H; try (apply IH; exact H).
  - f_equal. apply IH. exact H.
  - discriminate.
Qed.

Lemma commits_of_app tr1 tr2 :
  commits_of (tr1 ++ tr2) = commits_of tr1 ++ commits_of tr2.
Proof.
  induction tr1 as [|e tr1 IH]; simpl; [reflexivity|].
  destruct e; simpl; rewrite ?IH; reflexivity.
Qed.

Lemma warnings_of_app tr1 tr2 :
  warnings_of (tr1 ++ tr2) = warnings_of tr1 ++ warnings_of tr2.
Proof.
  induction tr1 as [|e tr1 IH]; simpl; [reflexivity|].
  destruct e; simpl; rewrite ?IH; reflexivity.
Qed.

Lemma stderr_of_app tr1 tr2 :
  stderr_of (tr1 ++ tr2) = stderr_of tr1 ++ stderr_of tr2.
Proof.
  induction tr1 as [|e tr1 IH]; simpl; [reflexivity|].
  destruct e; simpl; rewrite ?IH; reflexivity.
Qed.

Lemma attempts_of_app tr1 tr2 :
  attempts_of (tr1 ++ tr2) = attempts_of tr1 ++ attempts_of tr2.
Proof.
  induction tr1 as [|e tr1 IH]; simpl; [reflexivity|].
  destruct e; simpl; rewrite ?IH; reflexivity.
Qed.

Lemma prerequisites_of_app tr1 tr2 :
  prerequisites_of (tr1 ++ tr2) = prerequisites_of tr1 ++ prerequisites_of tr2.
Proof.
  induction tr1 as [|e tr1 IH]; simpl; [reflexivity|].
  destruct e; simpl; rewrite ?IH; reflexivity.
Qed.

Lemma postprocessed_of_app tr1 tr2 :
  postprocessed_of (tr1 ++ tr2) = postprocessed_of tr1 ++ postprocessed_of tr2.
Proof.
  induction tr1 as [|e tr1 IH]; simpl; [reflexivity|].
  destruct e; simpl; rewrite ?IH; reflexivity.
Qed.

(** *** Traces without events of a kind *)

Section Kinds.

Variable ks : list event_kind.

(** Where the output loop does not run, the standard output holds what
    the handlers printed. *)
Lemma no_stdout tr :
  ~ In K_stdout ks -> Forall (fun e => In (kind_of e) ks) tr ->
  stdout_of tr = printed_of tr.
Proof.
  intros Hk H. induction H as [|e tr He _ IH]; simpl; [reflexivity|].
  destruct e; simpl in *; try exact IH.
  - now rewrite IH.
  - contradiction.
Qed.

Lemma no_printed tr :
  ~ In K_printf ks -> Forall (fun e => In (kind_of e) ks) tr ->
  printed_of tr = EmptyString.
Proof.
  intros Hk H. induction H as [|e tr He _ IH]; simpl; [reflexivity|].
  destruct e; simpl in *; try exact IH. contradiction.
Qed.

Lemma no_output tr :
  ~ In K_stdout ks -> ~ In K_printf ks ->
  Forall (fun e => In (kind_of e) ks) tr ->
  stdout_of tr = EmptyString.
Proof.
  intros Hs Hk H. rewrite (no_stdout Hs H). exact (no_printed Hk H).
Qed.

Lemma no_commits tr :
  ~ In K_commit ks -> Forall (fun e => In (kind_of e) ks) tr ->
  commits_of tr = [].
Proof.
  intros Hk H. induction H as [|e tr He _ IH]; simpl; [reflexivity|].
  destruct e; simpl in *; try exact IH. contradiction.
Qed.

Lemma no_warnings tr :
  ~ In K_warn ks -> Forall (fun e => In (kind_of e) ks) tr ->
  warnings_of tr = [].
Proof.
  intros Hk H. induction H as [|e tr He _ IH]; simpl; [reflexivity|].
  destruct e; simpl in *; try exact IH. contradiction.
Qed.

Lemma no_stderr tr :
  ~ In K_stderr ks -> Forall (fun e => In (kind_of e) ks) tr ->
  stderr_of tr = [].
Proof.
  intros Hk H. induction H as [|e tr He _ IH]; simpl; [reflexivity|].
  destruct e; simpl in *; try exact IH. contradiction.
Qed.

Lemma no_attempts tr :
  ~ In K_loop ks -> Forall (fun e => In (kind_of e) ks) tr ->
  attempts_of tr = [].
Proof.
  intros Hk H. induction H as [|e tr He _ IH]; simpl; [reflexivity|].
  destruct e; simpl in *; try exact IH; contradiction.
Qed.

Lemma no_prerequisites tr :
  ~ In K_prerequisites ks -> Forall (fun e => In (kind_of e) ks) tr ->
  prerequisites_of tr = [].
Proof.
  intros Hk H. induction H as [|e tr He _ IH]; simpl; [reflexivity|].
  destruct e; simpl in *; try exact IH; contradiction.
Qed.

Lemma no_postprocessed tr :
  ~ In K_postprocess ks -> Forall (fun e => In (kind_of e) ks) tr ->
  postprocessed_of tr = [].
Proof.
  intros Hk H. induction H as [|e tr He _ IH]; simpl; [reflexivity|].
  destruct e; simpl in *; try exact IH; contradiction.
Qed.

Lemma emits_only_ret {A} (a : A) : emits_only ks (ret a).
Proof. intros p. constructor. Qed.

Lemma emits_only_exit {A} status : emits_only ks (@exit _ A status).
Proof. intros p. constructor. Qed.

Lemma emits_only_abort {A} : emits_only ks (@abort _ A).
Proof. intros p. constructor. Qed.

Lemma emits_only_get_idl : emits_only ks get_idl.
Proof. intros p. constructor. Qed.

Lemma emits_only_set_idl i : emits_only ks (set_idl i).
Proof. intros p. constructor. Qed.

Lemma emits_only_get_the_idl_txn : emits_only ks get_the_idl_txn.
Proof. intros p. constructor. Qed.

Lemma emits_only_set_the_idl_txn t : emits_only ks (set_the_idl_txn t).
Proof. intros p. constructor. Qed.

Lemma emits_only_emit e : In (kind_of e) ks -> emits_only ks (emit e).
Proof. intros H p. simpl. constructor; [exact H | constructor]. Qed.

Lemma emits_only_bind {A B} (m : M A) (f : A -> M B) :
  emits_only ks m -> (forall a, emits_only ks (f a)) ->
  emits_only ks (bind m f).
Proof.
  intros Hm Hf p. rewrite bind_run. specialize (Hm p).
  destruct (m p) as [[tr r] p1]. simpl in Hm.
  destruct r; simpl; try exact Hm.
  apply Forall_app. split; [exact Hm | apply Hf].
Qed.

End Kinds.

Lemma emits_only_weaken {A} ks ks' (m : M A) :
  incl ks ks' -> emits_only ks m -> emits_only ks' m.
Proof.
  intros Hi Hm p. eapply Forall_impl; [|apply Hm].
  intros e He. apply Hi. exact He.
Qed.

(** *** What a handler prints *)

Lemma handler_prints_run texts p :
  handler_prints texts p = (map ev_printf texts, Ret tt, p).
Proof.
  induction texts as [|text rest IH]; simpl; [reflexivity|].
  rewrite bind_emit, IH. reflexivity.
Qed.

Lemma handler_prints_emits ks texts :
  In K_printf ks -> emits_only ks (handler_prints texts).
Proof.
  intros Hk p. rewrite handler_prints_run. unfold run_trace. simpl.
  induction texts as [|text rest IH]; simpl; constructor; simpl; auto.
Qed.

Lemma handler_prints_exits texts : exits_failing (handler_prints texts).
Proof. intros p status. rewrite handler_prints_run. discriminate. Qed.

Lemma handler_prints_keeps texts : keeps_txn_pointer (handler_prints texts).
Proof. intros p. rewrite handler_prints_run. reflexivity. Qed.

End MonadFacts.

(** Decomposes a goal [emits_only ks m] along the structure of [m]. *)
Ltac emits_step :=
  first
    [ apply emits_only_ret
    | apply emits_only_exit
    | apply emits_only_abort
    | apply emits_only_get_idl
    | apply emits_only_set_idl
    | apply emits_only_get_the_idl_txn
    | apply emits_only_set_the_idl_txn
    | apply emits_only_emit; simpl; tauto
    | apply handler_prints_emits; simpl; tauto
    | apply emits_only_bind; [|intros]
    | match goal with
      | |- emits_only _ (match ?x with _ => _ end) => destruct x
      | |- emits_only _ (if ?b then _ else _) => destruct b
      | |- emits_only _ (let _ := _ in _) => cbv zeta
      end ].

Ltac emits := repeat emits_step.

(* ===================================================================== *)
(** ** Facts about the pieces of the engine *)
(* ===================================================================== *)

Section EngineFacts.

Context {session : DatabaseSession}.
Variable opts : nbctl_options.

(** *** Exit codes and the global transaction pointer *)

Lemma exits_failing_bind {A B} (m : M A) (f : A -> M B) :
  exits_failing m -> (forall a, exits_failing (f a)) ->
  exits_failing (bind m f).
Proof.
  intros Hm Hf p status. rewrite bind_run. specialize (Hm p).
  destruct (m p) as [[tr r] p1]. simpl in Hm.
  destruct r; simpl; intros E.
  - eapply Hf. exact E.
  - apply Hm. simpl in *. injection E as ->. reflexivity.
  - discriminate.
Qed.

Lemma keeps_txn_pointer_bind {A B} (m : M A) (f : A -> M B) :
  keeps_txn_pointer m -> (forall a, keeps_txn_pointer (f a)) ->
  keeps_txn_pointer (bind m f).
Proof.
  intros Hm Hf p. rewrite bind_run. specialize (Hm p).
  destruct (m p) as [[tr r] p1]. simpl in Hm.
  destruct r; simpl; try exact Hm.
  rewrite Hf. exact Hm.
Qed.

Lemma no_exit_failing {A} (m : M A) :
  (forall p status, run_result (m p) <> Exit status) -> exits_failing m.
Proof. intros H p status E. destruct (H p status E). Qed.

End EngineFacts.

Ltac exits_step :=
  first
    [ apply handler_prints_exits
    | apply exits_failing_bind; [|intros]
    | match goal with
      | |- exits_failing (match ?x with _ => _ end) => destruct x
      | |- exits_failing (if ?b then _ else _) => destruct b
      | |- exits_failing (let _ := _ in _) => cbv zeta
      end
    | solve [ apply no_exit_failing; intros; simpl; discriminate ]
    | solve [ intros ? ? E; simpl in E; injection E as <-; reflexivity ] ].

Ltac exits := repeat exits_step.

Ltac keeps_step :=
  first
    [ apply handler_prints_keeps
    | apply keeps_txn_pointer_bind; [|intros]
    | match goal with
      | |- keeps_txn_pointer (match ?x with _ => _ end) => destruct x
      | |- keeps_txn_pointer (if ?b then _ else _) => destruct b
      | |- keeps_txn_pointer (let _ := _ in _) => cbv zeta
      end
    | solve [ intros ?; reflexivity ] ].

Ltac keeps := repeat keeps_step.

(** Uses a lemma about fewer kinds of events. *)
Ltac emits_by lemma :=
  eapply emits_only_weaken; [| apply lemma];
  let k := fresh "k" in let Hk := fresh "Hk" in
  intros k Hk; simpl in *; tauto.

(** Projects the components of runs given as triples. *)
Ltac simpl_runs := cbn [run_trace run_result run_final fst snd] in *.

(** After [rewrite bind_run]: names the run of the first computation. *)
Tactic Notation "first_run" "as" ident(tr) ident(r) ident(p) ident(E) :=
  rewrite bind_run;
  match goal with
  | |- context [match ?x with pair _ _ => _ end] =>
      destruct x as [[tr r] p] eqn:E
  end.

Section PieceFacts.

Context {session : DatabaseSession}.
Variable opts : nbctl_options.

Lemma nbctl_exit_emits {A} status :
  emits_only [K_release] (@nbctl_exit _ A status).
Proof. unfold nbctl_exit. emits. Qed.

Lemma ctl_fatal_emits {A} msg :
  emits_only [K_stderr; K_release] (@ctl_fatal _ A msg).
Proof. unfold ctl_fatal. emits. Qed.

Lemma ctl_fatal_exits {A} msg : exits_failing (@ctl_fatal _ A msg).
Proof. unfold ctl_fatal, nbctl_exit. exits. Qed.

Lemma ctl_fatal_keeps {A} msg : keeps_txn_pointer (@ctl_fatal _ A msg).
Proof. unfold ctl_fatal, nbctl_exit. keeps. Qed.

(** What [ctl_fatal] does, spelled out on the two states of the global
    transaction pointer. *)
Lemma ctl_fatal_run {A} msg p :
  @ctl_fatal _ A msg p =
  (ev_stderr msg ::
     (if is_null (the_idl_txn p) then [] else [ev_txn_abort; ev_txn_destroy])
     ++ [ev_idl_destroy],
   Exit EXIT_FAILURE, p).
Proof.
  unfold ctl_fatal, nbctl_exit. rewrite bind_emit.
  unfold get_the_idl_txn. rewrite bind_run. simpl.
  destruct (is_null (the_idl_txn p)); reflexivity.
Qed.

Lemma printed_of_prints texts :
  printed_of (map ev_printf texts) = String.concat EmptyString texts.
Proof.
  induction texts as [|text rest IH]; simpl; [reflexivity|].
  rewrite IH. destruct rest; simpl; [|reflexivity].
  clear IH. induction text as [|c text IHt]; simpl; [reflexivity|].
  now rewrite IHt.
Qed.

Lemma call_read_phase_emits h ctx :
  emits_only [K_printf; K_stderr; K_release] (call_read_phase h ctx).
Proof. unfold call_read_phase. emits. Qed.

Lemma call_txn_phase_emits h ctx txn symtab :
  emits_only [K_printf; K_stderr; K_release]
    (call_txn_phase h ctx txn symtab).
Proof. unfold call_txn_phase. emits. Qed.

Lemma call_txn_phase_exits h ctx txn symtab :
  exits_failing (call_txn_phase h ctx txn symtab).
Proof.
  unfold call_txn_phase. exits. all: try apply ctl_fatal_exits.
Qed.

Lemma call_read_phase_exits h ctx : exits_failing (call_read_phase h ctx).
Proof.
  unfold call_read_phase. exits. all: try apply ctl_fatal_exits.
Qed.

Lemma call_txn_phase_keeps h ctx txn symtab :
  keeps_txn_pointer (call_txn_phase h ctx txn symtab).
Proof.
  unfold call_txn_phase. keeps. all: try apply ctl_fatal_keeps.
Qed.

Lemma run_prerequisites_from_emits commands : forall i,
  emits_only [K_prerequisites; K_printf; K_stderr; K_release]
    (run_prerequisites_from i commands).
Proof.
  induction commands as [|c rest IH]; intros i; simpl.
  - emits.
  - apply emits_only_bind; [|intros c'; apply emits_only_bind; [apply IH|]].
    + unfold run_prerequisite, ovs_assert. emits.
    + intros. emits.
Qed.

Lemma run_prerequisites_from_exits commands : forall i,
  exits_failing (run_prerequisites_from i commands).
Proof.
  induction commands as [|c rest IH]; intros i; simpl.
  - exits.
  - apply exits_failing_bind;
      [|intros c'; apply exits_failing_bind; [apply IH|]].
    + unfold run_prerequisite, ovs_assert. exits.
      all: try apply call_read_phase_exits.
    + intros. exits.
Qed.

Lemma open_transaction_emits args :
  emits_only [K_open] (open_transaction opts args).
Proof. unfold open_transaction. emits. Qed.

Lemma mutate_phases_emits commands : forall i ctx txn symtab,
  emits_only [K_run; K_printf; K_stderr; K_release]
    (mutate_phases i ctx commands txn symtab).
Proof.
  induction commands as [|c rest IH]; intros i ctx txn symtab; simpl.
  - emits.
  - apply emits_only_bind.
    + destruct (run (syntax c)); [|emits].
      apply emits_only_bind; [emits|intros].
      emits_by call_txn_phase_emits.
    + intros [[ctx' txn'] symtab'].
      destruct (try_again ctx'); [emits|].
      apply emits_only_bind; [apply IH|intros]. emits.
Qed.

Lemma mutate_phases_exits commands : forall i ctx txn symtab,
  exits_failing (mutate_phases i ctx commands txn symtab).
Proof.
  induction commands as [|c rest IH]; intros i ctx txn symtab; simpl.
  - exits.
  - apply exits_failing_bind.
    + destruct (run (syntax c)); [|exits].
      apply exits_failing_bind; [exits|intros].
      apply call_txn_phase_exits.
    + intros [[ctx' txn'] symtab'].
      destruct (try_again ctx'); [exits|].
      apply exits_failing_bind; [apply IH|intros]. exits.
Qed.

Lemma mutate_phases_keeps commands : forall i ctx txn symtab,
  keeps_txn_pointer (mutate_phases i ctx commands txn symtab).
Proof.
  induction commands as [|c rest IH]; intros i ctx txn symtab; simpl.
  - keeps.
  - apply keeps_txn_pointer_bind.
    + destruct (run (syntax c)); [|keeps].
      apply keeps_txn_pointer_bind; [keeps|intros].
      apply call_txn_phase_keeps.
    + intros [[ctx' txn'] symtab'].
      destruct (try_again ctx'); [keeps|].
      apply keeps_txn_pointer_bind; [apply IH|intros]. keeps.
Qed.

Lemma mutate_attempt_emits args commands :
  emits_only [K_open; K_run; K_printf; K_stderr; K_release]
    (mutate_attempt opts args commands).
Proof.
  unfold mutate_attempt.
  apply emits_only_bind; [emits_by open_transaction_emits|intros txn].
  apply emits_only_bind; [emits|intros].
  emits_by mutate_phases_emits.
Qed.

Lemma mutate_attempt_exits args commands :
  exits_failing (mutate_attempt opts args commands).
Proof.
  unfold mutate_attempt.
  apply exits_failing_bind; [unfold open_transaction; exits|intros txn].
  apply exits_failing_bind; [exits|intros].
  apply mutate_phases_exits.
Qed.

End PieceFacts.

Section MoreFacts.

Context {session : DatabaseSession}.
Variable opts : nbctl_options.

Lemma open_transaction_run args p :
  open_transaction opts args p =
  (ev_txn_create
     :: (if dry_run opts then [ev_txn_set_dry_run] else [])
     ++ [ev_txn_add_comment ("ovs-nbctl: " ++ args)%string],
   Ret (ovsdb_idl_txn_add_comment
          (if dry_run opts
           then ovsdb_idl_txn_set_dry_run (ovsdb_idl_txn_create (the_idl p))
           else ovsdb_idl_txn_create (the_idl p))
          ("ovs-nbctl: " ++ args)%string),
   {| the_idl := the_idl p; the_idl_txn := PTR |}).
Proof.
  unfold open_transaction, bind, get_idl, emit, set_the_idl_txn, ret.
  destruct (dry_run opts); reflexivity.
Qed.

Lemma mutate_attempt_pointer args commands p :
  the_idl_txn (run_final (mutate_attempt opts args commands p)) = PTR.
Proof.
  unfold mutate_attempt. rewrite bind_run, open_transaction_run.
  rewrite bind_emit. simpl.
  rewrite mutate_phases_keeps. reflexivity.
Qed.

(** *** The parsed batch is a frame of every loop *)

Lemma parsed_reset_output c : parsed (reset_output c) = parsed c.
Proof. reflexivity. Qed.

Lemma parsed_done_command ctx c :
  parsed (ctl_context_done_command ctx c) = parsed c.
Proof. reflexivity. Qed.

Lemma mutate_phases_parsed commands : forall i ctx txn symtab p again cs t s,
  run_result (mutate_phases i ctx commands txn symtab p)
  = Ret (again, cs, t, s) ->
  map parsed cs = map parsed commands.
Proof.
  induction commands as [|c rest IH]; intros i ctx txn symtab p again cs t s;
    simpl.
  - intros E. injection E as <- <- <- <-. reflexivity.
  - first_run as tr1 r1 p1 E1.
    destruct r1 as [[[ctx' txn'] symtab']| |]; simpl; try discriminate.
    destruct (try_again ctx').
    + simpl. intros E. injection E as <- <- <- <-. reflexivity.
    + rewrite bind_run.
      specialize (IH (S i) ctx' txn' symtab' p1).
      destruct (mutate_phases (S i) ctx' rest txn' symtab' p1)
        as [[tr2 r2] p2].
      destruct r2 as [[[[again2 cs2] t2] s2]| |]; simpl; try discriminate.
      intros E. injection E as <- <- <- <-. simpl.
      f_equal. eapply IH. reflexivity.
Qed.

Lemma mutate_attempt_parsed args commands p again cs t s :
  run_result (mutate_attempt opts args commands p) = Ret (again, cs, t, s) ->
  map parsed cs = map parsed commands.
Proof.
  unfold mutate_attempt. rewrite bind_run, open_transaction_run.
  rewrite bind_emit. simpl. intros E.
  apply mutate_phases_parsed in E. rewrite E, map_map.
  apply map_ext. intros c. apply parsed_reset_output.
Qed.

Lemma postprocess_phases_parsed commands : forall i txn symtab p cs t s,
  run_result (postprocess_phases i commands txn symtab p) = Ret (cs, t, s) ->
  map parsed cs = map parsed commands.
Proof.
  induction commands as [|c rest IH]; intros i txn symtab p cs t s; simpl.
  - intros E. injection E as <- <- <-. reflexivity.
  - first_run as tr1 r1 p1 E1.
    destruct r1 as [[[c' txn'] symtab']| |]; simpl; try discriminate.
    rewrite bind_run.
    specialize (IH (S i) txn' symtab' p1).
    destruct (postprocess_phases (S i) rest txn' symtab' p1)
      as [[tr2 r2] p2].
    destruct r2 as [[[cs2 t2] s2]| |]; simpl; try discriminate.
    intros E. injection E as <- <- <-. simpl. f_equal.
    + destruct (postprocess (syntax c)) as [h|].
      * rewrite bind_emit in E1. rewrite bind_run in E1.
        destruct (call_txn_phase h _ txn symtab p) as [[tr3 r3] p3].
        destruct r3 as [[[ctx3 t3] s3]| |]; simpl in E1; try discriminate.
        injection E1 as _ <- _ _ _. reflexivity.
      * injection E1 as _ <- _ _ _. reflexivity.
    + eapply IH. reflexivity.
Qed.

Lemma run_prerequisite_parsed i c p c' :
  run_result (run_prerequisite i c p) = Ret c' -> parsed c' = parsed c.
Proof.
  unfold run_prerequisite. destruct (prerequisites (syntax c)) as [h|].
  - rewrite bind_emit. simpl. rewrite bind_run.
    destruct (call_read_phase h _ p) as [[tr1 r1] p1].
    destruct r1 as [ctx1| |]; simpl; try discriminate.
    unfold ovs_assert.
    destruct (output_string_is_null _); [|discriminate].
    rewrite bind_ret.
    destruct (table_is_null _); [|discriminate].
    rewrite bind_ret. simpl. intros E. injection E as <-. reflexivity.
  - simpl. intros E. injection E as <-. reflexivity.
Qed.

Lemma run_prerequisites_from_parsed commands : forall i p cs,
  run_result (run_prerequisites_from i commands p) = Ret cs ->
  map parsed cs = map parsed commands.
Proof.
  induction commands as [|c rest IH]; intros i p cs; simpl.
  - intros E. injection E as <-. reflexivity.
  - rewrite bind_run.
    destruct (run_prerequisite i c p) as [[tr1 r1] p1] eqn:E1.
    destruct r1 as [c1| |]; simpl; try discriminate.
    rewrite bind_run. specialize (IH (S i) p1).
    destruct (run_prerequisites_from (S i) rest p1) as [[tr2 r2] p2].
    destruct r2 as [cs2| |]; simpl; try discriminate.
    intros E. injection E as <-. simpl. f_equal.
    + eapply run_prerequisite_parsed. rewrite E1. reflexivity.
    + apply IH. reflexivity.
Qed.

(** *** The symbol check *)

Lemma check_symbols_passes nodes p :
  all_created nodes = true ->
  check_symbols nodes p = (flat_map warning_events nodes, Ret tt, p).
Proof.
  induction nodes as [|[node_name symbol] rest IH]; simpl; intros H.
  - reflexivity.
  - apply andb_true_iff in H. destruct H as [Hc Hrest]. simpl in Hc.
    rewrite Hc. simpl. rewrite bind_ret.
    unfold warning_events at 1. simpl.
    destruct (strong_ref symbol); simpl.
    + rewrite bind_ret. apply IH. exact Hrest.
    + destruct (weak_ref symbol); simpl; unfold VLOG_WARN;
        rewrite bind_emit, (IH Hrest); reflexivity.
Qed.

Lemma check_symbols_fails nodes node_name p :
  first_uncreated nodes = Some node_name ->
  check_symbols nodes p =
  (flat_map warning_events (created_prefix nodes)
     ++ run_trace (@ctl_fatal _ unit (never_created_message node_name) p),
   Exit EXIT_FAILURE, p).
Proof.
  induction nodes as [|[n symbol] rest IH]; simpl; intros H.
  - discriminate.
  - destruct (created symbol) eqn:Hc; simpl.
    + rewrite bind_ret.
      unfold warning_events at 1. simpl.
      destruct (strong_ref symbol); simpl.
      * rewrite bind_ret. apply IH. exact H.
      * destruct (weak_ref symbol); simpl; unfold VLOG_WARN;
          rewrite bind_emit, (IH H); reflexivity.
    + injection H as ->. rewrite bind_run.
      rewrite ctl_fatal_run. reflexivity.
Qed.

Lemma first_uncreated_none nodes :
  first_uncreated nodes = None <-> all_created nodes = true.
Proof.
  induction nodes as [|[n symbol] rest IH]; simpl.
  - tauto.
  - destruct (created symbol); simpl; [exact IH|].
    split; discriminate.
Qed.

Lemma first_uncreated_some nodes node_name :
  first_uncreated nodes = Some node_name ->
  exists symbol, In (node_name, symbol) nodes /\ created symbol = false.
Proof.
  induction nodes as [|[n symbol] rest IH]; simpl; [discriminate|].
  destruct (created symbol) eqn:Hc.
  - intros H. destruct (IH H) as [s [Hin Hs]]. eauto.
  - intros H. injection H as ->. eauto.
Qed.

Lemma check_symbols_emits nodes :
  emits_only [K_warn; K_stderr; K_release] (check_symbols nodes).
Proof.
  induction nodes as [|[n symbol] rest IH]; simpl.
  - emits.
  - apply emits_only_bind; [emits|intros].
    apply emits_only_bind; [unfold VLOG_WARN; emits|intros]. apply IH.
Qed.

(** *** Commit, release and output *)

Lemma commit_block_run txn p status txn' idl' :
  ovsdb_idl_txn_commit_block txn (the_idl p) = (status, txn', idl') ->
  commit_block txn p =
  ([ev_commit status], Ret (status, txn'),
   {| the_idl := idl'; the_idl_txn := the_idl_txn p |}).
Proof.
  intros E. unfold commit_block, get_idl. rewrite bind_run. simpl.
  rewrite E. rewrite bind_emit. reflexivity.
Qed.

Lemma destroy_outputs_run commands : forall i p,
  destroy_outputs i commands p = (destroy_events i commands, Ret tt, p).
Proof.
  induction commands as [|c rest IH]; intros i p; simpl.
  - reflexivity.
  - rewrite !bind_emit. simpl. rewrite IH. reflexivity.
Qed.

Lemma try_again_path_run commands p :
  try_again_path PTR commands p =
  ([ev_txn_abort; ev_txn_destroy; ev_symtab_destroy]
     ++ destroy_events 0 commands,
   Ret (false, commands),
   {| the_idl := the_idl p; the_idl_txn := NULL |}).
Proof.
  unfold try_again_path. simpl is_null. cbv iota.
  rewrite bind_run, !bind_emit. simpl.
  rewrite bind_run, destroy_outputs_run. simpl.
  rewrite app_nil_r. reflexivity.
Qed.

Lemma print_escaped_run s p :
  run_result (print_escaped s p) = Ret tt
  /\ run_final (print_escaped s p) = p
  /\ stdout_of (run_trace (print_escaped s p)) = escape s
  /\ Forall (fun e => In (kind_of e) [K_stdout]) (run_trace (print_escaped s p)).
Proof.
  induction s as [|ch rest IH]; simpl.
  - repeat split. constructor.
  - destruct IH as [Hr [Hf [Hs Hk]]].
    rewrite bind_run. unfold escape_char.
    destruct (Ascii.eqb ch LF); [|destruct (Ascii.eqb ch BACKSLASH)];
      simpl; rewrite Hr, Hf, Hs; repeat split;
      constructor; simpl; auto.
Qed.

Lemma string_app_nil_r (s : string) : (s ++ EmptyString)%string = s.
Proof. induction s as [|c s IH]; simpl; [reflexivity | now rewrite IH]. Qed.

Lemma string_app_assoc (a b c : string) :
  ((a ++ b) ++ c)%string = (a ++ (b ++ c))%string.
Proof. induction a as [|x a IH]; simpl; [reflexivity | now rewrite IH]. Qed.

Lemma print_command_run c p :
  run_result (print_command opts c p) = Ret tt
  /\ run_final (print_command opts c p) = p
  /\ stdout_of (run_trace (print_command opts c p)) = block opts c
  /\ Forall (fun e => In (kind_of e) [K_stdout])
       (run_trace (print_command opts c p)).
Proof.
  unfold print_command, block.
  destruct (cmd_table c) as [t|].
  - simpl. rewrite string_app_nil_r. repeat split.
    constructor; simpl; auto.
  - destruct (oneline opts).
    + destruct (output c) as [s|]; simpl ds_chomp; cbv iota.
      * destruct (print_escaped_run (chomp s LF) p) as [Hr [Hf [Hs Hk]]].
        rewrite bind_run.
        destruct (print_escaped (chomp s LF) p) as [[tr r] p1].
        simpl_runs. subst r p1. simpl_runs.
        rewrite stdout_of_app, Hs. simpl. repeat split.
        apply Forall_app. split; [exact Hk|].
        constructor; simpl; auto.
      * rewrite bind_ret. simpl. repeat split.
        constructor; simpl; auto.
    + unfold fputs. simpl. rewrite string_app_nil_r. repeat split.
      constructor; simpl; auto.
Qed.

Lemma dispatch_output_run commands : forall i p,
  run_result (dispatch_output opts i commands p) = Ret tt
  /\ run_final (dispatch_output opts i commands p) = p
  /\ stdout_of (run_trace (dispatch_output opts i commands p))
     = blocks opts commands
  /\ Forall (fun e => In (kind_of e) [K_stdout; K_release])
       (run_trace (dispatch_output opts i commands p)).
Proof.
  induction commands as [|c rest IH]; intros i p; simpl.
  - repeat split. constructor.
  - destruct (print_command_run c p) as [Hr [Hf [Hs Hk]]].
    destruct (IH (S i) p) as [Hr' [Hf' [Hs' Hk']]].
    rewrite bind_run.
    destruct (print_command opts c p) as [[tr r] p1].
    simpl_runs. subst r p1.
    rewrite !bind_emit. simpl_runs.
    rewrite Hr', Hf'. rewrite stdout_of_app. simpl. rewrite Hs, Hs'.
    repeat split.
    + unfold blocks. simpl. destruct rest; simpl.
      * now rewrite string_app_nil_r.
      * reflexivity.
    + apply Forall_app. split.
      * eapply Forall_impl; [|exact Hk]. simpl. tauto.
      * repeat (constructor; [simpl; tauto|]). exact Hk'.
Qed.

End MoreFacts.

(* ===================================================================== *)
(** ** The single-line mode of the output dispatcher *)
(* ===================================================================== *)

Section SingleLine.

Context {session : DatabaseSession}.

Lemma chomp_snoc (s : string) (c : ascii) :
  chomp (s ++ String c EmptyString) c = s.
Proof.
  induction s as [|a s IH]; simpl.
  - now rewrite Ascii.eqb_refl.
  - rewrite IH. destruct s; reflexivity.
Qed.

Lemma replicate_snoc (k : nat) (c : ascii) :
  replicate (S k) c = (replicate k c ++ String c EmptyString)%string.
Proof. induction k as [|k IH]; simpl in *; [reflexivity | now rewrite <- IH]. Qed.

Lemma escape_app (s t : string) :
  escape (s ++ t) = (escape s ++ escape t)%string.
Proof.
  induction s as [|a s IH]; simpl; [reflexivity|].
  now rewrite IH, string_app_assoc.
Qed.

Lemma escape_replicate_LF (k : nat) :
  escape (replicate k LF) = repeat_string k ESCAPED_LF.
Proof. induction k as [|k IH]; simpl; [reflexivity | now rewrite IH]. Qed.

Lemma oneline_dispatch d dr st syn av os text p :
  stdout_of (run_trace
    (dispatch_output (oneline_options d dr st) 0
       [text_command syn av os text] p))
  = (escape (chomp (ds_cstr text) LF) ++ String LF EmptyString)%string.
Proof.
  destruct (dispatch_output_run (oneline_options d dr st)
              [text_command syn av os text] 0 p) as [_ [_ [Hs _]]].
  rewrite Hs. reflexivity.
Qed.

End SingleLine.

(* ===================================================================== *)
(** ** One attempt *)
(* ===================================================================== *)

Section AttemptFacts.

Context {session : DatabaseSession}.
Variable opts : nbctl_options.

Lemma postprocess_phases_emits commands : forall i txn symtab,
  emits_only [K_postprocess; K_printf; K_stderr; K_release]
    (postprocess_phases i commands txn symtab).
Proof.
  induction commands as [|c rest IH]; intros i txn symtab; simpl.
  - emits.
  - apply emits_only_bind.
    + destruct (postprocess (syntax c)); [|emits].
      apply emits_only_bind; [emits|intros].
      apply emits_only_bind; [emits_by call_txn_phase_emits|intros].
      emits.
    + intros [[c' txn'] symtab'].
      apply emits_only_bind; [apply IH|intros]. emits.
Qed.

Lemma postprocess_phases_exits commands : forall i txn symtab,
  exits_failing (postprocess_phases i commands txn symtab).
Proof.
  induction commands as [|c rest IH]; intros i txn symtab; simpl.
  - exits.
  - apply exits_failing_bind.
    + destruct (postprocess (syntax c)); [|exits].
      apply exits_failing_bind; [exits|intros].
      apply exits_failing_bind; [apply call_txn_phase_exits|intros].
      exits.
    + intros [[c' txn'] symtab'].
      apply exits_failing_bind; [apply IH|intros]. exits.
Qed.

Lemma postprocess_phases_keeps commands : forall i txn symtab,
  keeps_txn_pointer (postprocess_phases i commands txn symtab).
Proof.
  induction commands as [|c rest IH]; intros i txn symtab; simpl.
  - keeps.
  - apply keeps_txn_pointer_bind.
    + destruct (postprocess (syntax c)); [|keeps].
      apply keeps_txn_pointer_bind; [keeps|intros].
      apply keeps_txn_pointer_bind; [apply call_txn_phase_keeps|intros].
      keeps.
    + intros [[c' txn'] symtab'].
      apply keeps_txn_pointer_bind; [apply IH|intros]. keeps.
Qed.

(** When the loop of the post-commit phases runs to its end, it has
    called the phase of every command that has one, once, in order. *)
Lemma postprocess_phases_complete commands : forall i txn symtab p x,
  run_result (postprocess_phases i commands txn symtab p) = Ret x ->
  postprocessed_of (run_trace (postprocess_phases i commands txn symtab p))
  = indices_where has_postprocess i commands.
Proof.
  induction commands as [|c rest IH]; intros i txn symtab p x; simpl.
  - reflexivity.
  - first_run as tr1 r1 p1 E1.
    destruct r1 as [[[c' txn'] symtab']| |]; simpl_runs; try discriminate.
    rewrite bind_run. specialize (IH (S i) txn' symtab' p1).
    destruct (postprocess_phases (S i) rest txn' symtab' p1)
      as [[tr2 r2] p2].
    destruct r2 as [[[cs2 t2] s2]| |]; simpl_runs; try discriminate.
    intros _. cbn [run_trace fst snd].
    rewrite !postprocessed_of_app. cbn [postprocessed_of].
    rewrite app_nil_r, (IH _ eq_refl). cbn [indices_where].
    destruct (postprocess (syntax c)) as [h|] eqn:Hp.
    + assert (Hc : has_postprocess c = true)
        by (unfold has_postprocess; now rewrite Hp).
      rewrite Hc. rewrite bind_emit in E1. injection E1 as <- _ _.
      cbn [postprocessed_of]. cbn [app]. f_equal.
      match goal with
      | |- postprocessed_of (run_trace (?m p)) ++ _ = _ =>
          assert (Hno : postprocessed_of (run_trace (m p)) = [])
      end.
      { eapply no_postprocessed;
          [|apply (@emits_only_bind _ [K_printf; K_stderr; K_release])].
        - simpl. intuition discriminate.
        - apply call_txn_phase_emits.
        - intros [[? ?] ?]. emits. }
      rewrite Hno. reflexivity.
    + assert (Hc : has_postprocess c = false)
        by (unfold has_postprocess; now rewrite Hp).
      rewrite Hc. injection E1 as <- _ _. reflexivity.
Qed.

Lemma classify_success status error commands p :
  unchanged_or_success status = true ->
  classify opts status error PTR commands p =
  (ev_symtab_destroy
     :: run_trace (dispatch_output opts 0 commands p)
     ++ [ev_free_commands; ev_txn_destroy; ev_idl_destroy],
   Ret (true, commands), p).
Proof.
  intros H.
  destruct (dispatch_output_run opts commands 0 p) as [Hr [Hf _]].
  assert (E : classify opts status error PTR commands p
              = classify opts TXN_SUCCESS error PTR commands p)
    by (destruct status; try discriminate; reflexivity).
  rewrite E. unfold classify. rewrite bind_emit, bind_run.
  destruct (dispatch_output opts 0 commands p) as [[tr r] p1].
  simpl_runs. subst r p1. rewrite !bind_emit. reflexivity.
Qed.

Lemma classify_emits status error commands :
  emits_only [K_stdout; K_stderr; K_release]
    (classify opts status error PTR commands).
Proof.
  assert (Hd : emits_only [K_stdout; K_stderr; K_release]
                 (dispatch_output opts 0 commands)).
  { intros p. destruct (dispatch_output_run opts commands 0 p)
      as [_ [_ [_ Hk]]].
    eapply Forall_impl; [|exact Hk]. simpl. tauto. }
  assert (Ht : emits_only [K_stdout; K_stderr; K_release]
                 (try_again_path PTR commands)).
  { intros p. rewrite try_again_path_run. simpl_runs.
    repeat (constructor; [simpl; tauto|]).
    clear. generalize 0. induction commands as [|c rest IH]; intros n; simpl.
    - constructor.
    - repeat (constructor; [simpl; tauto|]). apply IH. }
  unfold classify, OVS_NOT_REACHED.
  destruct status; try solve [emits]; try exact Ht.
  - apply emits_only_bind; [emits|intros].
    apply emits_only_bind; [exact Hd|intros]. emits.
  - apply emits_only_bind; [emits|intros].
    apply emits_only_bind; [exact Hd|intros]. emits.
Qed.

Lemma after_commit_emits status commands txn symtab :
  emits_only [K_postprocess; K_printf; K_stdout; K_stderr; K_release]
    (after_commit opts status commands txn symtab).
Proof.
  unfold after_commit. apply emits_only_bind.
  - destruct (unchanged_or_success status); [|emits].
    emits_by postprocess_phases_emits.
  - intros [[cs t] s]. emits_by classify_emits.
Qed.

Lemma after_commit_not_committed status commands txn symtab p :
  unchanged_or_success status = false ->
  after_commit opts status commands txn symtab p
  = classify opts status (ovsdb_idl_txn_get_error txn) PTR commands p.
Proof.
  intros H. unfold after_commit. rewrite H, bind_ret. reflexivity.
Qed.

Lemma after_commit_committed status commands txn symtab p :
  unchanged_or_success status = true ->
  after_commit opts status commands txn symtab p =
  match postprocess_phases 0 commands txn symtab p with
  | (tr, Ret (cs, _, _), p1) =>
      (tr ++ ev_symtab_destroy
          :: run_trace (dispatch_output opts 0 cs p1)
          ++ [ev_free_commands; ev_txn_destroy; ev_idl_destroy],
       Ret (true, cs), p1)
  | (tr, Exit status, p1) => (tr, Exit status, p1)
  | (tr, Abort, p1) => (tr, Abort, p1)
  end.
Proof.
  intros H. unfold after_commit. rewrite H, bind_run.
  destruct (postprocess_phases 0 commands txn symtab p) as [[tr r] p1].
  destruct r as [[[cs t] s]| |]; try reflexivity.
  rewrite classify_success by exact H. reflexivity.
Qed.

(** What an attempt that got past the mutate phases does next. *)
Lemma do_nbctl_after_mutations args commands p tr1 again cs1 txn1 tab p1 :
  mutate_attempt opts args commands p
  = (tr1, Ret (again, cs1, txn1, tab), p1) ->
  do_nbctl opts args commands p =
  (tr1 ++ run_trace
      ((if again then try_again_path PTR cs1
        else commit_and_finish opts cs1 txn1 tab) p1),
   run_result
      ((if again then try_again_path PTR cs1
        else commit_and_finish opts cs1 txn1 tab) p1),
   run_final
      ((if again then try_again_path PTR cs1
        else commit_and_finish opts cs1 txn1 tab) p1)).
Proof.
  intros E. unfold do_nbctl. rewrite bind_run, E. reflexivity.
Qed.

(** What the attempt does once the symbol check passed. *)
Lemma commit_and_finish_checked commands txn tab p status txn' idl' :
  all_created tab = true ->
  ovsdb_idl_txn_commit_block txn (the_idl p) = (status, txn', idl') ->
  commit_and_finish opts commands txn tab p =
  let q := {| the_idl := idl'; the_idl_txn := the_idl_txn p |} in
  let x := after_commit opts status commands txn' tab q in
  (flat_map warning_events tab ++ ev_commit status :: run_trace x,
   run_result x, run_final x).
Proof.
  intros Hc E. unfold commit_and_finish.
  rewrite bind_run, check_symbols_passes by exact Hc.
  rewrite bind_run. erewrite commit_block_run by exact E. reflexivity.
Qed.

Lemma commit_and_finish_unchecked commands txn tab p node_name :
  first_uncreated tab = Some node_name ->
  commit_and_finish opts commands txn tab p =
  (flat_map warning_events (created_prefix tab)
     ++ run_trace (@ctl_fatal _ unit (never_created_message node_name) p),
   Exit EXIT_FAILURE, p).
Proof.
  intros H. unfold commit_and_finish.
  rewrite bind_run. erewrite check_symbols_fails by exact H. reflexivity.
Qed.

End AttemptFacts.

(* ===================================================================== *)
(** ** Properties of the output dispatcher in single-line mode *)
(* ===================================================================== *)

Section SingleLineClaims.

Context {session : DatabaseSession}.

(** C4.  In single-line mode, a command whose accumulated output is the
    bytes a, newline, b, backslash, c, newline makes the dispatcher write
    exactly a, backslash, n, b, backslash, backslash, c, newline.  In
    general the dispatcher writes the escaped form of the text without
    one trailing newline (newline as backslash n, backslash doubled,
    every other byte as it is), followed by a single newline. *)
Theorem C4_single_line_example :
  forall (d : string) (dr : bool) (st : table_style)
         (syn : ctl_command_syntax) (av : list string)
         (os : list (string * option string)) (p : process),
    stdout_of (run_trace
      (dispatch_output (oneline_options d dr st) 0
         [text_command syn av os
            (Some (String "a" (String LF (String "b" (String BACKSLASH
                     (String "c" (String LF EmptyString)))))))] p))
    = String "a" (String BACKSLASH (String "n" (String "b"
        (String BACKSLASH (String BACKSLASH (String "c"
           (String LF EmptyString)))))))
    /\ (forall text : string,
          stdout_of (run_trace
            (dispatch_output (oneline_options d dr st) 0
               [text_command syn av os (Some text)] p))
          = (escape (chomp text LF) ++ String LF EmptyString)%string)
    /\ escape_char LF = String BACKSLASH (String "n" EmptyString)
    /\ escape_char BACKSLASH = String BACKSLASH (String BACKSLASH EmptyString)
    /\ (forall ch : ascii,
          Ascii.eqb ch LF = false /\ Ascii.eqb ch BACKSLASH = false ->
          escape_char ch = String ch EmptyString).
Proof.
  intros d dr st syn av os p. split; [|split; [|split; [|split]]].
  - rewrite oneline_dispatch. reflexivity.
  - intros text. rewrite oneline_dispatch. reflexivity.
  - reflexivity.
  - reflexivity.
  - intros ch [H1 H2]. unfold escape_char. now rewrite H1, H2.
Qed.

(** C10.  In single-line mode the dispatcher strips at most one trailing
    newline before escaping: a command with empty output (a fresh buffer
    or an empty text) still writes exactly one newline; a command whose
    output ends in k >= 2 newlines writes the first k-1 of them as the
    escaped sequence backslash n, then one literal newline. *)
Theorem C10_single_line_trailing_newlines :
  forall (d : string) (dr : bool) (st : table_style)
         (syn : ctl_command_syntax) (av : list string)
         (os : list (string * option string)) (p : process)
         (text : string) (k : nat),
    2 <= k ->
    stdout_of (run_trace
      (dispatch_output (oneline_options d dr st) 0
         [text_command syn av os ds_init] p))
    = String LF EmptyString
    /\ stdout_of (run_trace
      (dispatch_output (oneline_options d dr st) 0
         [text_command syn av os (Some EmptyString)] p))
    = String LF EmptyString
    /\ stdout_of (run_trace
      (dispatch_output (oneline_options d dr st) 0
         [text_command syn av os (Some (text ++ replicate k LF)%string)] p))
    = (escape text ++ repeat_string (k - 1) ESCAPED_LF
       ++ String LF EmptyString)%string.
Proof.
  intros d dr st syn av os p text k Hk.
  rewrite !oneline_dispatch. repeat split.
  destruct k as [|k]; [lia|].
  replace (S k - 1) with k by lia.
  unfold ds_cstr. rewrite replicate_snoc, <- string_app_assoc, chomp_snoc.
  rewrite escape_app, escape_replicate_LF, string_app_assoc. reflexivity.
Qed.

End SingleLineClaims.

(* ===================================================================== *)
(** ** Runs that return *)
(* ===================================================================== *)

Section ReturningFacts.

Context {session : DatabaseSession}.
Variable opts : nbctl_options.

Lemma returning_emits_bind {A B} ks (m : M A) (f : A -> M B) :
  returning_emits ks m -> (forall a, returning_emits ks (f a)) ->
  returning_emits ks (bind m f).
Proof.
  intros Hm Hf p b. rewrite bind_run. specialize (Hm p).
  destruct (m p) as [[tr r] p1]. simpl_runs.
  destruct r as [a| |]; simpl_runs; try discriminate.
  intros E. apply Forall_app. split; [eapply Hm; reflexivity|].
  eapply Hf. exact E.
Qed.

Lemma returning_emits_of_emits {A} ks (m : M A) :
  emits_only ks m -> returning_emits ks m.
Proof. intros H p a _. apply H. Qed.

Lemma returning_emits_never {A} ks (m : M A) :
  (forall p a, run_result (m p) <> Ret a) -> returning_emits ks m.
Proof. intros H p a E. destruct (H p a E). Qed.

Lemma ctl_fatal_never_returns {A} msg p (a : A) :
  run_result (ctl_fatal msg p) <> Ret a.
Proof. rewrite ctl_fatal_run. discriminate. Qed.

Lemma call_txn_phase_returning h ctx txn symtab :
  returning_emits [K_printf] (call_txn_phase h ctx txn symtab).
Proof.
  unfold call_txn_phase.
  apply returning_emits_bind;
    [apply returning_emits_of_emits; emits|intros idl].
  destruct (h ctx _) as [texts [[ctx' o]|msg|]];
    (apply returning_emits_bind;
     [apply returning_emits_of_emits; emits|intros _]).
  - apply returning_emits_of_emits. emits.
  - apply returning_emits_never. intros. apply ctl_fatal_never_returns.
  - apply returning_emits_never. intros. discriminate.
Qed.

Lemma call_read_phase_returning h ctx :
  returning_emits [K_printf] (call_read_phase h ctx).
Proof.
  unfold call_read_phase.
  apply returning_emits_bind;
    [apply returning_emits_of_emits; emits|intros idl].
  destruct (h ctx _) as [texts [[ctx' o]|msg|]];
    (apply returning_emits_bind;
     [apply returning_emits_of_emits; emits|intros _]).
  - apply returning_emits_of_emits. emits.
  - apply returning_emits_never. intros. apply ctl_fatal_never_returns.
  - apply returning_emits_never. intros. discriminate.
Qed.

Lemma returning_emits_weaken {A} ks ks' (m : M A) :
  incl ks ks' -> returning_emits ks m -> returning_emits ks' m.
Proof.
  intros Hi Hm p a E. eapply Forall_impl; [|eapply Hm; exact E].
  intros e He. apply Hi. exact He.
Qed.

Lemma mutate_phases_returning commands : forall i ctx txn symtab,
  returning_emits [K_run; K_printf]
    (mutate_phases i ctx commands txn symtab).
Proof.
  induction commands as [|c rest IH]; intros i ctx txn symtab; simpl.
  - apply returning_emits_of_emits. emits.
  - apply returning_emits_bind.
    + destruct (run (syntax c)); [|apply returning_emits_of_emits; emits].
      apply returning_emits_bind;
        [apply returning_emits_of_emits; emits|intros].
      eapply returning_emits_weaken; [|apply call_txn_phase_returning].
      intros k Hk. simpl in *. tauto.
    + intros [[ctx' txn'] symtab'].
      destruct (try_again ctx'); [apply returning_emits_of_emits; emits|].
      apply returning_emits_bind; [apply IH|intros].
      apply returning_emits_of_emits. emits.
Qed.

Lemma mutate_attempt_returning args commands :
  returning_emits [K_open; K_run; K_printf]
    (mutate_attempt opts args commands).
Proof.
  unfold mutate_attempt.
  apply returning_emits_bind;
    [apply returning_emits_of_emits; emits_by open_transaction_emits
    |intros txn].
  apply returning_emits_bind;
    [apply returning_emits_of_emits; emits|intros].
  eapply returning_emits_weaken; [|apply mutate_phases_returning].
  intros k Hk. simpl in *. tauto.
Qed.

Lemma postprocess_phases_returning commands : forall i txn symtab,
  returning_emits [K_postprocess; K_printf]
    (postprocess_phases i commands txn symtab).
Proof.
  induction commands as [|c rest IH]; intros i txn symtab; simpl.
  - apply returning_emits_of_emits. emits.
  - apply returning_emits_bind.
    + destruct (postprocess (syntax c));
        [|apply returning_emits_of_emits; emits].
      apply returning_emits_bind;
        [apply returning_emits_of_emits; emits|intros].
      apply returning_emits_bind.
      * eapply returning_emits_weaken; [|apply call_txn_phase_returning].
        intros k Hk. simpl in *. tauto.
      * intros [[? ?] ?]. apply returning_emits_of_emits. emits.
    + intros [[c' txn'] symtab'].
      apply returning_emits_bind; [apply IH|intros].
      apply returning_emits_of_emits. emits.
Qed.

(** The trace of the mutate phases of an attempt that got past them. *)
Lemma mutate_attempt_trace args commands p tr1 x p1 :
  mutate_attempt opts args commands p = (tr1, Ret x, p1) ->
  stdout_of tr1 = printed_of tr1 /\ stderr_of tr1 = [] /\ commits_of tr1 = []
  /\ warnings_of tr1 = [] /\ postprocessed_of tr1 = []
  /\ attempts_of tr1 = [] /\ the_idl_txn p1 = PTR.
Proof.
  intros E.
  pose proof (mutate_attempt_returning args commands) as H.
  specialize (H p x).
  pose proof (mutate_attempt_pointer opts args commands p) as Hp.
  rewrite E in H, Hp. simpl_runs. specialize (H eq_refl).
  repeat split.
  - eapply no_stdout; [|exact H]. simpl. intuition discriminate.
  - eapply no_stderr; [|exact H]. simpl. intuition discriminate.
  - eapply no_commits; [|exact H]. simpl. intuition discriminate.
  - eapply no_warnings; [|exact H]. simpl. intuition discriminate.
  - eapply no_postprocessed; [|exact H]. simpl. intuition discriminate.
  - eapply no_attempts; [|exact H]. simpl. intuition discriminate.
  - exact Hp.
Qed.

End ReturningFacts.

(* ===================================================================== *)
(** ** Properties of one attempt *)
(* ===================================================================== *)

Section AttemptClaims.

Context {session : DatabaseSession}.
Variable opts : nbctl_options.

Lemma warning_events_kinds nodes :
  Forall (fun e => In (kind_of e) [K_warn]) (flat_map warning_events nodes).
Proof.
  induction nodes as [|[n symbol] rest IH]; simpl; [constructor|].
  apply Forall_app. split; [|exact IH].
  unfold warning_events. simpl.
  destruct (strong_ref symbol); [constructor|].
  destruct (weak_ref symbol); repeat constructor.
Qed.

Lemma warning_events_quiet nodes :
  stdout_of (flat_map warning_events nodes) = EmptyString
  /\ stderr_of (flat_map warning_events nodes) = []
  /\ commits_of (flat_map warning_events nodes) = []
  /\ postprocessed_of (flat_map warning_events nodes) = [].
Proof.
  pose proof (warning_events_kinds nodes) as H. repeat split.
  - eapply no_output; [| |exact H]; simpl; intuition discriminate.
  - eapply no_stderr; [|exact H]. simpl. intuition discriminate.
  - eapply no_commits; [|exact H]. simpl. intuition discriminate.
  - eapply no_postprocessed; [|exact H]. simpl. intuition discriminate.
Qed.

Lemma after_commit_quiet status commands txn symtab p :
  commits_of (run_trace (after_commit opts status commands txn symtab p)) = []
  /\ warnings_of
       (run_trace (after_commit opts status commands txn symtab p)) = [].
Proof.
  pose proof (after_commit_emits opts status commands txn symtab p) as H.
  split.
  - eapply no_commits; [|exact H]. simpl. intuition discriminate.
  - eapply no_warnings; [|exact H]. simpl. intuition discriminate.
Qed.

Lemma destroy_events_quiet commands : forall i,
  stdout_of (destroy_events i commands) = EmptyString
  /\ commits_of (destroy_events i commands) = []
  /\ postprocessed_of (destroy_events i commands) = []
  /\ stderr_of (destroy_events i commands) = [].
Proof.
  induction commands as [|c rest IH]; intros i; simpl.
  - repeat split.
  - apply IH.
Qed.

(** C1, as amended.  When the mutate phases of an attempt ran to their
    end with no command asking to try again, and the symbol table holds a
    symbol that was referenced but never created, [do_nbctl] terminates
    the process with the failure status after exactly one diagnostic,
    which names the first such symbol in the iteration order of the
    table, and the commit operation is never invoked. *)
Theorem C1_never_created_symbol_is_fatal :
  forall args commands p tr1 cs1 txn1 tab p1 node_name,
    mutate_attempt opts args commands p
    = (tr1, Ret (false, cs1, txn1, tab), p1) ->
    first_uncreated tab = Some node_name ->
    (exists symbol, In (node_name, symbol) tab /\ created symbol = false)
    /\ run_result (do_nbctl opts args commands p) = Exit EXIT_FAILURE
    /\ stderr_of (run_trace (do_nbctl opts args commands p))
       = [never_created_message node_name]
    /\ commits_of (run_trace (do_nbctl opts args commands p)) = [].
Proof.
  intros args commands p tr1 cs1 txn1 tab p1 node_name E Hu.
  destruct (mutate_attempt_trace _ _ _ _ E)
    as [_ [Herr [Hcom [_ [_ [_ Hptr]]]]]].
  destruct (warning_events_quiet (created_prefix tab))
    as [_ [Herr' [Hcom' _]]].
  split; [apply first_uncreated_some; exact Hu|].
  rewrite (do_nbctl_after_mutations _ _ _ _ E). cbv iota.
  erewrite commit_and_finish_unchecked by exact Hu. simpl_runs.
  rewrite ctl_fatal_run, Hptr. simpl_runs.
  rewrite !stderr_of_app, !commits_of_app, Herr, Herr', Hcom, Hcom'.
  repeat split.
Qed.

(** C5, as amended.  When the mutate phases ran to their end with no
    command asking to try again and every symbol of the table was
    created, the check logs no warning for a symbol with a strong
    reference and exactly one warning, naming it, for each symbol with
    none or only a weak one; [do_nbctl] logs no other warning, and the
    attempt goes on to invoke the commit operation, once. *)
Theorem C5_created_symbols_warn_and_commit :
  forall args commands p tr1 cs1 txn1 tab p1,
    mutate_attempt opts args commands p
    = (tr1, Ret (false, cs1, txn1, tab), p1) ->
    all_created tab = true ->
    let run := do_nbctl opts args commands p in
    let status := fst (fst (ovsdb_idl_txn_commit_block txn1 (the_idl p1))) in
    (exists rest,
        run_trace run
        = tr1 ++ flat_map warning_events tab ++ ev_commit status :: rest)
    /\ commits_of (run_trace run) = [status]
    /\ warnings_of (run_trace run) = warnings_of (flat_map warning_events tab)
    /\ (forall node, In node tab -> strong_ref (snd node) = true ->
          warning_events node = [])
    /\ (forall node, In node tab -> strong_ref (snd node) = false ->
          warning_events node
          = [ev_warn (if weak_ref (snd node)
                      then weak_reference_message (fst node)
                      else no_reference_message (fst node))]).
Proof.
  intros args commands p tr1 cs1 txn1 tab p1 E Hc run status.
  destruct (mutate_attempt_trace _ _ _ _ E)
    as [_ [_ [Hcom [Hwarn _]]]].
  destruct (warning_events_quiet tab) as [_ [_ [Hcom' _]]].
  destruct (ovsdb_idl_txn_commit_block txn1 (the_idl p1))
    as [[st txn2] idl2] eqn:Ec.
  subst run status. simpl fst.
  rewrite (do_nbctl_after_mutations _ _ _ _ E). cbv iota.
  erewrite commit_and_finish_checked by eassumption.
  cbv zeta. simpl_runs.
  match goal with
  | |- context [after_commit opts st cs1 txn2 tab ?q] =>
      destruct (after_commit_quiet st cs1 txn2 tab q) as [Hq1 Hq2]
  end.
  split; [eexists; reflexivity|].
  rewrite !commits_of_app, !warnings_of_app. simpl.
  rewrite Hcom, Hcom', Hwarn, Hq1, Hq2, app_nil_r.
  repeat split.
  - intros node _ Hs. unfold warning_events. now rewrite Hs.
  - intros node _ Hs. unfold warning_events. rewrite Hs.
    destruct (weak_ref (snd node)); reflexivity.
Qed.

(** C3.  An attempt ends in try-again when a command sets the flag in
    its mutate phase or when the commit returns the try-again status.
    Either way [do_nbctl] aborts and destroys the transaction, clears the
    global pointer to it, destroys the symbol table and every command's
    output buffer and table, and returns false; nothing was committed
    (the commit operation was not invoked, or it returned try-again), no
    post-commit phase ran, and [do_nbctl] wrote nothing to the standard
    output: all that is on it is what the mutate phases printed
    themselves; and every command's handler binding, arguments and
    options are what they were before the attempt. *)
Theorem C3_try_again_discards_the_attempt :
  forall args commands p tr1 again cs1 txn1 tab p1,
    mutate_attempt opts args commands p
    = (tr1, Ret (again, cs1, txn1, tab), p1) ->
    (again = true
     \/ (again = false /\ all_created tab = true
         /\ fst (fst (ovsdb_idl_txn_commit_block txn1 (the_idl p1)))
            = TXN_TRY_AGAIN)) ->
    let run := do_nbctl opts args commands p in
    run_result run = Ret (false, cs1)
    /\ run_trace run
       = tr1
         ++ (if again : bool then []
             else flat_map warning_events tab ++ [ev_commit TXN_TRY_AGAIN])
         ++ [ev_txn_abort; ev_txn_destroy; ev_symtab_destroy]
         ++ destroy_events 0 cs1
    /\ the_idl_txn (run_final run) = NULL
    /\ map parsed cs1 = map parsed commands
    /\ commits_of (run_trace run)
       = (if again : bool then [] else [TXN_TRY_AGAIN])
    /\ postprocessed_of (run_trace run) = []
    /\ stdout_of (run_trace run) = printed_of tr1.
Proof.
  intros args commands p tr1 again cs1 txn1 tab p1 E H run.
  destruct (mutate_attempt_trace _ _ _ _ E)
    as [Hout [_ [Hcom [_ [Hpost _]]]]].
  destruct (warning_events_quiet tab) as [Hout' [_ [Hcom' Hpost']]].
  destruct (destroy_events_quiet cs1 0) as [Hout'' [Hcom'' [Hpost'' _]]].
  assert (Hparsed : map parsed cs1 = map parsed commands).
  { eapply mutate_attempt_parsed. rewrite E. reflexivity. }
  subst run. rewrite (do_nbctl_after_mutations _ _ _ _ E).
  destruct H as [-> | [-> [Hc Hs]]]; cbv iota.
  - rewrite try_again_path_run. simpl_runs.
    rewrite !commits_of_app, !postprocessed_of_app, !stdout_of_app.
    simpl. rewrite Hout, Hcom, Hpost, Hout'', Hcom'', Hpost''.
    rewrite ?string_app_nil_r.
    repeat split; assumption.
  - destruct (ovsdb_idl_txn_commit_block txn1 (the_idl p1))
      as [[st txn2] idl2] eqn:Ec.
    simpl in Hs. subst st.
    erewrite commit_and_finish_checked by eassumption.
    cbv zeta. rewrite after_commit_not_committed by reflexivity.
    unfold classify. rewrite try_again_path_run. simpl_runs.
    repeat (progress (rewrite ?commits_of_app, ?postprocessed_of_app,
                        ?stdout_of_app; simpl)).
    rewrite Hout, Hcom, Hpost, Hout', Hcom', Hpost', Hout'', Hcom'', Hpost''.
    rewrite ?string_app_nil_r.
    repeat split; try assumption.
    rewrite <- !app_assoc. reflexivity.
Qed.

End AttemptClaims.

Section CommitOutcome.

Context {session : DatabaseSession}.
Variable opts : nbctl_options.

Lemma ctl_fatal_in_attempt {A} msg p :
  the_idl_txn p = PTR ->
  @ctl_fatal _ A msg p = (fatal_events msg, Exit EXIT_FAILURE, p).
Proof. intros H. rewrite ctl_fatal_run, H. reflexivity. Qed.


End CommitOutcome.

(* ===================================================================== *)
(** ** Properties of [run_prerequisites] *)
(* ===================================================================== *)

Section Prerequisites.

Context {session : DatabaseSession}.

Lemma call_read_phase_run h ctx p :
  call_read_phase h ctx p =
  match h ctx (the_idl p) with
  | (texts, handler_returns (ctx', idl')) =>
      (map ev_printf texts, Ret ctx',
       {| the_idl := idl'; the_idl_txn := the_idl_txn p |})
  | (texts, handler_fatal msg) =>
      (map ev_printf texts ++ run_trace (@ctl_fatal _ unit msg p),
       Exit EXIT_FAILURE, p)
  | (texts, handler_aborts) => (map ev_printf texts, Abort, p)
  end.
Proof.
  unfold call_read_phase. rewrite bind_run. cbn [get_idl].
  destruct (h ctx (the_idl p)) as [texts [[ctx' idl']|msg|]];
    rewrite bind_run, handler_prints_run; cbn [app];
    rewrite ?ctl_fatal_run; simpl_runs; rewrite ?app_nil_r; reflexivity.
Qed.

Lemma call_txn_phase_run h ctx txn symtab p :
  call_txn_phase h ctx txn symtab p =
  match h ctx {| o_idl := the_idl p; o_txn := txn; o_symtab := symtab |} with
  | (texts, handler_returns (ctx', o)) =>
      (map ev_printf texts, Ret (ctx', o_txn o, o_symtab o),
       {| the_idl := o_idl o; the_idl_txn := the_idl_txn p |})
  | (texts, handler_fatal msg) =>
      (map ev_printf texts ++ run_trace (@ctl_fatal _ unit msg p),
       Exit EXIT_FAILURE, p)
  | (texts, handler_aborts) => (map ev_printf texts, Abort, p)
  end.
Proof.
  unfold call_txn_phase. rewrite bind_run. cbn [get_idl].
  destruct (h ctx _) as [texts [[ctx' o]|msg|]];
    rewrite bind_run, handler_prints_run; cbn [app];
    rewrite ?ctl_fatal_run; simpl_runs; rewrite ?app_nil_r; reflexivity.
Qed.

Lemma run_prerequisite_none i c p :
  prerequisites (syntax c) = None ->
  run_prerequisite i c p = ([], Ret c, p).
Proof. intros H. unfold run_prerequisite. rewrite H. reflexivity. Qed.

(** The body of the loop for a command that declares a read phase: the
    call, and the two assertions on what the read phase left. *)
Lemma run_prerequisite_run i c p h texts r :
  prerequisites (syntax c) = Some h ->
  h (prerequisites_context c) (the_idl p) = (texts, r) ->
  run_prerequisite i c p =
  match r with
  | handler_returns (ctx', idl') =>
      (read_phase_events i c texts,
       if left_null ctx' then Ret (reset_output c) else Abort,
       {| the_idl := idl'; the_idl_txn := the_idl_txn p |})
  | handler_fatal msg =>
      (read_phase_events i c texts ++ run_trace (@ctl_fatal _ unit msg p),
       Exit EXIT_FAILURE, p)
  | handler_aborts => (read_phase_events i c texts, Abort, p)
  end.
Proof.
  intros H Hh. unfold run_prerequisite. rewrite H. cbv zeta.
  fold (prerequisites_context c).
  rewrite bind_emit, bind_run, call_read_phase_run, Hh.
  unfold read_phase_events.
  destruct r as [[ctx' idl']|msg|]; simpl_runs; try reflexivity.
  unfold ovs_assert, output_string_is_null, table_is_null, ctl_context_done,
    ctl_context_done_command, left_null. cbn [output cmd_table].
  destruct (ctx_output ctx'); [rewrite app_nil_r; reflexivity|].
  rewrite bind_ret.
  destruct (ctx_table ctx'); cbn [run_trace run_result run_final fst snd];
    rewrite ?app_nil_r; reflexivity.
Qed.

Lemma indices_where_from f commands : forall i,
  Forall (fun j => i <= j) (indices_where f i commands).
Proof.
  induction commands as [|c rest IH]; intros i; simpl; [constructor|].
  assert (H : Forall (fun j => i <= j) (indices_where f (S i) rest)).
  { eapply Forall_impl; [|apply IH]. intros j Hj. simpl in Hj. lia. }
  destruct (f c); [constructor; [lia|exact H] | exact H].
Qed.

(** The indices listed by [indices_where] are pairwise different: a
    command is listed at most once. *)
Lemma indices_where_NoDup f commands : forall i,
  NoDup (indices_where f i commands).
Proof.
  induction commands as [|c rest IH]; intros i; simpl; [constructor|].
  destruct (f c); [|apply IH].
  constructor; [|apply IH].
  intros Hin. pose proof (indices_where_from f rest (S i)) as H.
  rewrite Forall_forall in H. specialize (H _ Hin). lia.
Qed.

Lemma read_phase_calls_indices commands : forall i,
  map fst (read_phase_calls i commands)
  = indices_where has_prerequisites i commands.
Proof.
  induction commands as [|c rest IH]; intros i; simpl; [reflexivity|].
  destruct (has_prerequisites c); simpl; now rewrite IH.
Qed.

Lemma read_phase_calls_null commands : forall i,
  Forall (fun ic => ctx_txn (snd ic) = NULL /\ ctx_symtab (snd ic) = NULL)
    (read_phase_calls i commands).
Proof.
  induction commands as [|c rest IH]; intros i; simpl; [constructor|].
  destruct (has_prerequisites c); [|apply IH].
  constructor; [split; reflexivity|apply IH].
Qed.

Lemma prerequisites_of_read_phase_events i c texts :
  prerequisites_of (read_phase_events i c texts)
  = [(i, prerequisites_context c)].
Proof.
  unfold read_phase_events. cbn [prerequisites_of]. f_equal.
  induction texts as [|text rest IH]; simpl; [reflexivity|exact IH].
Qed.

Lemma prerequisites_of_fatal {A} msg p :
  prerequisites_of (run_trace (@ctl_fatal _ A msg p)) = [].
Proof.
  rewrite ctl_fatal_run. simpl_runs.
  destruct (is_null (the_idl_txn p)); reflexivity.
Qed.

Lemma run_prerequisites_from_spec commands : forall i p,
  let run := run_prerequisites_from i commands p in
  (exists n, prerequisites_of (run_trace run)
             = firstn n (read_phase_calls i commands))
  /\ (forall cs, run_result run = Ret cs ->
        prerequisites_of (run_trace run) = read_phase_calls i commands
        /\ cs = after_prerequisites commands)
  /\ ((exists cs, run_result run = Ret cs)
      <-> read_phases_pass commands (the_idl p) = true).
Proof.
  induction commands as [|c rest IH]; intros i p run; subst run.
  - cbn. split; [exists 0; reflexivity|]. split.
    + intros cs E. injection E as <-. split; reflexivity.
    + split; [reflexivity|intros _; eexists; reflexivity].
  - cbn [run_prerequisites_from read_phase_calls read_phases_pass
         after_prerequisites map].
    rewrite bind_run. unfold has_prerequisites at 1 2.
    destruct (prerequisites (syntax c)) as [h|] eqn:Hp.
    + destruct (h (prerequisites_context c) (the_idl p)) as [texts r] eqn:Hh.
      rewrite (run_prerequisite_run i _ _ Hp Hh). cbn [snd].
      destruct r as [[ctx' idl']|msg|].
      * destruct (left_null ctx'); cbn [andb].
        -- rewrite bind_run.
           specialize (IH (S i)
             {| the_idl := idl'; the_idl_txn := the_idl_txn p |}).
           cbv zeta in IH. destruct IH as [[n Hpre] [Hret Hiff]].
           cbn [the_idl] in Hiff.
           destruct (run_prerequisites_from (S i) rest _) as [[tr r] p1].
           simpl_runs.
           assert (Hcalls : forall tr',
             prerequisites_of (read_phase_events i c texts ++ tr')
             = (i, prerequisites_context c) :: prerequisites_of tr')
             by (intros tr'; rewrite prerequisites_of_app,
                   prerequisites_of_read_phase_events; reflexivity).
           destruct r as [cs| |]; simpl_runs; rewrite Hcalls;
             rewrite ?prerequisites_of_app; cbn [prerequisites_of];
             rewrite ?app_nil_r.
           ++ destruct (Hret cs eq_refl) as [Hall Hcs].
              split; [exists (S n); cbn [firstn]; now rewrite Hpre|].
              split.
              ** intros cs' E. injection E as <-.
                 rewrite Hall, Hcs. unfold has_prerequisites at 1.
                 rewrite Hp. split; reflexivity.
              ** rewrite <- Hiff. split; intros _; eexists; reflexivity.
           ++ split; [exists (S n); cbn [firstn]; now rewrite Hpre|].
              split; [discriminate|].
              rewrite <- Hiff.
              split; intros [cs E]; discriminate.
           ++ split; [exists (S n); cbn [firstn]; now rewrite Hpre|].
              split; [discriminate|].
              rewrite <- Hiff.
              split; intros [cs E]; discriminate.
        -- simpl_runs. rewrite prerequisites_of_read_phase_events.
           split; [exists 1; reflexivity|].
           split; [discriminate|].
           split; [intros [cs E]; discriminate|discriminate].
      * simpl_runs. rewrite prerequisites_of_app,
          prerequisites_of_read_phase_events, prerequisites_of_fatal.
        split; [exists 1; reflexivity|].
        split; [discriminate|].
        split; [intros [cs E]; discriminate|discriminate].
      * simpl_runs. rewrite prerequisites_of_read_phase_events.
        split; [exists 1; reflexivity|].
        split; [discriminate|].
        split; [intros [cs E]; discriminate|discriminate].
    + rewrite (run_prerequisite_none _ _ _ Hp).
      rewrite bind_run.
      specialize (IH (S i) p).
      cbv zeta in IH. destruct IH as [[n Hpre] [Hret Hiff]].
      destruct (run_prerequisites_from (S i) rest p) as [[tr r] p1].
      simpl_runs.
      destruct r as [cs| |]; simpl_runs; cbn [app]; rewrite ?app_nil_r.
      * destruct (Hret cs eq_refl) as [Hall Hcs].
        split; [exists n; exact Hpre|].
        split.
        -- intros cs' E. injection E as <-. rewrite Hcs.
           unfold has_prerequisites at 1. rewrite Hp.
           split; [exact Hall|reflexivity].
        -- rewrite <- Hiff. split; intros _; eexists; reflexivity.
      * split; [exists n; exact Hpre|].
        split; [discriminate|].
        rewrite <- Hiff. split; intros [cs E]; discriminate.
      * split; [exists n; exact Hpre|].
        split; [discriminate|].
        rewrite <- Hiff. split; intros [cs E]; discriminate.
Qed.


End Prerequisites.

(* ===================================================================== *)
(** ** Whole attempts and the loop of [main] *)
(* ===================================================================== *)

Section LoopFacts.

Context {session : DatabaseSession}.
Variable opts : nbctl_options.

Lemma commit_block_emits txn : emits_only [K_commit] (commit_block txn).
Proof.
  unfold commit_block. apply emits_only_bind; [emits|intros idl].
  destruct (ovsdb_idl_txn_commit_block txn idl) as [[status txn'] idl'].
  emits.
Qed.

Lemma try_again_path_emits commands :
  emits_only [K_release] (try_again_path PTR commands).
Proof.
  intros p. rewrite try_again_path_run. simpl_runs.
  repeat (constructor; [simpl; tauto|]).
  clear. generalize 0. induction commands as [|c rest IH]; intros n; simpl.
  - constructor.
  - repeat (constructor; [simpl; tauto|]). apply IH.
Qed.

(** [do_nbctl] produces no event of the loop of [main] and calls no read
    phase. *)
Lemma do_nbctl_emits args commands :
  emits_only [K_open; K_run; K_printf; K_warn; K_commit; K_postprocess;
              K_stdout; K_stderr; K_release]
    (do_nbctl opts args commands).
Proof.
  unfold do_nbctl. apply emits_only_bind.
  - emits_by mutate_attempt_emits.
  - intros [[[again cs] txn] tab]. destruct again.
    + emits_by try_again_path_emits.
    + unfold commit_and_finish.
      apply emits_only_bind; [emits_by check_symbols_emits|intros].
      apply emits_only_bind; [emits_by commit_block_emits|intros [st t]].
      emits_by after_commit_emits.
Qed.

Lemma do_nbctl_no_attempts args commands p :
  attempts_of (run_trace (do_nbctl opts args commands p)) = [].
Proof.
  eapply no_attempts; [|apply do_nbctl_emits].
  simpl. intuition discriminate.
Qed.

(** Where the handlers' texts and those of the output loop meet. *)
Lemma stdout_then tr1 tr2 text :
  stdout_of tr1 = printed_of tr1 ->
  stdout_of tr2 = (printed_of tr2 ++ text)%string ->
  stdout_of (tr1 ++ tr2) = (printed_of (tr1 ++ tr2) ++ text)%string.
Proof.
  intros H1 H2.
  rewrite stdout_of_app, printed_of_app, H1, H2, string_app_assoc.
  reflexivity.
Qed.

Lemma stdout_only_printed tr1 tr2 :
  stdout_of tr1 = printed_of tr1 -> stdout_of tr2 = printed_of tr2 ->
  stdout_of (tr1 ++ tr2) = printed_of (tr1 ++ tr2).
Proof.
  intros H1 H2. now rewrite stdout_of_app, printed_of_app, H1, H2.
Qed.

(** What the output loop and the release around it write. *)
Lemma dispatch_stdout commands p :
  let tr := ev_symtab_destroy
            :: run_trace (dispatch_output opts 0 commands p)
            ++ [ev_free_commands; ev_txn_destroy; ev_idl_destroy] in
  stdout_of tr = (printed_of tr ++ blocks opts commands)%string
  /\ printed_of tr = EmptyString.
Proof.
  destruct (dispatch_output_run opts commands 0 p) as [_ [_ [Hout Hk]]].
  assert (Hp : printed_of (run_trace (dispatch_output opts 0 commands p))
               = EmptyString)
    by (eapply no_printed; [|exact Hk]; simpl; intuition discriminate).
  cbv zeta. cbn [stdout_of printed_of].
  rewrite stdout_of_app, printed_of_app, Hout, Hp. simpl.
  rewrite string_app_nil_r. split; reflexivity.
Qed.

Lemma after_commit_outcome status commands txn symtab p :
  match after_commit opts status commands txn symtab p with
  | (tr, Ret (true, cs), _) =>
      stdout_of tr = (printed_of tr ++ blocks opts cs)%string
      /\ map parsed cs = map parsed commands
  | (tr, Ret (false, cs), _) =>
      stdout_of tr = printed_of tr /\ cs = commands
  | (_, Exit st, _) => st = EXIT_FAILURE
  | (_, Abort, _) => True
  end.
Proof.
  destruct (unchanged_or_success status) eqn:Hs.
  - rewrite after_commit_committed by exact Hs.
    pose proof (postprocess_phases_exits commands 0 txn symtab p) as Hexit.
    pose proof (postprocess_phases_returning commands 0 txn symtab) as Hret.
    pose proof (@postprocess_phases_parsed _ commands 0 txn symtab p) as Hpar.
    specialize (Hret p).
    destruct (postprocess_phases 0 commands txn symtab p) as [[tr r] p1].
    simpl_runs. destruct r as [[[cs t] s]| |].
    + split; [|eapply Hpar; reflexivity].
      apply stdout_then; [|apply dispatch_stdout].
      eapply no_stdout; [|exact (Hret _ eq_refl)].
      simpl; intuition discriminate.
    + apply Hexit. reflexivity.
    + exact I.
  - rewrite after_commit_not_committed by exact Hs.
    destruct status; try discriminate; unfold classify, OVS_NOT_REACHED;
      rewrite ?ctl_fatal_run, ?try_again_path_run; try reflexivity;
      try exact I.
    split; [|reflexivity].
    pose proof (try_again_path_emits commands p) as Hk.
    rewrite try_again_path_run in Hk.
    eapply no_stdout; [|exact Hk]. simpl; intuition discriminate.
Qed.

(** What a whole attempt wrote, by the way it ended: what its handlers
    printed themselves, and after it, when the attempt succeeded, the
    blocks of the commands. *)
Lemma do_nbctl_outcome args commands p :
  match do_nbctl opts args commands p with
  | (tr, Ret (true, cs), _) =>
      stdout_of tr = (printed_of tr ++ blocks opts cs)%string
      /\ map parsed cs = map parsed commands
  | (tr, Ret (false, cs), _) =>
      stdout_of tr = printed_of tr /\ map parsed cs = map parsed commands
  | (_, Exit st, _) => st = EXIT_FAILURE
  | (_, Abort, _) => True
  end.
Proof.
  pose proof (mutate_attempt_exits opts args commands p) as Hexit.
  destruct (mutate_attempt opts args commands p) as [[tr1 r1] p1] eqn:E.
  destruct r1 as [[[[again cs1] txn1] tab]| |].
  - destruct (mutate_attempt_trace _ _ _ _ E) as [Hout _].
    assert (Hpar : map parsed cs1 = map parsed commands)
      by (eapply mutate_attempt_parsed; rewrite E; reflexivity).
    rewrite (do_nbctl_after_mutations _ _ _ _ E).
    destruct again.
    + pose proof (try_again_path_emits cs1 p1) as Hk.
      rewrite try_again_path_run in *. simpl_runs.
      split; [|exact Hpar].
      apply stdout_only_printed; [exact Hout|].
      eapply no_stdout; [|exact Hk]. simpl; intuition discriminate.
    + destruct (first_uncreated tab) as [node_name|] eqn:Hu.
      * erewrite commit_and_finish_unchecked by exact Hu. reflexivity.
      * apply first_uncreated_none in Hu.
        destruct (ovsdb_idl_txn_commit_block txn1 (the_idl p1))
          as [[st txn2] idl2] eqn:Ec.
        erewrite commit_and_finish_checked by eassumption. cbv zeta.
        match goal with
        | |- context [after_commit opts st cs1 txn2 tab ?q] =>
            pose proof (after_commit_outcome st cs1 txn2 tab q) as Hafter;
            destruct (after_commit opts st cs1 txn2 tab q) as [[tr r] p2]
        end.
        simpl_runs.
        assert (Hw : stdout_of (flat_map warning_events tab
                                ++ [ev_commit st])
                     = printed_of (flat_map warning_events tab
                                   ++ [ev_commit st])).
        { eapply no_stdout with (ks := [K_warn; K_commit]);
            [simpl; intuition discriminate|].
          apply Forall_app. split.
          - eapply Forall_impl; [|apply warning_events_kinds].
            simpl. tauto.
          - constructor; [simpl; tauto|constructor]. }
        assert (Etr : tr1 ++ flat_map warning_events tab ++ ev_commit st :: tr
                      = tr1 ++ (flat_map warning_events tab ++ [ev_commit st])
                            ++ tr)
          by (rewrite <- !app_assoc; reflexivity).
        rewrite Etr.
        destruct r as [[[|] cs]| |]; try exact Hafter.
        -- destruct Hafter as [H1 H2].
           split; [|congruence].
           apply stdout_then; [exact Hout|].
           apply stdout_then; [exact Hw|exact H1].
        -- destruct Hafter as [H1 H2].
           split; [|congruence].
           apply stdout_only_printed; [exact Hout|].
           apply stdout_only_printed; [exact Hw|exact H1].
  - unfold do_nbctl. rewrite bind_run, E. apply Hexit. reflexivity.
  - unfold do_nbctl. rewrite bind_run, E. exact I.
Qed.

(** One pass through the loop of [main], by cases. *)
Lemma main_iteration_run args seqno commands p :
  let idl1 := ovsdb_idl_run (the_idl p) in
  let p1 := {| the_idl := idl1; the_idl_txn := the_idl_txn p |} in
  let v := ovsdb_idl_get_seqno idl1 in
  main_iteration opts args seqno commands p =
  if negb (ovsdb_idl_is_alive idl1) then
    (ev_idl_run
       :: run_trace
            (@ctl_fatal _ unit
               (db opts ++ ": database connection failed ("
                ++ ovs_retval_to_string (ovsdb_idl_get_last_error idl1)
                ++ ")")%string p1),
     Exit EXIT_FAILURE, p1)
  else if (seqno =? v)%Z then
    ([ev_idl_run; ev_poll_block], Ret (seqno, commands),
     {| the_idl := poll_block idl1; the_idl_txn := the_idl_txn p |})
  else
    match do_nbctl opts args commands p1 with
    | (tr, Ret (true, cs), p2) =>
        (ev_idl_run :: ev_attempt v :: tr, Exit EXIT_SUCCESS, p2)
    | (tr, Ret (false, cs), p2) =>
        if (v =? ovsdb_idl_get_seqno (the_idl p2))%Z then
          (ev_idl_run :: ev_attempt v :: tr ++ [ev_poll_block],
           Ret (v, cs),
           {| the_idl := poll_block (the_idl p2);
              the_idl_txn := the_idl_txn p2 |})
        else (ev_idl_run :: ev_attempt v :: tr, Ret (v, cs), p2)
    | (tr, Exit st, p2) => (ev_idl_run :: ev_attempt v :: tr, Exit st, p2)
    | (tr, Abort, p2) => (ev_idl_run :: ev_attempt v :: tr, Abort, p2)
    end.
Proof.
  intros idl1 p1 v. unfold main_iteration.
  unfold bind, get_idl, emit, set_idl, ret, exit.
  cbn [the_idl the_idl_txn]. fold idl1. fold p1. fold v.
  destruct (ovsdb_idl_is_alive idl1); cbn [negb].
  - destruct (seqno =? v)%Z eqn:Ev; cbn [negb].
    + unfold p1. cbn [the_idl the_idl_txn]. fold v. rewrite Ev. reflexivity.
    + destruct (do_nbctl opts args commands p1) as [[tr r] p2].
      destruct r as [[[|] cs]| |];
        [ | destruct (v =? ovsdb_idl_get_seqno (the_idl p2))%Z | | ];
        cbn [app]; rewrite ?app_nil_r; reflexivity.
  - rewrite ctl_fatal_run. reflexivity.
Qed.

End LoopFacts.

Section LoopClaims.

Context {session : DatabaseSession}.
Variable opts : nbctl_options.

Lemma last_cons_default (l : list Z) : forall a d d',
  List.last (a :: l) d = List.last (a :: l) d'.
Proof.
  induction l as [|b l IH]; intros a d d'; [reflexivity|].
  change (List.last (b :: l) d = List.last (b :: l) d'). apply IH.
Qed.

Lemma attempts_differ_app l1 : forall last l2,
  attempts_differ last l1 ->
  attempts_differ (List.last l1 last) l2 ->
  attempts_differ last (l1 ++ l2).
Proof.
  induction l1 as [|v l1 IH]; intros last l2 H1 H2; simpl in *.
  - exact H2.
  - destruct H1 as [Hv H1]. split; [exact Hv|].
    apply IH; [exact H1|].
    destruct l1 as [|z l1]; [exact H2|].
    rewrite (last_cons_default l1 z v last). exact H2.
Qed.

Lemma main_iteration_attempts args seqno commands p :
  let pass := main_iteration opts args seqno commands p in
  attempts_differ seqno (attempts_of (run_trace pass))
  /\ forall s cs, run_result pass = Ret (s, cs) ->
       List.last (attempts_of (run_trace pass)) seqno = s.
Proof.
  intros pass. subst pass. rewrite main_iteration_run.
  destruct (ovsdb_idl_is_alive (ovsdb_idl_run (the_idl p))); cbn [negb].
  - destruct (seqno =? _)%Z eqn:Ev.
    + simpl. split; [exact I|]. intros s cs E. now injection E as <- _.
    + apply Z.eqb_neq in Ev.
      match goal with
      | |- context [do_nbctl opts args commands ?q] =>
          pose proof (do_nbctl_no_attempts opts args commands q) as Hno;
          destruct (do_nbctl opts args commands q) as [[tr r] p2]
      end.
      simpl_runs.
      destruct r as [[[|] cs]| |];
        [ | destruct (_ =? _)%Z | | ]; simpl_runs;
        cbn [attempts_of]; rewrite ?attempts_of_app, Hno; simpl;
        (split; [split; [congruence|exact I]|]);
        try discriminate;
        intros s cs' E; now injection E as <- _.
  - rewrite ctl_fatal_run. simpl_runs. cbn [attempts_of].
    assert (H : forall (b : bool) l,
              attempts_of ((if b then [] else [ev_txn_abort; ev_txn_destroy])
                           ++ [ev_idl_destroy]) = l -> l = [])
      by (intros [] l <-; reflexivity).
    rewrite (H _ _ eq_refl). simpl. split; [exact I|discriminate].
Qed.

Lemma main_loop_attempts args fuel : forall seqno commands p,
  attempts_differ seqno
    (attempts_of (run_trace (main_loop opts fuel args seqno commands p))).
Proof.
  induction fuel as [|n IH]; intros seqno commands p; simpl.
  - exact I.
  - rewrite bind_run.
    destruct (main_iteration_attempts args seqno commands p) as [H1 H2].
    destruct (main_iteration opts args seqno commands p) as [[tr r] p1].
    simpl_runs. destruct r as [[s cs]| |]; simpl_runs; try exact H1.
    rewrite attempts_of_app. apply attempts_differ_app; [exact H1|].
    rewrite (H2 _ _ eq_refl). apply IH.
Qed.

(** C2.  In a pass through the loop of [main] in which the session is
    alive: when the session's sequence number equals the one last seen,
    [do_nbctl] is not invoked and the pass blocks in [poll_block]; when it
    differs, the number last seen is updated and [do_nbctl] is invoked
    once; if it reports success the process exits with status 0; if it
    reports failure the pass blocks in [poll_block] exactly when the
    sequence number still equals the updated number last seen.  Over any
    number of passes, every attempt is made at a sequence number that
    differs from the one of the attempt before it (or from the initial
    one): the batch is never attempted again while the version is
    unchanged. *)
Theorem C2_attempt_only_on_version_change :
  forall args fuel seqno commands p,
    ovsdb_idl_is_alive (the_idl (after_idl_run p)) = true ->
    let v := ovsdb_idl_get_seqno (the_idl (after_idl_run p)) in
    let pass := main_iteration opts args seqno commands p in
    let attempt := do_nbctl opts args commands (after_idl_run p) in
    (seqno = v ->
       pass = ([ev_idl_run; ev_poll_block], Ret (seqno, commands),
               {| the_idl := poll_block (the_idl (after_idl_run p));
                  the_idl_txn := the_idl_txn p |}))
    /\ (seqno <> v ->
          attempts_of (run_trace pass) = [v]
          /\ (exists rest,
                run_trace pass
                = ev_idl_run :: ev_attempt v :: run_trace attempt ++ rest)
          /\ (forall cs, run_result attempt = Ret (true, cs) ->
                run_result pass = Exit EXIT_SUCCESS)
          /\ (forall cs, run_result attempt = Ret (false, cs) ->
                run_result pass = Ret (v, cs)
                /\ (ovsdb_idl_get_seqno (the_idl (run_final attempt)) = v ->
                      run_trace pass
                      = ev_idl_run :: ev_attempt v
                        :: run_trace attempt ++ [ev_poll_block]
                      /\ the_idl (run_final pass)
                         = poll_block (the_idl (run_final attempt)))
                /\ (ovsdb_idl_get_seqno (the_idl (run_final attempt)) <> v ->
                      run_trace pass
                      = ev_idl_run :: ev_attempt v :: run_trace attempt
                      /\ run_final pass = run_final attempt)))
    /\ attempts_differ seqno
         (attempts_of
            (run_trace (main_loop opts fuel args seqno commands p))).
Proof.
  intros args fuel seqno commands p Halive v pass attempt.
  split; [|split; [|apply main_loop_attempts]].
  - intros Hv. subst pass. rewrite main_iteration_run.
    unfold after_idl_run in Halive, v. cbn [the_idl] in Halive, v.
    rewrite Halive. cbn [negb]. fold v. rewrite <- Hv, Z.eqb_refl.
    reflexivity.
  - intros Hv.
    pose proof (do_nbctl_no_attempts opts args commands (after_idl_run p))
      as Hno.
    subst pass attempt. rewrite main_iteration_run.
    unfold after_idl_run in Halive, v. cbn [the_idl] in Halive, v.
    rewrite Halive. cbn [negb]. fold v.
    apply Z.eqb_neq in Hv. rewrite Hv.
    fold (after_idl_run p).
    destruct (do_nbctl opts args commands (after_idl_run p))
      as [[tr r] p2].
    simpl_runs.
    destruct r as [[[|] cs]| |]; simpl_runs.
    + cbn [attempts_of]. rewrite Hno.
      split; [reflexivity|]. split; [exists []; now rewrite app_nil_r|].
      split; [reflexivity|]. discriminate.
    + destruct (v =? ovsdb_idl_get_seqno (the_idl p2))%Z eqn:Ev2;
        simpl_runs; cbn [attempts_of]; rewrite ?attempts_of_app, Hno.
      * apply Z.eqb_eq in Ev2.
        split; [reflexivity|]. split; [eexists; reflexivity|].
        split; [discriminate|].
        intros cs' E. injection E as <-.
        split; [reflexivity|]. split; [split; reflexivity|].
        intros Hne. congruence.
      * apply Z.eqb_neq in Ev2.
        split; [reflexivity|]. split; [exists []; now rewrite app_nil_r|].
        split; [discriminate|].
        intros cs' E. injection E as <-.
        split; [reflexivity|]. split; [congruence|].
        intros _. split; reflexivity.
    + cbn [attempts_of]. rewrite Hno.
      split; [reflexivity|]. split; [exists []; now rewrite app_nil_r|].
      split; discriminate.
    + cbn [attempts_of]. rewrite Hno.
      split; [reflexivity|]. split; [exists []; now rewrite app_nil_r|].
      split; discriminate.
Qed.

End LoopClaims.

Section OutputOrder.

Context {session : DatabaseSession}.
Variable opts : nbctl_options.

Lemma EXIT_codes_differ : EXIT_FAILURE <> EXIT_SUCCESS.
Proof. discriminate. Qed.

(** A pass that does not end the process writes nothing of its own to
    the standard output and keeps the parsed batch; a pass that ends the
    process with success does so right after an attempt that returned
    true. *)
Lemma main_iteration_output args seqno commands p :
  match main_iteration opts args seqno commands p with
  | (tr, Ret (_, cs), _) =>
      stdout_of tr = printed_of tr /\ map parsed cs = map parsed commands
  | (tr, Exit st, _) =>
      st = EXIT_SUCCESS ->
      exists tr' cs q',
        tr = [ev_idl_run;
              ev_attempt (ovsdb_idl_get_seqno (the_idl (after_idl_run p)))]
             ++ tr'
        /\ do_nbctl opts args commands (after_idl_run p)
           = (tr', Ret (true, cs), q')
  | (_, Abort, _) => True
  end.
Proof.
  rewrite main_iteration_run. fold (after_idl_run p).
  destruct (ovsdb_idl_is_alive _); cbn [negb].
  - destruct (seqno =? _)%Z.
    + split; reflexivity.
    + pose proof (do_nbctl_outcome opts args commands (after_idl_run p))
        as Hout.
      unfold after_idl_run at 2. cbn [the_idl].
      destruct (do_nbctl opts args commands (after_idl_run p))
        as [[tr r] p2].
      destruct r as [[[|] cs]|st|].
      * intros _. exists tr, cs, p2. split; reflexivity.
      * destruct Hout as [H1 H2].
        destruct (_ =? _)%Z; cbn [stdout_of printed_of];
          rewrite ?stdout_of_app, ?printed_of_app, H1;
          split; try reflexivity; exact H2.
      * intros Hst. rewrite Hout in Hst. discriminate.
      * exact I.
  - intros Hst. discriminate.
Qed.

Lemma main_loop_output args fuel : forall seqno commands p,
  match main_loop opts fuel args seqno commands p with
  | (tr, Ret (_, cs), _) =>
      stdout_of tr = printed_of tr /\ map parsed cs = map parsed commands
  | (tr, Exit st, _) =>
      st = EXIT_SUCCESS ->
      exists tr0 tr' commands' q cs q',
        tr = tr0 ++ tr'
        /\ stdout_of tr0 = printed_of tr0
        /\ map parsed commands' = map parsed commands
        /\ do_nbctl opts args commands' q = (tr', Ret (true, cs), q')
  | (_, Abort, _) => True
  end.
Proof.
  induction fuel as [|n IH]; intros seqno commands p; cbn [main_loop].
  - split; reflexivity.
  - rewrite bind_run.
    pose proof (main_iteration_output args seqno commands p) as Hit.
    destruct (main_iteration opts args seqno commands p) as [[tr r] p1].
    destruct r as [[s cs]| |].
    + destruct Hit as [H1 H2]. specialize (IH s cs p1).
      destruct (main_loop opts n args s cs p1) as [[tr2 r2] p2].
      simpl_runs. destruct r2 as [[s2 cs2]| |].
      * destruct IH as [H3 H4].
        split; [apply stdout_only_printed; assumption|congruence].
      * intros Hst.
        destruct (IH Hst) as (tr0 & tr' & cmds' & q & cs' & q' & Ht & Hs
                              & Hp & Hd).
        exists (tr ++ tr0), tr', cmds', q, cs', q'.
        rewrite Ht, app_assoc.
        split; [reflexivity|].
        split; [apply stdout_only_printed; assumption|].
        split; [congruence|exact Hd].
      * exact I.
    + intros Hst.
      destruct (Hit Hst) as (tr' & cs & q' & Ht & Hd).
      exists [ev_idl_run;
              ev_attempt (ovsdb_idl_get_seqno (the_idl (after_idl_run p)))],
        tr', commands, (after_idl_run p), cs, q'.
      repeat split; assumption.
    + exact I.
Qed.

(** *** Batches whose handlers do not print *)

Lemma silent_batch_parsed commands cs :
  map parsed cs = map parsed commands ->
  silent_batch commands -> silent_batch cs.
Proof.
  intros Hp Hs c Hin.
  assert (Hc : In (parsed c) (map parsed commands))
    by (rewrite <- Hp; apply in_map; exact Hin).
  apply in_map_iff in Hc. destruct Hc as (c0 & E & Hin0).
  assert (Es : syntax c = syntax c0)
    by (unfold parsed in E; now injection E).
  rewrite Es. apply Hs. exact Hin0.
Qed.

Lemma silent_batch_tail c rest :
  silent_batch (c :: rest) -> silent_batch rest.
Proof. intros H c0 Hin. apply H. right. exact Hin. Qed.

Lemma call_read_phase_silent h ctx p :
  silent_read_phase h ->
  printed_of (run_trace (call_read_phase h ctx p)) = EmptyString.
Proof.
  intros Hs. rewrite call_read_phase_run. specialize (Hs ctx (the_idl p)).
  destruct (h ctx (the_idl p)) as [texts [[ctx' idl']|msg|]];
    cbn [fst] in Hs; subst texts; simpl_runs; try reflexivity.
  rewrite ctl_fatal_run. simpl_runs.
  destruct (is_null (the_idl_txn p)); reflexivity.
Qed.

Lemma call_txn_phase_silent h ctx txn symtab p :
  silent_txn_phase h ->
  printed_of (run_trace (call_txn_phase h ctx txn symtab p)) = EmptyString.
Proof.
  intros Hs. rewrite call_txn_phase_run.
  specialize (Hs ctx {| o_idl := the_idl p; o_txn := txn;
                        o_symtab := symtab |}).
  destruct (h ctx _) as [texts [[ctx' o]|msg|]];
    cbn [fst] in Hs; subst texts; simpl_runs; try reflexivity.
  rewrite ctl_fatal_run. simpl_runs.
  destruct (is_null (the_idl_txn p)); reflexivity.
Qed.

Lemma prints_nothing_bind {A B} (m : M A) (f : A -> M B) :
  prints_nothing m -> (forall a, prints_nothing (f a)) ->
  prints_nothing (bind m f).
Proof.
  intros Hm Hf p. rewrite bind_run. specialize (Hm p).
  destruct (m p) as [[tr r] p1]. simpl_runs.
  destruct r as [a| |]; simpl_runs; try exact Hm.
  rewrite printed_of_app, Hm. apply Hf.
Qed.

Lemma prints_nothing_emits {A} ks (m : M A) :
  ~ In K_printf ks -> emits_only ks m -> prints_nothing m.
Proof. intros Hk Hm p. eapply no_printed; [exact Hk|apply Hm]. Qed.

Lemma run_prerequisites_from_silent commands : forall i,
  silent_batch commands ->
  prints_nothing (run_prerequisites_from i commands).
Proof.
  induction commands as [|c rest IH]; intros i Hs; simpl.
  - intros p. reflexivity.
  - apply prints_nothing_bind;
      [|intros c'; apply prints_nothing_bind;
        [apply IH; eapply silent_batch_tail; exact Hs|intros; intros p;
         reflexivity]].
    unfold run_prerequisite.
    destruct (prerequisites (syntax c)) as [h|] eqn:Hp;
      [|intros p; reflexivity].
    apply prints_nothing_bind; [intros p; reflexivity|intros _].
    apply prints_nothing_bind.
    + intros p. apply call_read_phase_silent.
      apply (proj1 (Hs c (or_introl eq_refl))). exact Hp.
    + intros ctx. unfold ovs_assert.
      apply (@prints_nothing_emits _ []); [simpl; tauto|]. emits.
Qed.

Lemma mutate_phases_silent commands : forall i ctx txn symtab,
  silent_batch commands ->
  prints_nothing (mutate_phases i ctx commands txn symtab).
Proof.
  induction commands as [|c rest IH]; intros i ctx txn symtab Hs; simpl.
  - intros p. reflexivity.
  - apply prints_nothing_bind.
    + destruct (run (syntax c)) as [h|] eqn:Hr; [|intros p; reflexivity].
      apply prints_nothing_bind; [intros p; reflexivity|intros _].
      intros p. apply call_txn_phase_silent.
      apply (proj2 (Hs c (or_introl eq_refl))). left. exact Hr.
    + intros [[ctx' txn'] symtab'].
      destruct (try_again ctx'); [intros p; reflexivity|].
      apply prints_nothing_bind;
        [apply IH; eapply silent_batch_tail; exact Hs|].
      intros [[[again cs] t] s]. intros p. reflexivity.
Qed.

Lemma postprocess_phases_silent commands : forall i txn symtab,
  silent_batch commands ->
  prints_nothing (postprocess_phases i commands txn symtab).
Proof.
  induction commands as [|c rest IH]; intros i txn symtab Hs; simpl.
  - intros p. reflexivity.
  - apply prints_nothing_bind.
    + destruct (postprocess (syntax c)) as [h|] eqn:Hr;
        [|intros p; reflexivity].
      apply prints_nothing_bind; [intros p; reflexivity|intros _].
      apply prints_nothing_bind.
      * intros p. apply call_txn_phase_silent.
        apply (proj2 (Hs c (or_introl eq_refl))). right. exact Hr.
      * intros [[ctx' t] s]. intros p. reflexivity.
    + intros [[c' txn'] symtab'].
      apply prints_nothing_bind;
        [apply IH; eapply silent_batch_tail; exact Hs|].
      intros [[cs t] s]. intros p. reflexivity.
Qed.

Lemma after_commit_silent status commands txn symtab :
  silent_batch commands ->
  prints_nothing (after_commit opts status commands txn symtab).
Proof.
  intros Hs. unfold after_commit. apply prints_nothing_bind.
  - destruct (unchanged_or_success status); [|intros p; reflexivity].
    apply postprocess_phases_silent. exact Hs.
  - intros [[cs t] s].
    eapply prints_nothing_emits; [|apply classify_emits].
    simpl; intuition discriminate.
Qed.

Lemma do_nbctl_silent args commands p :
  silent_batch commands ->
  printed_of (run_trace (do_nbctl opts args commands p)) = EmptyString.
Proof.
  intros Hs.
  assert (Hm : printed_of (run_trace (mutate_attempt opts args commands p))
               = EmptyString).
  { revert p. unfold mutate_attempt.
    apply prints_nothing_bind;
      [eapply prints_nothing_emits; [|apply open_transaction_emits];
       simpl; intuition discriminate|intros txn].
    apply prints_nothing_bind; [intros p; reflexivity|intros _].
    apply mutate_phases_silent.
    eapply silent_batch_parsed; [|exact Hs].
    rewrite map_map. apply map_ext. intros c. apply parsed_reset_output. }
  destruct (mutate_attempt opts args commands p) as [[tr1 r1] p1] eqn:E.
  simpl_runs.
  destruct r1 as [[[[again cs1] txn1] tab]| |];
    [|unfold do_nbctl; rewrite bind_run, E; exact Hm
     |unfold do_nbctl; rewrite bind_run, E; exact Hm].
  assert (Hs1 : silent_batch cs1).
  { eapply silent_batch_parsed; [|exact Hs].
    eapply mutate_attempt_parsed. rewrite E. reflexivity. }
  rewrite (do_nbctl_after_mutations _ _ _ _ E). simpl_runs.
  rewrite printed_of_app, Hm. cbn [append].
  destruct again.
  - eapply no_printed; [|apply try_again_path_emits].
    simpl; intuition discriminate.
  - clear E. revert p1. unfold commit_and_finish.
    apply prints_nothing_bind;
      [eapply prints_nothing_emits; [|apply check_symbols_emits];
       simpl; intuition discriminate|intros _].
    apply prints_nothing_bind;
      [eapply prints_nothing_emits; [|apply commit_block_emits];
       simpl; intuition discriminate|intros [st t]].
    apply after_commit_silent. exact Hs1.
Qed.

Lemma main_loop_silent args fuel : forall seqno commands p,
  silent_batch commands ->
  printed_of (run_trace (main_loop opts fuel args seqno commands p))
  = EmptyString.
Proof.
  induction fuel as [|n IH]; intros seqno commands p Hs; cbn [main_loop].
  - reflexivity.
  - rewrite bind_run.
    pose proof (main_iteration_output args seqno commands p) as Hit.
    assert (Hp : printed_of
                   (run_trace (main_iteration opts args seqno commands p))
                 = EmptyString).
    { rewrite main_iteration_run. fold (after_idl_run p).
      destruct (ovsdb_idl_is_alive _); cbn [negb].
      - destruct (seqno =? _)%Z; [reflexivity|].
        pose proof (@do_nbctl_silent args commands (after_idl_run p) Hs)
          as Hd.
        destruct (do_nbctl opts args commands (after_idl_run p))
          as [[tr r] p2].
        simpl_runs.
        destruct r as [[[|] cs]|st|];
          [ | destruct (_ =? _)%Z | | ]; simpl_runs;
          cbn [printed_of]; rewrite ?printed_of_app, Hd; reflexivity.
      - rewrite ctl_fatal_run. simpl_runs.
        destruct (is_null _); reflexivity. }
    destruct (main_iteration opts args seqno commands p) as [[tr r] p1].
    simpl_runs.
    destruct r as [[s cs]| |]; simpl_runs; try exact Hp.
    rewrite printed_of_app, Hp. cbn [append]. apply IH.
    eapply silent_batch_parsed; [|exact Hs]. apply Hit.
Qed.

Lemma main_silent args fuel commands p :
  silent_batch commands ->
  printed_of (run_trace (main opts fuel args commands p)) = EmptyString.
Proof.
  intros Hs. unfold main. rewrite bind_run.
  pose proof (@run_prerequisites_from_silent commands 0 Hs p) as Hq.
  pose proof (@run_prerequisites_from_parsed _ commands 0 p) as Hpar.
  unfold run_prerequisites.
  destruct (run_prerequisites_from 0 commands p) as [[tr1 r1] p1].
  simpl_runs. destruct r1 as [cs1| |]; simpl_runs; try exact Hq.
  rewrite bind_run. cbn [get_idl]. simpl_runs. cbn [app].
  rewrite printed_of_app, Hq. cbn [append].
  apply main_loop_silent.
  eapply silent_batch_parsed; [|exact Hs]. apply Hpar. reflexivity.
Qed.


End OutputOrder.

(* ===================================================================== *)
(** ** Dry runs *)
(* ===================================================================== *)

Section DryRun.

Context {session : DatabaseSession} {dry : DryRunSession session}.
Variable opts : nbctl_options.

Lemma keeps_persisted_bind {A B} (m : M A) (f : A -> M B) :
  keeps_persisted m -> (forall a, keeps_persisted (f a)) ->
  keeps_persisted (bind m f).
Proof.
  intros Hm Hf p. rewrite bind_run. specialize (Hm p).
  destruct (m p) as [[tr r] p1]. simpl_runs.
  destruct r; simpl_runs; try exact Hm.
  rewrite Hf. exact Hm.
Qed.

Lemma keeps_persisted_state {A} (m : M A) :
  (forall p, the_idl (run_final (m p)) = the_idl p) -> keeps_persisted m.
Proof. intros H p. now rewrite H. Qed.

Lemma ctl_fatal_keeps_persisted {A} msg :
  keeps_persisted (@ctl_fatal _ A msg).
Proof.
  apply keeps_persisted_state. intros p. now rewrite ctl_fatal_run.
Qed.

Lemma call_txn_phase_frame h ctx txn symtab p :
  frame_phase h ->
  persisted (the_idl (run_final (call_txn_phase h ctx txn symtab p)))
  = persisted (the_idl p)
  /\ forall ctx' txn' symtab',
       run_result (call_txn_phase h ctx txn symtab p)
       = Ret (ctx', txn', symtab') ->
       txn_is_dry_run txn' = txn_is_dry_run txn.
Proof.
  intros Hf. rewrite call_txn_phase_run.
  destruct (h ctx _) as [texts [[ctx1 o1]|msg|]] eqn:Hh.
  - assert (Hr : snd (h ctx {| o_idl := the_idl p; o_txn := txn;
                               o_symtab := symtab |})
                 = handler_returns (ctx1, o1)) by (rewrite Hh; reflexivity).
    destruct (Hf _ _ _ _ Hr) as [H1 H2]. simpl_runs. split; [exact H1|].
    intros ctx' txn' symtab' E. injection E as _ <- _. exact H2.
  - simpl_runs. split; [reflexivity|discriminate].
  - simpl_runs. split; [reflexivity|discriminate].
Qed.

Lemma mutate_phases_frame commands : forall i ctx txn symtab p,
  (forall c h, In c commands -> run (syntax c) = Some h -> frame_phase h) ->
  persisted (the_idl (run_final (mutate_phases i ctx commands txn symtab p)))
  = persisted (the_idl p)
  /\ forall again cs txn' symtab',
       run_result (mutate_phases i ctx commands txn symtab p)
       = Ret (again, cs, txn', symtab') ->
       txn_is_dry_run txn' = txn_is_dry_run txn.
Proof.
  induction commands as [|c rest IH]; intros i ctx txn symtab p Hf;
    cbn [mutate_phases].
  - simpl_runs. split; [reflexivity|].
    intros again cs txn' symtab' E. cbn in E. now injection E as _ _ <- _.
  - rewrite bind_run.
    assert (Hrest : forall c0 h, In c0 rest -> run (syntax c0) = Some h ->
                                 frame_phase h)
      by (intros c0 h Hin; apply Hf; right; exact Hin).
    assert (Hstep :
      forall m : M (ctl_context * ovsdb_idl_txn * ovsdb_symbol_table),
        m = match run (syntax c) with
            | Some h =>
                emit (ev_run i (ctl_context_init_command ctx c));;
                call_txn_phase h (ctl_context_init_command ctx c) txn symtab
            | None => ret (ctl_context_init_command ctx c, txn, symtab)
            end ->
        persisted (the_idl (run_final (m p))) = persisted (the_idl p)
        /\ forall ctx' txn' symtab',
             run_result (m p) = Ret (ctx', txn', symtab') ->
             txn_is_dry_run txn' = txn_is_dry_run txn).
    { intros m ->. destruct (run (syntax c)) as [h|] eqn:Hr.
      - rewrite bind_emit. simpl_runs.
        apply call_txn_phase_frame. apply (Hf c h (or_introl eq_refl) Hr).
      - simpl_runs. split; [reflexivity|].
        intros ctx' txn' symtab' E. cbn in E. now injection E as _ <- _. }
    specialize (Hstep _ eq_refl). destruct Hstep as [Hp Hm].
    match goal with
    | |- context [match ?x with pair _ _ => _ end] =>
        destruct x as [[tr1 r1] p1]
    end.
    simpl_runs.
    destruct r1 as [[[ctx1 txn1] symtab1]| |]; simpl_runs;
      try (split; [exact Hp|discriminate]).
    specialize (Hm _ _ _ eq_refl).
    destruct (try_again ctx1).
    + simpl_runs. split; [exact Hp|].
      intros again cs txn' symtab' E. cbn in E.
      injection E as _ _ <- _. exact Hm.
    + rewrite bind_run.
      destruct (IH (S i) ctx1 txn1 symtab1 p1 Hrest) as [Hp2 Hm2].
      destruct (mutate_phases (S i) ctx1 rest txn1 symtab1 p1)
        as [[tr2 r2] p2].
      simpl_runs.
      destruct r2 as [[[[again2 cs2] txn2] symtab2]| |];
        unfold ret; simpl_runs;
        try (split; [congruence|discriminate]).
      split; [congruence|].
      intros again cs txn' symtab' E. injection E as _ _ <- _.
      rewrite (Hm2 _ _ _ _ eq_refl). exact Hm.
Qed.

Lemma postprocess_phases_frame commands : forall i txn symtab,
  (forall c h, In c commands -> postprocess (syntax c) = Some h ->
               frame_phase h) ->
  keeps_persisted (postprocess_phases i commands txn symtab).
Proof.
  induction commands as [|c rest IH]; intros i txn symtab Hf;
    cbn [postprocess_phases].
  - apply keeps_persisted_state. reflexivity.
  - apply keeps_persisted_bind.
    + destruct (postprocess (syntax c)) as [h|] eqn:Hr.
      * apply keeps_persisted_bind;
          [apply keeps_persisted_state; reflexivity|intros].
        apply keeps_persisted_bind.
        -- intros p. apply call_txn_phase_frame.
           apply (Hf c h (or_introl eq_refl) Hr).
        -- intros [[? ?] ?]. apply keeps_persisted_state. reflexivity.
      * apply keeps_persisted_state. reflexivity.
    + intros [[c' txn'] symtab'].
      apply keeps_persisted_bind.
      * apply IH. intros c0 h Hin. apply Hf. right. exact Hin.
      * intros [[? ?] ?]. apply keeps_persisted_state. reflexivity.
Qed.

Lemma classify_keeps_persisted status error commands :
  keeps_persisted (classify opts status error PTR commands).
Proof.
  apply keeps_persisted_state. intros p.
  destruct (unchanged_or_success status) eqn:Hs.
  - now rewrite classify_success.
  - destruct status; try discriminate; unfold classify, OVS_NOT_REACHED;
      rewrite ?ctl_fatal_run, ?try_again_path_run; reflexivity.
Qed.

Lemma after_commit_keeps_persisted status commands txn symtab :
  (forall c h, In c commands -> postprocess (syntax c) = Some h ->
               frame_phase h) ->
  keeps_persisted (after_commit opts status commands txn symtab).
Proof.
  intros Hf. unfold after_commit. apply keeps_persisted_bind.
  - destruct (unchanged_or_success status).
    + apply postprocess_phases_frame. exact Hf.
    + apply keeps_persisted_state. reflexivity.
  - intros [[cs t] s]. apply classify_keeps_persisted.
Qed.

Lemma check_symbols_state nodes p :
  run_final (check_symbols nodes p) = p.
Proof.
  destruct (first_uncreated nodes) as [n|] eqn:Hu.
  - now erewrite check_symbols_fails by exact Hu.
  - apply first_uncreated_none in Hu. now rewrite check_symbols_passes.
Qed.

(** The output dispatcher and the classification of the commit status
    read the single-line flag and the table style, and no other global. *)
Lemma dispatch_output_without_dry_run commands : forall i,
  dispatch_output (without_dry_run opts) i commands
  = dispatch_output opts i commands.
Proof.
  induction commands as [|c rest IH]; intros i; cbn [dispatch_output].
  - reflexivity.
  - rewrite IH. reflexivity.
Qed.

Lemma classify_without_dry_run status error commands p :
  classify (without_dry_run opts) status error PTR commands p
  = classify opts status error PTR commands p.
Proof.
  destruct (unchanged_or_success status) eqn:Hs.
  - rewrite !classify_success by exact Hs.
    rewrite dispatch_output_without_dry_run. reflexivity.
  - destruct status; try discriminate; reflexivity.
Qed.

Lemma after_commit_without_dry_run status commands txn symtab p :
  after_commit (without_dry_run opts) status commands txn symtab p
  = after_commit opts status commands txn symtab p.
Proof.
  unfold after_commit. rewrite !bind_run.
  destruct ((if unchanged_or_success status
             then postprocess_phases 0 commands txn symtab
             else ret (commands, txn, symtab)) p) as [[tr r] p1].
  destruct r as [[[cs t] s]| |]; try reflexivity.
Qed.

End DryRun.

Section DryRunClaims.

Context {session : DatabaseSession} {dry : DryRunSession session}.
Variable opts : nbctl_options.

Lemma commit_and_finish_frame commands txn tab :
  txn_is_dry_run txn = true ->
  (forall c h, In c commands -> postprocess (syntax c) = Some h ->
               frame_phase h) ->
  keeps_persisted (commit_and_finish opts commands txn tab).
Proof.
  intros Hdry Hf p.
  destruct (first_uncreated tab) as [n|] eqn:Hu.
  - now erewrite commit_and_finish_unchecked by exact Hu.
  - apply first_uncreated_none in Hu.
    pose proof (dry_run_commit_persists_nothing txn (the_idl p) Hdry) as Hlaw.
    destruct (ovsdb_idl_txn_commit_block txn (the_idl p))
      as [[st txn2] idl2] eqn:Ec.
    erewrite commit_and_finish_checked by eassumption. cbv zeta. simpl_runs.
    pose proof (@after_commit_keeps_persisted _ _ opts st commands txn2 tab Hf)
      as Hk.
    rewrite Hk. exact Hlaw.
Qed.

Lemma same_syntax_in (commands cs : list ctl_command) c :
  map parsed cs = map parsed commands -> In c cs ->
  exists c0, In c0 commands /\ syntax c0 = syntax c.
Proof.
  intros Hmap Hin.
  assert (H : In (parsed c) (map parsed commands))
    by (rewrite <- Hmap; apply in_map; exact Hin).
  apply in_map_iff in H. destruct H as [c0 [Hp Hin0]].
  exists c0. split; [exact Hin0|]. unfold parsed in Hp. congruence.
Qed.

(** The first events of an attempt in dry-run mode, and the transaction
    that its mutate phases start from. *)
Lemma mutate_attempt_dry_run args commands p :
  dry_run opts = true ->
  exists txn0,
    txn_is_dry_run txn0 = true
    /\ mutate_attempt opts args commands p =
       (let x := mutate_phases 0 (ctl_context_init None PTR PTR PTR)
                   (map reset_output commands) txn0
                   ovsdb_symbol_table_create
                   {| the_idl := the_idl p; the_idl_txn := PTR |} in
        ([ev_txn_create; ev_txn_set_dry_run;
          ev_txn_add_comment ("ovs-nbctl: " ++ args)%string;
          ev_symtab_create] ++ run_trace x,
         run_result x, run_final x)).
Proof.
  intros Hdry. eexists. split.
  2: { unfold mutate_attempt. rewrite bind_run, open_transaction_run, Hdry.
       rewrite bind_emit. reflexivity. }
  rewrite add_comment_keeps_mark. apply set_dry_run_marks.
Qed.

(** C8.  In dry-run mode an attempt marks its transaction as a dry run
    right after creating it, before the first mutate phase is called, and
    the mutate phases start from the marked transaction.  Provided the
    phases queue their changes on the transaction and the session honours
    the mark, the attempt leaves what the store persists unchanged,
    however it ends.  When the commit of such an attempt returns success
    or unchanged, the rest of the attempt (post-commit phases, output,
    result) is the same computation as with the dry-run mode switched
    off, and a true result makes [main] exit with status 0. *)
Theorem C8_dry_run_persists_nothing :
  forall args commands p,
    dry_run opts = true ->
    (forall c h, In c commands ->
       run (syntax c) = Some h \/ postprocess (syntax c) = Some h ->
       frame_phase h) ->
    let attempt := do_nbctl opts args commands p in
    (exists rest,
        run_trace attempt = ev_txn_create :: ev_txn_set_dry_run :: rest)
    /\ (exists txn0,
          txn_is_dry_run txn0 = true
          /\ mutate_attempt opts args commands p =
             (let x := mutate_phases 0 (ctl_context_init None PTR PTR PTR)
                         (map reset_output commands) txn0
                         ovsdb_symbol_table_create
                         {| the_idl := the_idl p; the_idl_txn := PTR |} in
              ([ev_txn_create; ev_txn_set_dry_run;
                ev_txn_add_comment ("ovs-nbctl: " ++ args)%string;
                ev_symtab_create] ++ run_trace x,
               run_result x, run_final x)))
    /\ persisted (the_idl (run_final attempt)) = persisted (the_idl p)
    /\ (forall tr1 cs1 txn1 tab p1 status txn2 idl2,
          mutate_attempt opts args commands p
          = (tr1, Ret (false, cs1, txn1, tab), p1) ->
          all_created tab = true ->
          ovsdb_idl_txn_commit_block txn1 (the_idl p1)
          = (status, txn2, idl2) ->
          unchanged_or_success status = true ->
          let rest :=
            after_commit (without_dry_run opts) status cs1 txn2 tab
              {| the_idl := idl2; the_idl_txn := PTR |} in
          txn_is_dry_run txn1 = true
          /\ persisted idl2 = persisted (the_idl p)
          /\ attempt
             = (tr1 ++ flat_map warning_events tab
                  ++ ev_commit status :: run_trace rest,
                run_result rest, run_final rest))
    /\ (forall seqno q cs,
          p = after_idl_run q ->
          ovsdb_idl_is_alive (the_idl p) = true ->
          seqno <> ovsdb_idl_get_seqno (the_idl p) ->
          run_result attempt = Ret (true, cs) ->
          run_result (main_iteration opts args seqno commands q)
          = Exit EXIT_SUCCESS).
Proof.
  intros args commands p Hdry Hf attempt.
  destruct (mutate_attempt_dry_run args commands p Hdry)
    as [txn0 [Hmark Hmut]].
  assert (Hrun : forall c h, In c (map reset_output commands) ->
                   run (syntax c) = Some h -> frame_phase h).
  { intros c h Hin Hr. apply in_map_iff in Hin.
    destruct Hin as [c0 [<- Hin0]]. apply (Hf c0 h Hin0). left. exact Hr. }
  destruct (mutate_phases_frame (map reset_output commands) 0
              (ctl_context_init None PTR PTR PTR) txn0
              ovsdb_symbol_table_create
              {| the_idl := the_idl p; the_idl_txn := PTR |} Hrun)
    as [Hpers Hkeep].
  cbn [the_idl] in Hpers.
  assert (Hpost : forall again cs1 txn1 tab tr1 p1,
    mutate_attempt opts args commands p
    = (tr1, Ret (again, cs1, txn1, tab), p1) ->
    txn_is_dry_run txn1 = true
    /\ persisted (the_idl p1) = persisted (the_idl p)
    /\ forall c h, In c cs1 -> postprocess (syntax c) = Some h ->
                   frame_phase h).
  { intros again cs1 txn1 tab tr1 p1 E.
    assert (Hpar : map parsed cs1 = map parsed commands)
      by (eapply mutate_attempt_parsed; rewrite E; reflexivity).
    rewrite Hmut in E. cbv zeta in E.
    destruct (mutate_phases 0 _ _ txn0 _ _) as [[trx rx] px].
    simpl_runs. injection E as _ -> ->.
    split; [rewrite (Hkeep _ _ _ _ eq_refl); exact Hmark|].
    split; [exact Hpers|].
    intros c h Hin Hp.
    destruct (@same_syntax_in commands cs1 c Hpar Hin) as [c0 [Hin0 Hsyn]].
    apply (Hf c0 h Hin0). right. now rewrite Hsyn. }
  split; [|split; [exists txn0; split; [exact Hmark|exact Hmut]|split;
                   [|split]]].
  - subst attempt. unfold do_nbctl. rewrite bind_run, Hmut. cbv zeta.
    destruct (mutate_phases 0 _ _ txn0 _ _) as [[trx rx] px].
    simpl_runs. destruct rx; eexists; reflexivity.
  - subst attempt. unfold do_nbctl. rewrite bind_run.
    destruct (mutate_attempt opts args commands p) as [[tr1 r1] p1] eqn:E
      in |- *.
    destruct r1 as [[[[again cs1] txn1] tab]| |].
    + destruct (Hpost _ _ _ _ _ _ E) as [Hm1 [Hp1 Hf1]].
      simpl_runs. destruct again.
      * rewrite try_again_path_run. exact Hp1.
      * pose proof (@commit_and_finish_frame cs1 txn1 tab Hm1 Hf1) as Hk.
        rewrite Hk. exact Hp1.
    + simpl_runs. rewrite Hmut in E. cbv zeta in E.
      destruct (mutate_phases 0 _ _ txn0 _ _) as [[trx rx] px].
      simpl_runs. injection E as _ _ ->. exact Hpers.
    + simpl_runs. rewrite Hmut in E. cbv zeta in E.
      destruct (mutate_phases 0 _ _ txn0 _ _) as [[trx rx] px].
      simpl_runs. injection E as _ _ ->. exact Hpers.
  - intros tr1 cs1 txn1 tab p1 status txn2 idl2 E Hc Ec Hs rest.
    destruct (Hpost _ _ _ _ _ _ E) as [Hm1 [Hp1 Hf1]].
    destruct (mutate_attempt_trace _ _ _ _ E) as [_ [_ [_ [_ [_ [_ Hptr]]]]]].
    split; [exact Hm1|].
    split.
    + pose proof (dry_run_commit_persists_nothing txn1 (the_idl p1) Hm1)
        as Hlaw.
      rewrite Ec in Hlaw. cbn [snd] in Hlaw. congruence.
    + subst attempt rest.
      rewrite (do_nbctl_after_mutations _ _ _ _ E). cbv iota.
      erewrite commit_and_finish_checked by eassumption. cbv zeta.
      rewrite Hptr, after_commit_without_dry_run. reflexivity.
  - intros seqno q cs Hq Halive Hseq Hret.
    rewrite main_iteration_run. fold (after_idl_run q). rewrite <- Hq.
    unfold after_idl_run in Hq.
    assert (Hidl : ovsdb_idl_run (the_idl q) = the_idl p)
      by (rewrite Hq; reflexivity).
    rewrite Hidl, Halive. cbn [negb].
    apply Z.eqb_neq in Hseq. rewrite Hseq.
    fold attempt. destruct attempt as [[tr r] p2]. simpl_runs. subst r.
    reflexivity.
Qed.

End DryRunClaims.

(* ===================================================================== *)
(** ** The engine on the fixture *)
(* ===================================================================== *)

(** Runs the mutate phases of an attempt on a concrete input and hands
    the components of the run to [k]. *)
Ltac with_mutations opts args batch p k :=
  let r := eval vm_compute in (mutate_attempt opts args batch p) in
  match r with
  | (?tr1, Ret (?again, ?cs1, ?txn1, ?tab), ?p1) =>
      k tr1 again cs1 txn1 tab p1
  end.

Section FixtureRuns.

(** A batch that refers to the symbol x, which no command creates: the
    attempt ends the process with the failure status. *)
Lemma C1_witness :
  run_result (do_nbctl (Fixture.globals false false) "refer x"
                Fixture.dangling_batch (Fixture.start 0))
  = Exit EXIT_FAILURE.
Proof.
  with_mutations (Fixture.globals false false) "refer x"
    Fixture.dangling_batch (Fixture.start 0)
    ltac:(fun tr1 again cs1 txn1 tab p1 =>
      exact (proj1 (proj2
        (@C1_never_created_symbol_is_fatal Fixture.session
           (Fixture.globals false false) "refer x" Fixture.dangling_batch
           (Fixture.start 0) tr1 cs1 txn1 tab p1 "x" eq_refl eq_refl)))).
Defined.

(** The same reference followed by a command that asks to try again:
    the symbol x is in the table, referenced and never created, and yet
    [do_nbctl] writes no diagnostic and does not end the process; it
    returns false.  And with references to two symbols that are never
    created, x and z, the one diagnostic names x and not z. *)
Lemma C1_counterexample :
  (exists tr1 cs1 txn1 p1,
      mutate_attempt (Fixture.globals false false) "refer x -- wait-until"
        Fixture.dangling_retry_batch (Fixture.start 0)
      = (tr1, Ret (true, cs1, txn1, [("x", Fixture.dangling_symbol)]), p1))
  /\ stderr_of (run_trace
       (do_nbctl (Fixture.globals false false) "refer x -- wait-until"
          Fixture.dangling_retry_batch (Fixture.start 0))) = []
  /\ run_result
       (do_nbctl (Fixture.globals false false) "refer x -- wait-until"
          Fixture.dangling_retry_batch (Fixture.start 0))
     = Ret (false, Fixture.dangling_retry_batch)
  /\ run_result
       (do_nbctl (Fixture.globals false false) "refer x -- wait-until"
          Fixture.dangling_retry_batch (Fixture.start 0))
     <> Exit EXIT_FAILURE
  /\ (exists tr1 cs1 txn1 p1,
        mutate_attempt (Fixture.globals false false) "refer x -- refer z"
          Fixture.two_dangling_batch (Fixture.start 0)
        = (tr1,
           Ret (false, cs1, txn1,
                [("x", Fixture.dangling_symbol);
                 ("z", Fixture.dangling_symbol)]),
           p1))
  /\ stderr_of (run_trace
       (do_nbctl (Fixture.globals false false) "refer x -- refer z"
          Fixture.two_dangling_batch (Fixture.start 0)))
     = [never_created_message "x"]
  /\ ~ In (never_created_message "z")
         (stderr_of (run_trace
            (do_nbctl (Fixture.globals false false) "refer x -- refer z"
               Fixture.two_dangling_batch (Fixture.start 0)))).
Proof.
  split; [do 4 eexists; reflexivity|].
  split; [reflexivity|]. split; [reflexivity|].
  split; [vm_compute; discriminate|].
  split; [do 4 eexists; reflexivity|].
  split; [reflexivity|].
  vm_compute. intros [H|[]]. discriminate.
Qed.

Lemma C2_witness :
  attempts_differ 0
    (attempts_of (run_trace
       (main_loop (Fixture.globals false false) 3 "add r1 -- add r2" 0
          Fixture.add_batch (Fixture.start 1)))).
Proof.
  exact (proj2 (proj2
    (@C2_attempt_only_on_version_change Fixture.session
       (Fixture.globals false false) "add r1 -- add r2" 3 0
       Fixture.add_batch (Fixture.start 1) eq_refl))).
Defined.

Lemma C3_witness :
  the_idl_txn (run_final
    (do_nbctl (Fixture.globals false false) "add r1 -- wait-until"
       Fixture.retry_batch (Fixture.start 0)))
  = NULL.
Proof.
  with_mutations (Fixture.globals false false) "add r1 -- wait-until"
    Fixture.retry_batch (Fixture.start 0)
    ltac:(fun tr1 again cs1 txn1 tab p1 =>
      exact (proj1 (proj2 (proj2
        (@C3_try_again_discards_the_attempt Fixture.session
           (Fixture.globals false false) "add r1 -- wait-until"
           Fixture.retry_batch (Fixture.start 0) tr1 again cs1 txn1 tab p1
           eq_refl (or_introl eq_refl)))))).
Defined.

Lemma C5_witness :
  commits_of (run_trace
    (do_nbctl (Fixture.globals false false) "create y"
       Fixture.orphan_batch (Fixture.start 0)))
  = [TXN_SUCCESS].
Proof.
  with_mutations (Fixture.globals false false) "create y"
    Fixture.orphan_batch (Fixture.start 0)
    ltac:(fun tr1 again cs1 txn1 tab p1 =>
      exact (proj1 (proj2
        (@C5_created_symbols_warn_and_commit Fixture.session
           (Fixture.globals false false) "create y" Fixture.orphan_batch
           (Fixture.start 0) tr1 cs1 txn1 tab p1 eq_refl eq_refl)))).
Defined.

(** A reference to the symbol x, never created, then the creation of y,
    which nothing refers to: the check ends the process at x, so no
    warning is logged for y and the commit operation is not invoked. *)
Lemma C5_counterexample :
  (exists tr1 cs1 txn1 p1,
      mutate_attempt (Fixture.globals false false) "refer x -- create y"
        Fixture.dangling_orphan_batch (Fixture.start 0)
      = (tr1,
         Ret (false, cs1, txn1,
              [("x", Fixture.dangling_symbol); ("y", Fixture.orphan_symbol)]),
         p1))
  /\ created Fixture.orphan_symbol = true
  /\ strong_ref Fixture.orphan_symbol = false
  /\ warnings_of (run_trace
       (do_nbctl (Fixture.globals false false) "refer x -- create y"
          Fixture.dangling_orphan_batch (Fixture.start 0))) = []
  /\ commits_of (run_trace
       (do_nbctl (Fixture.globals false false) "refer x -- create y"
          Fixture.dangling_orphan_batch (Fixture.start 0))) = []
  /\ run_result
       (do_nbctl (Fixture.globals false false) "refer x -- create y"
          Fixture.dangling_orphan_batch (Fixture.start 0))
     = Exit EXIT_FAILURE.
Proof.
  split; [do 4 eexists; reflexivity|].
  repeat split; reflexivity.
Qed.




Lemma C8_witness :
  @persisted Fixture.session Fixture.dry_run_session
    (the_idl (run_final
       (do_nbctl (Fixture.globals false true) "add r1 -- add r2"
          Fixture.add_batch (Fixture.start 0))))
  = ["r0"].
Proof.
  assert (Hf : forall c h, In c Fixture.add_batch ->
                 run (syntax c) = Some h \/ postprocess (syntax c) = Some h ->
                 @frame_phase Fixture.session Fixture.dry_run_session h).
  { intros c h [<-|[<-|[]]] [E|E]; injection E as <-;
      intros ctx o ctx' o' Eh; cbn in Eh; injection Eh as <- <-;
      split; reflexivity. }
  exact (proj1 (proj2 (proj2
    (@C8_dry_run_persists_nothing Fixture.session Fixture.dry_run_session
       (Fixture.globals false true) "add r1 -- add r2"
       Fixture.add_batch (Fixture.start 0) eq_refl Hf)))).
Defined.



Lemma C10_witness :
  2 <= 2
  /\ stdout_of (run_trace
       (dispatch_output
          (@oneline_options Fixture.session "unix:ovnnb_db.sock" false tt) 0
          [text_command (syntax (Fixture.cmd_add "r1")) ["r1"] []
             (Some ("x" ++ replicate 2 LF)%string)]
          (Fixture.start 0)))
     = String "x" (String BACKSLASH (String "n" (String LF EmptyString))).
Proof.
  split; [lia|].
  exact (proj2 (proj2
    (@C10_single_line_trailing_newlines Fixture.session
       "unix:ovnnb_db.sock" false tt (syntax (Fixture.cmd_add "r1"))
       ["r1"] [] (Fixture.start 0) "x" 2 (le_n 2)))).
Defined.

End FixtureRuns.

(* ===================================================================== *)
(** ** The life of the session and of the transaction, piece by piece *)
(* ===================================================================== *)

Section LifeFacts.

Context {session : DatabaseSession}.

Lemma life_app r tr1 tr2 :
  life r (tr1 ++ tr2)
  = match life r tr1 with
    | Some r1 => life r1 tr2
    | None => None
    end.
Proof.
  revert r. induction tr1 as [|e tr1 IH]; intros r; simpl; [reflexivity|].
  destruct (use r e); [apply IH|reflexivity].
Qed.

Lemma lives_bind {A B} P (m : M A) Q (f : A -> M B) R :
  lives P m Q -> (forall a, lives (Q a) (f a) R) -> lives P (bind m f) R.
Proof.
  intros Hm Hf r p HP. destruct (Hm r p HP) as (r1 & L1 & H1).
  rewrite bind_run. destruct (m p) as [[tr1 res] p1]. simpl_runs.
  destruct res as [a| |].
  - destruct (Hf a r1 p1 H1) as (r2 & L2 & H2).
    destruct (f a p1) as [[tr2 res2] p2]. simpl_runs.
    exists r2. rewrite life_app, L1. auto.
  - exists r1. auto.
  - exists r1. auto.
Qed.

Lemma lives_weaken {A} (P P' : resources -> process -> Prop) (m : M A)
    (Q Q' : A -> resources -> process -> Prop) :
  (forall r p, P' r p -> P r p) ->
  (forall a r p, Q a r p -> Q' a r p) ->
  lives P m Q -> lives P' m Q'.
Proof.
  intros HP HQ Hm r p H. destruct (Hm r p (HP _ _ H)) as (r' & L & Hr).
  exists r'. split; [exact L|].
  destruct (run_result (m p)); auto.
Qed.

Lemma lives_ret {A} (a : A) (P : resources -> process -> Prop) Q :
  (forall r p, P r p -> Q a r p) -> lives P (ret a) Q.
Proof. intros H r p HP. exists r. simpl. auto. Qed.

Lemma lives_emit e (P : resources -> process -> Prop) Q :
  (forall r p, P r p -> exists r', use r e = Some r' /\ Q tt r' p) ->
  lives P (emit e) Q.
Proof.
  intros H r p HP. destruct (H r p HP) as (r' & U & HQ).
  exists r'. unfold emit. simpl. rewrite U. auto.
Qed.

Lemma lives_abort {A} P Q : lives P (@abort _ A) Q.
Proof. intros r p _. exists r. simpl. auto. Qed.

Lemma lives_exit {A} status P Q :
  (forall r p, P r p -> r = closed) -> lives P (@exit _ A status) Q.
Proof. intros H r p HP. exists r. simpl. eauto. Qed.

Lemma lives_get_idl (P : resources -> process -> Prop) Q :
  (forall r p, P r p -> Q (the_idl p) r p) -> lives P get_idl Q.
Proof. intros H r p HP. exists r. simpl. auto. Qed.

Lemma lives_set_idl i (P : resources -> process -> Prop) Q :
  (forall r p, P r p ->
     Q tt r {| the_idl := i; the_idl_txn := the_idl_txn p |}) ->
  lives P (set_idl i) Q.
Proof. intros H r p HP. exists r. simpl. auto. Qed.

Lemma handler_prints_lives texts (P : resources -> process -> Prop) :
  lives P (handler_prints texts) (fun _ => P).
Proof.
  intros r p HP. rewrite handler_prints_run. simpl_runs. exists r.
  split; [|exact HP].
  induction texts as [|text rest IH]; simpl; [reflexivity|exact IH].
Qed.

Lemma ctl_fatal_lives_no {A} msg Q :
  lives no_txn (@ctl_fatal _ A msg) Q.
Proof.
  intros r p [-> Hp]. rewrite ctl_fatal_run. rewrite Hp. simpl.
  exists closed. auto.
Qed.

Lemma ctl_fatal_lives_with {A} msg Q :
  lives with_txn (@ctl_fatal _ A msg) Q.
Proof.
  intros r p [-> Hp]. rewrite ctl_fatal_run. rewrite Hp. simpl.
  exists closed. auto.
Qed.

End LifeFacts.

Ltac lives_step :=
  match goal with
  | |- lives ?I (bind _ _) (fun _ => ?I) =>
      eapply lives_bind with (Q := fun _ => I); [|intros]
  | |- lives _ (ret _) _ => apply lives_ret; intros; assumption
  | |- lives _ (emit _) _ =>
      apply lives_emit; intros ? ? [-> ?]; eexists;
      split; [reflexivity|split; [reflexivity|assumption]]
  | |- lives _ (handler_prints _) _ => apply handler_prints_lives
  | |- lives _ abort _ => apply lives_abort
  | |- lives _ OVS_NOT_REACHED _ => apply lives_abort
  | |- lives _ get_idl _ => apply lives_get_idl; intros; assumption
  | |- lives _ (set_idl _) _ =>
      apply lives_set_idl; intros ? ? [-> ?]; split; [reflexivity|assumption]
  | |- lives no_txn (ctl_fatal _) _ => apply ctl_fatal_lives_no
  | |- lives with_txn (ctl_fatal _) _ => apply ctl_fatal_lives_with
  | |- lives _ (match ?x with _ => _ end) _ => destruct x
  | |- lives _ (let _ := _ in _) _ => cbv zeta
  end.

Section LifePieces.

Context {session : DatabaseSession}.
Variable opts : nbctl_options.

Lemma call_read_phase_lives h ctx :
  lives no_txn (call_read_phase h ctx) (fun _ => no_txn).
Proof. unfold call_read_phase. repeat lives_step. Qed.

Lemma call_txn_phase_lives h ctx txn symtab :
  lives with_txn (call_txn_phase h ctx txn symtab) (fun _ => with_txn).
Proof. unfold call_txn_phase. repeat lives_step. Qed.

Lemma run_prerequisites_from_lives commands : forall i,
  lives no_txn (run_prerequisites_from i commands) (fun _ => no_txn).
Proof.
  induction commands as [|c rest IH]; intros i; simpl;
    unfold run_prerequisite, ovs_assert;
    repeat first [lives_step | apply call_read_phase_lives | apply IH].
Qed.

Lemma mutate_phases_lives commands : forall i ctx txn symtab,
  lives with_txn (mutate_phases i ctx commands txn symtab)
        (fun _ => with_txn).
Proof.
  induction commands as [|c rest IH]; intros i ctx txn symtab; simpl;
    repeat first [lives_step | apply call_txn_phase_lives | apply IH].
Qed.

Lemma check_symbols_lives nodes :
  lives with_txn (check_symbols nodes) (fun _ => with_txn).
Proof.
  induction nodes as [|[node_name symbol] rest IH]; simpl;
    unfold VLOG_WARN; repeat first [lives_step | exact IH].
Qed.

Lemma postprocess_phases_lives commands : forall i txn symtab,
  lives with_txn (postprocess_phases i commands txn symtab)
        (fun _ => with_txn).
Proof.
  induction commands as [|c rest IH]; intros i txn symtab; simpl;
    repeat first [lives_step | apply call_txn_phase_lives | apply IH].
Qed.

Lemma commit_block_lives txn :
  lives with_txn (commit_block txn) (fun _ => with_txn).
Proof.
  unfold commit_block. repeat lives_step.
Qed.

Lemma print_escaped_lives text :
  lives with_txn (print_escaped text) (fun _ => with_txn).
Proof.
  induction text as [|ch rest IH]; simpl; unfold fputs, putchar;
    repeat first [lives_step | exact IH].
Qed.

Lemma dispatch_output_lives commands : forall i,
  lives with_txn (dispatch_output opts i commands) (fun _ => with_txn).
Proof.
  induction commands as [|c rest IH]; intros i; simpl;
    unfold print_command, fputs, putchar;
    repeat first [lives_step | apply print_escaped_lives | apply IH].
Qed.

Lemma destroy_outputs_lives commands : forall i,
  lives no_txn (destroy_outputs i commands) (fun _ => no_txn).
Proof.
  induction commands as [|c rest IH]; intros i; simpl;
    repeat first [lives_step | apply IH].
Qed.

Lemma open_transaction_lives args :
  lives no_txn (open_transaction opts args) (fun _ => with_txn).
Proof.
  intros r p [-> Hp]. rewrite open_transaction_run. simpl_runs.
  exists in_txn. split; [|split; reflexivity].
  destruct (dry_run opts); reflexivity.
Qed.

Lemma try_again_path_lives commands :
  lives with_txn (try_again_path PTR commands) after_attempt.
Proof.
  unfold try_again_path. cbn [is_null].
  eapply lives_bind with (Q := fun _ => no_txn).
  - intros r p [-> Hp]. exists idle. simpl. repeat split.
  - intros _. eapply lives_bind with (Q := fun _ => no_txn);
      [lives_step|intros _].
    eapply lives_bind with (Q := fun _ => no_txn);
      [apply destroy_outputs_lives|intros _].
    apply lives_ret. intros r p H. exact H.
Qed.

Lemma success_path_lives commands :
  lives with_txn
    (emit ev_symtab_destroy;;
     dispatch_output opts 0 commands;;
     emit ev_free_commands;;
     emit ev_txn_destroy;;
     emit ev_idl_destroy;;
     ret (true, commands))
    after_attempt.
Proof.
  eapply lives_bind with (Q := fun _ => with_txn); [lives_step|intros _].
  eapply lives_bind with (Q := fun _ => with_txn);
    [apply dispatch_output_lives|intros _].
  eapply lives_bind with (Q := fun _ => with_txn); [lives_step|intros _].
  intros r p [-> Hp]. exists closed. simpl. split; reflexivity.
Qed.

Lemma classify_lives status error commands :
  lives with_txn (classify opts status error PTR commands) after_attempt.
Proof.
  destruct status; unfold classify;
    first [ apply lives_abort
          | apply ctl_fatal_lives_with
          | apply success_path_lives
          | apply try_again_path_lives ].
Qed.

Lemma after_commit_lives status commands txn symtab :
  lives with_txn (after_commit opts status commands txn symtab)
        after_attempt.
Proof.
  unfold after_commit.
  eapply lives_bind with (Q := fun _ => with_txn).
  - destruct (unchanged_or_success status);
      [apply postprocess_phases_lives|lives_step].
  - intros [[cs txn1] symtab1]. apply classify_lives.
Qed.

Lemma commit_and_finish_lives commands txn symtab :
  lives with_txn (commit_and_finish opts commands txn symtab) after_attempt.
Proof.
  unfold commit_and_finish.
  eapply lives_bind with (Q := fun _ => with_txn);
    [apply check_symbols_lives|intros _].
  eapply lives_bind with (Q := fun _ => with_txn);
    [apply commit_block_lives|intros [status txn1]].
  apply after_commit_lives.
Qed.

Lemma do_nbctl_lives args commands :
  lives no_txn (do_nbctl opts args commands) after_attempt.
Proof.
  unfold do_nbctl, mutate_attempt.
  eapply lives_bind with (Q := fun _ => with_txn).
  - eapply lives_bind with (Q := fun _ => with_txn);
      [apply open_transaction_lives|intros txn].
    eapply lives_bind with (Q := fun _ => with_txn); [lives_step|intros _].
    apply mutate_phases_lives.
  - intros [[[again cs] txn] symtab]. destruct again.
    + apply try_again_path_lives.
    + apply commit_and_finish_lives.
Qed.

Lemma main_iteration_lives args seqno commands :
  lives no_txn (main_iteration opts args seqno commands) (fun _ => no_txn).
Proof.
  unfold main_iteration.
  repeat (eapply lives_bind with (Q := fun _ => no_txn);
          [solve [repeat lives_step]|intros]).
  eapply lives_bind with (Q := fun _ => no_txn).
  - destruct (negb _); [|lives_step].
    eapply lives_bind with (Q := fun _ => no_txn); [lives_step|intros _].
    eapply lives_bind; [apply do_nbctl_lives|].
    intros [ok cs]. destruct ok.
    + apply lives_exit. intros r p H. exact H.
    + apply lives_ret. intros r p H. exact H.
  - intros [seqno1 cs]. repeat lives_step.
Qed.

Lemma main_loop_lives args fuel : forall seqno commands,
  lives no_txn (main_loop opts fuel args seqno commands) (fun _ => no_txn).
Proof.
  induction fuel as [|n IH]; intros seqno commands; simpl.
  - lives_step.
  - eapply lives_bind with (Q := fun _ => no_txn);
      [apply main_iteration_lives|].
    intros [seqno1 cs]. apply IH.
Qed.

Lemma main_lives fuel args commands :
  lives no_txn (main opts fuel args commands) (fun _ => no_txn).
Proof.
  unfold main, run_prerequisites.
  eapply lives_bind with (Q := fun _ => no_txn);
    [apply run_prerequisites_from_lives|intros cs].
  eapply lives_bind with (Q := fun _ => no_txn); [lives_step|intros idl].
  apply main_loop_lives.
Qed.

End LifePieces.

Section LifeClaims.

Context {session : DatabaseSession}.
Variable opts : nbctl_options.

(** X1.  [main] uses the session and the transaction in order.  From a
    start with [the_idl_txn] null, along every run, whatever the handlers
    do and however often the attempt is repeated: no call is made on the
    session after [ovsdb_idl_destroy]; no transaction is created while
    one is there; the calls on a transaction, and the mutate and
    post-commit phases, are made while one is there; a transaction is
    destroyed once; and the session is not destroyed under a transaction.
    When the process leaves through [exit], with success or with a
    failure, the transaction is gone and the session has been destroyed;
    when the loop goes on, no transaction is left and [the_idl_txn] is
    null again. *)
Theorem X1_session_and_transaction_life_cycle
    (fuel : nat) (args : string) (commands : list ctl_command)
    (p : process) :
  the_idl_txn p = NULL ->
  exists r,
    life idle (run_trace (main opts fuel args commands p)) = Some r
    /\ match run_result (main opts fuel args commands p) with
       | Ret _ =>
           r = idle
           /\ the_idl_txn (run_final (main opts fuel args commands p)) = NULL
       | Exit _ => r = closed
       | Abort => True
       end.
Proof.
  intros Hp.
  destruct (main_lives opts fuel args commands (conj eq_refl Hp))
    as (r & L & H).
  exists r. split; [exact L|].
  destruct (run_result (main opts fuel args commands p)); exact H.
Qed.

End LifeClaims.

(* ===================================================================== *)
(** ** Diagnostics *)
(* ===================================================================== *)

Section DiagnosticFacts.

Context {session : DatabaseSession}.

Lemma diagnosed_bind {A B} (m : M A) (f : A -> M B) :
  diagnosed m -> (forall a, diagnosed (f a)) -> diagnosed (bind m f).
Proof.
  intros Hm Hf p. rewrite bind_run. destruct (Hm p) as [Hw Hr].
  destruct (m p) as [[tr1 r1] p1]. simpl_runs.
  destruct r1 as [a| |]; simpl_runs; try (split; assumption).
  destruct (Hf a p1) as [Hw2 Hr2].
  destruct (f a p1) as [[tr2 r2] p2]. simpl_runs.
  split; [rewrite warnings_of_app; apply Forall_app; split; assumption|].
  rewrite stderr_of_app, Hr. cbn [app].
  destruct r2 as [b|status|]; try exact Hr2.
  destruct Hr2 as [H|[Hst (msg & H1 & H2)]]; [left; exact H|right].
  split; [exact Hst|]. exists msg. split; [exact H1|].
  rewrite error_stream_app, warnings_of_app, H2,
    (error_stream_warnings _ Hr), app_assoc.
  reflexivity.
Qed.

Lemma ctl_fatal_diagnosed {A} msg : diagnosed (@ctl_fatal _ A msg).
Proof.
  intros p. rewrite ctl_fatal_run. simpl_runs.
  destruct (is_null (the_idl_txn p)); (split; [constructor|]);
    right; (split; [reflexivity|]); exists msg; split; reflexivity.
Qed.

Lemma handler_prints_diagnosed texts : diagnosed (handler_prints texts).
Proof.
  intros p. rewrite handler_prints_run. simpl_runs.
  induction texts as [|text rest IH]; simpl; [split; [constructor|]|exact IH].
  reflexivity.
Qed.

Lemma VLOG_WARN_no_reference_diagnosed node_name :
  diagnosed (VLOG_WARN (no_reference_message node_name)).
Proof.
  intros p. split; [|reflexivity].
  repeat constructor. exists node_name. left. reflexivity.
Qed.

Lemma VLOG_WARN_weak_reference_diagnosed node_name :
  diagnosed (VLOG_WARN (weak_reference_message node_name)).
Proof.
  intros p. split; [|reflexivity].
  repeat constructor. exists node_name. right. reflexivity.
Qed.

End DiagnosticFacts.

Ltac diagnosed_step :=
  first
    [ apply ctl_fatal_diagnosed
    | apply handler_prints_diagnosed
    | apply VLOG_WARN_no_reference_diagnosed
    | apply VLOG_WARN_weak_reference_diagnosed
    | apply diagnosed_bind; [|intros]
    | match goal with
      | |- diagnosed (match ?x with _ => _ end) => destruct x
      | |- diagnosed (let _ := _ in _) => cbv zeta
      end
    | solve [ intros ?; split; [constructor|reflexivity] ]
    | solve [ intros ?; split; [constructor|left; split; reflexivity] ] ].

Section DiagnosticPieces.

Context {session : DatabaseSession}.
Variable opts : nbctl_options.

Lemma call_read_phase_diagnosed h ctx : diagnosed (call_read_phase h ctx).
Proof. unfold call_read_phase. repeat diagnosed_step. Qed.

Lemma call_txn_phase_diagnosed h ctx txn symtab :
  diagnosed (call_txn_phase h ctx txn symtab).
Proof. unfold call_txn_phase. repeat diagnosed_step. Qed.

Lemma run_prerequisites_from_diagnosed commands : forall i,
  diagnosed (run_prerequisites_from i commands).
Proof.
  induction commands as [|c rest IH]; intros i; simpl;
    unfold run_prerequisite, ovs_assert;
    repeat first [apply call_read_phase_diagnosed | apply IH
                 | diagnosed_step].
Qed.

Lemma mutate_phases_diagnosed commands : forall i ctx txn symtab,
  diagnosed (mutate_phases i ctx commands txn symtab).
Proof.
  induction commands as [|c rest IH]; intros i ctx txn symtab; simpl;
    repeat first [apply call_txn_phase_diagnosed | apply IH
                 | diagnosed_step].
Qed.

Lemma check_symbols_diagnosed nodes : diagnosed (check_symbols nodes).
Proof.
  induction nodes as [|[node_name symbol] rest IH]; simpl;
    repeat first [exact IH | diagnosed_step].
Qed.

Lemma postprocess_phases_diagnosed commands : forall i txn symtab,
  diagnosed (postprocess_phases i commands txn symtab).
Proof.
  induction commands as [|c rest IH]; intros i txn symtab; simpl;
    repeat first [apply call_txn_phase_diagnosed | apply IH
                 | diagnosed_step].
Qed.

Lemma print_escaped_diagnosed text : diagnosed (print_escaped text).
Proof.
  induction text as [|ch rest IH]; simpl; unfold fputs, putchar;
    repeat first [exact IH | diagnosed_step].
Qed.

Lemma dispatch_output_diagnosed commands : forall i,
  diagnosed (dispatch_output opts i commands).
Proof.
  induction commands as [|c rest IH]; intros i; simpl;
    unfold print_command, fputs, putchar;
    repeat first [apply print_escaped_diagnosed | apply IH
                 | diagnosed_step].
Qed.

Lemma destroy_outputs_diagnosed commands : forall i,
  diagnosed (destroy_outputs i commands).
Proof.
  induction commands as [|c rest IH]; intros i; simpl;
    repeat first [apply IH | diagnosed_step].
Qed.

Lemma do_nbctl_diagnosed args commands :
  diagnosed (do_nbctl opts args commands).
Proof.
  unfold do_nbctl, mutate_attempt, open_transaction, try_again_path,
    commit_and_finish, commit_block, after_commit, classify,
    OVS_NOT_REACHED.
  repeat first [ apply mutate_phases_diagnosed
               | apply check_symbols_diagnosed
               | apply postprocess_phases_diagnosed
               | apply dispatch_output_diagnosed
               | apply destroy_outputs_diagnosed
               | diagnosed_step ].
Qed.

Lemma main_iteration_diagnosed args seqno commands :
  diagnosed (main_iteration opts args seqno commands).
Proof.
  unfold main_iteration.
  repeat first [apply do_nbctl_diagnosed | diagnosed_step].
Qed.

Lemma main_loop_diagnosed args fuel : forall seqno commands,
  diagnosed (main_loop opts fuel args seqno commands).
Proof.
  induction fuel as [|n IH]; intros seqno commands; simpl;
    repeat first [apply main_iteration_diagnosed | apply IH
                 | diagnosed_step].
Qed.


End DiagnosticPieces.

(* ===================================================================== *)
(** ** What an attempt depends on, and the order of the mutate phases *)
(* ===================================================================== *)

Section AttemptInputs.

Context {session : DatabaseSession}.
Variable opts : nbctl_options.

Lemma reset_output_parsed c c' :
  parsed c = parsed c' -> reset_output c = reset_output c'.
Proof.
  unfold parsed, reset_output. intros [= H1 H2 H3]. now rewrite H1, H2, H3.
Qed.

Lemma map_reset_output_parsed (cs : list ctl_command) : forall cs',
  map parsed cs = map parsed cs' ->
  map reset_output cs = map reset_output cs'.
Proof.
  induction cs as [|c cs IH]; intros [|c' cs']; simpl; try discriminate.
  - reflexivity.
  - intros [= H1 H2 H3 H4]. f_equal.
    + apply reset_output_parsed. unfold parsed. now rewrite H1, H2, H3.
    + apply IH. exact H4.
Qed.

Lemma do_nbctl_parsed args cs cs' p :
  map parsed cs = map parsed cs' ->
  do_nbctl opts args cs p = do_nbctl opts args cs' p.
Proof.
  intros H. unfold do_nbctl, mutate_attempt.
  now rewrite (map_reset_output_parsed _ _ H).
Qed.

(** X3.  An attempt starts from clean outputs.  [do_nbctl] depends on
    the array it is given only through what parsing fixed, the handler
    binding, the arguments and the options of each command: two arrays
    that agree on these give the same run, whatever output and table
    their commands carry.  So the array that a discarded attempt returns
    gives, on every state of the process, the run that the batch as it
    was before that attempt gives. *)
Theorem X3_attempt_ignores_stale_output
    (args : string) (commands commands' : list ctl_command) (p : process) :
  map parsed commands = map parsed commands' ->
  do_nbctl opts args commands p = do_nbctl opts args commands' p
  /\ (forall tr cs p1 q,
        do_nbctl opts args commands p = (tr, Ret (false, cs), p1) ->
        do_nbctl opts args cs q = do_nbctl opts args commands q).
Proof.
  intros H. split; [apply do_nbctl_parsed; exact H|].
  intros tr cs p1 q E. apply do_nbctl_parsed.
  pose proof (do_nbctl_outcome opts args commands p) as Ho.
  rewrite E in Ho. tauto.
Qed.

Lemma no_runs ks tr :
  ~ In K_run ks ->
  Forall (fun e => In (kind_of e) ks) tr -> runs_of tr = [].
Proof.
  intros Hk H. induction H as [|e tr He _ IH]; [reflexivity|].
  destruct e; simpl in *; try exact IH. contradiction.
Qed.

Lemma runs_of_app tr1 tr2 : runs_of (tr1 ++ tr2) = runs_of tr1 ++ runs_of tr2.
Proof.
  induction tr1 as [|e tr1 IH]; [reflexivity|].
  destruct e; simpl; rewrite ?IH; reflexivity.
Qed.

Lemma call_txn_phase_no_runs h ctx txn symtab p :
  runs_of (run_trace (call_txn_phase h ctx txn symtab p)) = [].
Proof.
  eapply no_runs; [|apply call_txn_phase_emits].
  simpl. intuition discriminate.
Qed.

Lemma has_run_reset_output c : has_run (reset_output c) = has_run c.
Proof. reflexivity. Qed.

Lemma indices_where_has_run_reset commands : forall i,
  indices_where has_run i (map reset_output commands)
  = indices_where has_run i commands.
Proof.
  induction commands as [|c rest IH]; intros i; simpl; [reflexivity|].
  rewrite has_run_reset_output, IH. reflexivity.
Qed.

Lemma mutate_phases_runs commands : forall i ctx txn symtab p,
  let run := mutate_phases i ctx commands txn symtab p in
  (exists n, runs_of (run_trace run)
             = firstn n (indices_where has_run i commands))
  /\ (forall cs t s, run_result run = Ret (false, cs, t, s) ->
        runs_of (run_trace run) = indices_where has_run i commands).
Proof.
  induction commands as [|c rest IH]; intros i ctx txn symtab p; simpl.
  - split; [exists 0; reflexivity|reflexivity].
  - destruct (run (syntax c)) as [h|] eqn:Hrun.
    + assert (Hc : has_run c = true)
        by (unfold has_run; now rewrite Hrun).
      rewrite Hc. rewrite bind_run, bind_emit.
      pose proof (call_txn_phase_no_runs h
                    (ctl_context_init_command ctx c) txn symtab p) as Hq.
      destruct (call_txn_phase h (ctl_context_init_command ctx c) txn
                  symtab p) as [[tr1 r1] p1].
      simpl_runs. destruct r1 as [[[ctx1 txn1] symtab1]| |].
      * destruct (try_again ctx1).
        -- simpl_runs. rewrite app_nil_r. cbn [runs_of]. rewrite Hq.
           split; [exists 1; reflexivity|discriminate].
        -- rewrite bind_run.
           destruct (IH (S i) ctx1 txn1 symtab1 p1) as [[n Hn] Hall].
           destruct (mutate_phases (S i) ctx1 rest txn1 symtab1 p1)
             as [[tr2 r2] p2].
           simpl_runs.
           assert (Hruns : runs_of ((ev_run i (ctl_context_init_command
                                                 ctx c) :: tr1) ++ tr2)
                           = i :: runs_of tr2)
             by (cbn [app runs_of]; rewrite runs_of_app, Hq; reflexivity).
           destruct r2 as [[[[again rest1] txn2] symtab2]| |]; simpl_runs;
             rewrite ?app_nil_r, Hruns, Hn.
           ++ split; [exists (S n); reflexivity|].
              intros cs t s [= -> _ _ _]. rewrite <- Hn.
              f_equal. eapply Hall. reflexivity.
           ++ split; [exists (S n); reflexivity|discriminate].
           ++ split; [exists (S n); reflexivity|discriminate].
      * simpl_runs. cbn [runs_of]. rewrite Hq.
        split; [exists 1; reflexivity|discriminate].
      * simpl_runs. cbn [runs_of]. rewrite Hq.
        split; [exists 1; reflexivity|discriminate].
    + assert (Hc : has_run c = false)
        by (unfold has_run; now rewrite Hrun).
      rewrite Hc. rewrite bind_ret.
      cbn [try_again ctl_context_init_command].
      rewrite bind_run.
      destruct (IH (S i) (ctl_context_init_command ctx c) txn symtab p)
        as [[n Hn] Hall].
      destruct (mutate_phases (S i) (ctl_context_init_command ctx c) rest
                  txn symtab p) as [[tr2 r2] p2].
      simpl_runs.
      destruct r2 as [[[[again rest1] txn2] symtab2]| |]; simpl_runs;
        rewrite ?app_nil_r.
      * split; [exists n; exact Hn|].
        intros cs t s [= -> _ _ _]. eapply Hall. reflexivity.
      * split; [exists n; exact Hn|discriminate].
      * split; [exists n; exact Hn|discriminate].
Qed.

(** One turn of the loop for a command that has a mutate phase: the
    handler is called on the context bound to the command, with the
    transaction and the symbol table as the handlers before it left
    them; the loop is left when the handler returns with the retry flag
    set, or ends the process, and goes on to the next command
    otherwise. *)
Lemma mutate_phases_step i ctx c rest txn symtab q h texts r :
  run (syntax c) = Some h ->
  h (ctl_context_init_command ctx c)
    {| o_idl := the_idl q; o_txn := txn; o_symtab := symtab |}
  = (texts, r) ->
  mutate_phases i ctx (c :: rest) txn symtab q =
  let called :=
    ev_run i (ctl_context_init_command ctx c) :: map ev_printf texts in
  match r with
  | handler_returns (ctx', o) =>
      let q' := {| the_idl := o_idl o; the_idl_txn := the_idl_txn q |} in
      let c' := ctl_context_done_command ctx' c in
      if try_again ctx'
      then (called, Ret (true, c' :: rest, o_txn o, o_symtab o), q')
      else
        let x := mutate_phases (S i) ctx' rest (o_txn o) (o_symtab o) q' in
        (called ++ run_trace x,
         match run_result x with
         | Ret (again, rest', t, s) => Ret (again, c' :: rest', t, s)
         | Exit status => Exit status
         | Abort => Abort
         end,
         run_final x)
  | handler_fatal msg =>
      (called ++ run_trace (@ctl_fatal _ unit msg q), Exit EXIT_FAILURE, q)
  | handler_aborts => (called, Abort, q)
  end.
Proof.
  intros Hrun Hh. cbn [mutate_phases]. rewrite Hrun.
  rewrite bind_run, bind_emit, call_txn_phase_run, Hh.
  destruct r as [[ctx' o]|msg|]; simpl_runs; try reflexivity.
  destruct (try_again ctx').
  - cbn [run_trace run_result run_final fst snd ret].
    rewrite app_nil_r. reflexivity.
  - rewrite bind_run.
    destruct (mutate_phases (S i) ctx' rest (o_txn o) (o_symtab o) _)
      as [[tr2 r2] p2].
    destruct r2 as [[[[again rest'] t] s]| |]; simpl_runs;
      rewrite ?app_nil_r; reflexivity.
Qed.

(** X4.  The mutate phases of an attempt run in the order of the
    commands.  In every attempt, whatever the handlers do, the commands
    whose mutate phase was called are the first so many of those that
    have one, in the order of the array and none twice; and when the
    loop was not left for a retry, they are all of them.  Each call
    hands the handler the context bound to its command and the
    transaction and symbol table as the handlers before it left them,
    and the loop is left at the first handler that returns with the
    retry flag set. *)
Theorem X4_mutate_phases_run_in_order
    (args : string) (commands : list ctl_command) (p : process) :
  let attempt := mutate_attempt opts args commands p in
  (exists n, runs_of (run_trace attempt)
             = firstn n (indices_where has_run 0 commands))
  /\ NoDup (indices_where has_run 0 commands)
  /\ (forall cs txn symtab,
        run_result attempt = Ret (false, cs, txn, symtab) ->
        runs_of (run_trace attempt) = indices_where has_run 0 commands)
  /\ (forall i ctx c rest txn symtab q h texts r,
        run (syntax c) = Some h ->
        h (ctl_context_init_command ctx c)
          {| o_idl := the_idl q; o_txn := txn; o_symtab := symtab |}
        = (texts, r) ->
        mutate_phases i ctx (c :: rest) txn symtab q =
        let called :=
          ev_run i (ctl_context_init_command ctx c) :: map ev_printf texts in
        match r with
        | handler_returns (ctx', o) =>
            let q' := {| the_idl := o_idl o;
                         the_idl_txn := the_idl_txn q |} in
            let c' := ctl_context_done_command ctx' c in
            if try_again ctx'
            then (called, Ret (true, c' :: rest, o_txn o, o_symtab o), q')
            else
              let x := mutate_phases (S i) ctx' rest (o_txn o) (o_symtab o)
                        q' in
              (called ++ run_trace x,
               match run_result x with
               | Ret (again, rest', t, s) => Ret (again, c' :: rest', t, s)
               | Exit status => Exit status
               | Abort => Abort
               end,
               run_final x)
        | handler_fatal msg =>
            (called ++ run_trace (@ctl_fatal _ unit msg q),
             Exit EXIT_FAILURE, q)
        | handler_aborts => (called, Abort, q)
        end).
Proof.
  intros attempt. unfold attempt, mutate_attempt.
  rewrite bind_run, open_transaction_run. rewrite bind_emit. simpl_runs.
  match goal with
  | |- context [mutate_phases 0 ?ctx ?cs ?txn ?st ?q] =>
      destruct (mutate_phases_runs cs 0 ctx txn st q) as [[n Hn] Hall];
      destruct (mutate_phases 0 ctx cs txn st q) as [[tr r] p1]
  end.
  simpl_runs. rewrite indices_where_has_run_reset in Hn, Hall.
  assert (Hopen : forall tr0,
            runs_of ((ev_txn_create
                        :: (if dry_run opts then [ev_txn_set_dry_run]
                            else [])
                        ++ [ev_txn_add_comment ("ovs-nbctl: " ++ args)%string])
                     ++ ev_symtab_create :: tr0)
            = runs_of tr0)
    by (intros tr0; destruct (dry_run opts); reflexivity).
  split; [|split; [|split]].
  - exists n. destruct r as [x| |]; simpl_runs;
      rewrite ?app_nil_r, ?Hopen; try exact Hn.
  - apply indices_where_NoDup.
  - intros cs txn symtab E.
    destruct r as [x| |]; simpl_runs; try discriminate.
    rewrite Hopen. eapply Hall. exact E.
  - intros i ctx c rest txn symtab q h texts r0 Hrun Hh.
    exact (mutate_phases_step i ctx c rest txn symtab q Hrun Hh).
Qed.

End AttemptInputs.

(* ===================================================================== *)
(** ** The C library functions of the handlers *)
(* ===================================================================== *)

Section LibraryFacts.

Import Northbound.

Lemma strcmp_eq (a b : string) : strcmp a b = 0%Z <-> a = b.
Proof.
  unfold strcmp. split.
  - destruct (String.compare a b) eqn:E; try discriminate.
    intros _. now apply String.compare_eq_iff.
  - intros ->.
    assert (H : String.compare b b = Eq).
    { induction b as [|c b IH]; [reflexivity|].
      simpl. unfold Ascii.compare. now rewrite N.compare_refl. }
    now rewrite H.
Qed.

Lemma strcmp_eqb (a b : string) : (strcmp a b =? 0)%Z = String.eqb a b.
Proof.
  destruct (String.eqb a b) eqn:E.
  - apply String.eqb_eq in E. apply Z.eqb_eq. now apply strcmp_eq.
  - apply String.eqb_neq in E. apply Z.eqb_neq. now rewrite strcmp_eq.
Qed.

Lemma strcmp_antisym (a b : string) : strcmp b a = (- strcmp a b)%Z.
Proof.
  unfold strcmp. rewrite (String.compare_antisym b a).
  destruct (String.compare a b); reflexivity.
Qed.

Lemma ascii_compare_lt (a b : ascii) :
  Ascii.compare a b = Lt <-> (N_of_ascii a < N_of_ascii b)%N.
Proof. unfold Ascii.compare. apply N.compare_lt_iff. Qed.

Lemma string_compare_lt_trans (a : string) : forall b c,
  String.compare a b = Lt -> String.compare b c = Lt ->
  String.compare a c = Lt.
Proof.
  induction a as [|x a IH]; intros [|y b] [|z c]; simpl; try discriminate;
    try reflexivity.
  destruct (Ascii.compare x y) eqn:Exy; try discriminate.
  - apply Ascii.compare_eq_iff in Exy. subst y.
    destruct (Ascii.compare x z); try discriminate; [|reflexivity].
    intros. eapply IH; eassumption.
  - intros _. destruct (Ascii.compare y z) eqn:Eyz; try discriminate.
    + apply Ascii.compare_eq_iff in Eyz. subst z. now rewrite Exy.
    + intros _. apply ascii_compare_lt in Exy. apply ascii_compare_lt in Eyz.
      assert (H : Ascii.compare x z = Lt)
        by (apply ascii_compare_lt; eapply N.lt_trans; eassumption).
      now rewrite H.
Qed.

Lemma strcmp_trans (a b c : string) :
  (strcmp a b <= 0)%Z -> (strcmp b c <= 0)%Z -> (strcmp a c <= 0)%Z.
Proof.
  unfold strcmp.
  destruct (String.compare a b) eqn:Eab; try lia;
    destruct (String.compare b c) eqn:Ebc; try lia; intros _ _.
  - apply String.compare_eq_iff in Eab, Ebc. subst.
    destruct (strcmp_eq c c) as [_ H]. specialize (H eq_refl).
    unfold strcmp in H. destruct (String.compare c c); lia.
  - apply String.compare_eq_iff in Eab. subst. rewrite Ebc. lia.
  - apply String.compare_eq_iff in Ebc. subst. rewrite Eab. lia.
  - rewrite (string_compare_lt_trans _ _ _ Eab Ebc). lia.
Qed.

Lemma dir_encode_some (d : string) (z : Z) :
  dir_encode d = Some z
  <-> (d = "from-lport" /\ z = DIR_FROM_LPORT)
      \/ (d = "to-lport" /\ z = DIR_TO_LPORT).
Proof.
  unfold dir_encode. rewrite !strcmp_eqb.
  destruct (String.eqb d "from-lport") eqn:E1.
  - apply String.eqb_eq in E1. subst. split.
    + intros H. left. split; congruence.
    + intros [[_ ->]|[H _]]; [reflexivity|discriminate].
  - destruct (String.eqb d "to-lport") eqn:E2.
    + apply String.eqb_eq in E2. subst. split.
      * intros H. right. split; congruence.
      * intros [[H _]|[_ ->]]; [discriminate|reflexivity].
    + apply String.eqb_neq in E1, E2. split; [discriminate|].
      intros [[H _]|[H _]]; contradiction.
Qed.

End LibraryFacts.

(* ===================================================================== *)
(** ** Runs of the handlers *)
(* ===================================================================== *)

Section HandlerFacts.

Import Northbound.

Context {library : Library}.

Lemma bind_returns_run {A B} (m : handler A) (f : A -> handler B) s a s1 :
  m s = returns a s1 -> Northbound.bind m f s = f a s1.
Proof. intros E. unfold Northbound.bind. now rewrite E. Qed.

Lemma bind_stops_run {A B} (m : handler A) (f : A -> handler B) s why s1 :
  m s = stops why s1 -> Northbound.bind m f s = stops why s1.
Proof. intros E. unfold Northbound.bind. now rewrite E. Qed.

Lemma bind_ret_run {A B} (a : A) (f : A -> handler B) s :
  Northbound.bind (Northbound.ret a) f s = f a s.
Proof. reflexivity. Qed.

Lemma bind_arg {B} ctx i (f : string -> handler B) s a :
  nth_error (nb_argv ctx) i = Some a ->
  Northbound.bind (arg ctx i) f s = f a s.
Proof. intros E. unfold Northbound.bind, arg. now rewrite E. Qed.

Lemma preserves_bind {A B X} (part : handler_state -> X) (m : handler A)
    (f : A -> handler B) :
  preserves part m -> (forall a, preserves part (f a)) ->
  preserves part (Northbound.bind m f).
Proof.
  intros Hm Hf s. unfold Northbound.bind. specialize (Hm s).
  destruct (m s) as [a s1|why s1]; simpl in *.
  - rewrite <- Hm. apply Hf.
  - exact Hm.
Qed.

Lemma preserves_ret {A X} (part : handler_state -> X) (a : A) :
  preserves part (Northbound.ret a).
Proof. intros s. reflexivity. Qed.

Lemma preserves_ctl_fatal {A X} (part : handler_state -> X) msg :
  preserves part (@Northbound.ctl_fatal A msg).
Proof. intros s. reflexivity. Qed.

Lemma preserves_not_reached {A X} (part : handler_state -> X) :
  preserves part (@Northbound.OVS_NOT_REACHED A).
Proof. intros s. reflexivity. Qed.

Lemma preserves_arg {X} (part : handler_state -> X) ctx i :
  preserves part (arg ctx i).
Proof. intros s. unfold arg. now destruct (nth_error _ _). Qed.

Lemma preserves_of_reads_only {A X} (part : handler_state -> X) (m : handler A) :
  reads_only m -> preserves part m.
Proof. intros H s. now rewrite (H s). Qed.

Lemma reads_only_run {A} (m : handler A) s :
  reads_only m ->
  (exists a, m s = returns a s) \/ (exists why, m s = stops why s).
Proof.
  intros H. specialize (H s). destruct (m s) as [a s1|why s1]; simpl in H;
    subst; eauto.
Qed.

Lemma preserves_for_each {A X} (part : handler_state -> X) (rows : list A)
    (body : A -> handler unit) :
  (forall r, preserves part (body r)) -> preserves part (for_each rows body).
Proof.
  intros H. induction rows as [|r rows IH]; simpl.
  - apply preserves_ret.
  - apply preserves_bind; [apply H|intros _; exact IH].
Qed.

(** *** The lookups change nothing *)

Lemma lswitch_by_name_reads id rows : forall found,
  reads_only (lswitch_by_name id rows found).
Proof.
  induction rows as [|iter rows IH]; intros found; simpl.
  - apply preserves_ret.
  - destruct (negb _); [apply IH|].
    destruct found; [apply preserves_ctl_fatal|apply IH].
Qed.

Lemma lswitch_by_name_or_uuid_reads ctx id must_exist :
  reads_only (lswitch_by_name_or_uuid ctx id must_exist).
Proof.
  unfold lswitch_by_name_or_uuid. apply preserves_bind.
  - destruct (match uuid_from_string id with Some _ => _ | None => _ end);
      [apply preserves_ret|apply lswitch_by_name_reads].
  - intros [l|]; [apply preserves_ret|].
    destruct must_exist; [apply preserves_ctl_fatal|apply preserves_ret].
Qed.

Lemma lport_by_name_or_uuid_reads ctx id must_exist :
  reads_only (lport_by_name_or_uuid ctx id must_exist).
Proof.
  unfold lport_by_name_or_uuid.
  destruct (match match uuid_from_string id with Some _ => _ | None => _ end
            with Some _ => _ | None => _ end);
    [apply preserves_ret|].
  destruct must_exist; [apply preserves_ctl_fatal|apply preserves_ret].
Qed.

Lemma the_lswitch_reads ctx id : reads_only (the_lswitch ctx id).
Proof.
  unfold the_lswitch. apply preserves_bind.
  - apply lswitch_by_name_or_uuid_reads.
  - intros [l|]; [apply preserves_ret|apply preserves_not_reached].
Qed.

Lemma the_lport_reads ctx id : reads_only (the_lport ctx id).
Proof.
  unfold the_lport. apply preserves_bind.
  - apply lport_by_name_or_uuid_reads.
  - intros [l|]; [apply preserves_ret|apply preserves_not_reached].
Qed.

Lemma lport_to_lswitch_reads idl lport :
  reads_only (lport_to_lswitch idl lport).
Proof.
  unfold lport_to_lswitch.
  destruct (switch_of_port _ _) as [[l i]|];
    [apply preserves_ret|apply preserves_ctl_fatal].
Qed.

Lemma parse_direction_reads a : reads_only (parse_direction a).
Proof.
  unfold parse_direction.
  repeat destruct (Ascii.eqb _ _);
    first [apply preserves_ret|apply preserves_ctl_fatal].
Qed.

Lemma parse_priority_reads a : reads_only (parse_priority a).
Proof.
  unfold parse_priority.
  destruct (scan_d64 a); [|apply preserves_ctl_fatal].
  destruct (_ || _); [apply preserves_ctl_fatal|apply preserves_ret].
Qed.

Lemma lswitch_add_existing_reads name may_exist rows :
  reads_only (lswitch_add_existing name may_exist rows).
Proof.
  induction rows as [|l rows IH]; simpl; [apply preserves_ret|].
  destruct (_ =? _)%Z; [|exact IH].
  destruct may_exist; [apply preserves_ret|apply preserves_ctl_fatal].
Qed.

Lemma check_addresses_reads addrs : reads_only (check_addresses addrs).
Proof.
  induction addrs as [|a addrs IH]; simpl; [apply preserves_ret|].
  destruct (_ && _); [apply preserves_ctl_fatal|exact IH].
Qed.

End HandlerFacts.

(* ===================================================================== *)
(** ** Directions and the order of ACLs *)
(* ===================================================================== *)

Section AclOrder.

Import Northbound.

Context {library : Library}.

(** X5.  [parse_direction] looks at the first character of its argument
    only: with a t it returns the text to-lport, with an f the text
    from-lport, and with anything else (the empty argument included) it
    dies with its diagnostic.  Either way it changes nothing.  What it
    returns is a direction that [dir_encode] knows, and one that it maps
    to itself. *)
Theorem X5_parse_direction_first_letter (arg : string) (s : handler_state) :
  match parse_direction arg s with
  | returns d s' =>
      s' = s
      /\ ((first_char arg = "t"%char /\ d = "to-lport"
           /\ dir_encode d = Some DIR_TO_LPORT)
          \/ (first_char arg = "f"%char /\ d = "from-lport"
              /\ dir_encode d = Some DIR_FROM_LPORT))
      /\ parse_direction d s = returns d s
  | stops why s' =>
      s' = s
      /\ why = fatal (arg ++ ": direction must be " ++ DQUOTE ++ "to-lport"
                      ++ DQUOTE ++ " or " ++ DQUOTE ++ "from-lport"
                      ++ DQUOTE)
      /\ Ascii.eqb (first_char arg) "t"%char = false
      /\ Ascii.eqb (first_char arg) "f"%char = false
  end.
Proof.
  unfold parse_direction.
  destruct (Ascii.eqb (first_char arg) "t") eqn:Et.
  - apply Ascii.eqb_eq in Et. unfold Northbound.ret.
    split; [reflexivity|]. split; [|reflexivity].
    left. split; [exact Et|split; reflexivity].
  - destruct (Ascii.eqb (first_char arg) "f") eqn:Ef.
    + apply Ascii.eqb_eq in Ef. unfold Northbound.ret.
      split; [reflexivity|]. split; [|reflexivity].
      right. split; [exact Ef|split; reflexivity].
    + unfold Northbound.ctl_fatal. repeat split.
Qed.

Lemma known_direction_cases (acl : nbrec_acl) :
  known_direction acl = true ->
  acl_direction acl = "from-lport" \/ acl_direction acl = "to-lport".
Proof.
  unfold known_direction.
  destruct (dir_encode (acl_direction acl)) as [z|] eqn:E; [|discriminate].
  intros _. apply dir_encode_some in E. tauto.
Qed.

Lemma acl_cmp_known (a b : nbrec_acl) :
  known_direction a = true -> known_direction b = true ->
  acl_cmp a b
  = Some (if negb (String.eqb (acl_direction a) (acl_direction b))
          then (if String.eqb (acl_direction a) "from-lport" then -1 else 1)
          else if negb (acl_priority a =? acl_priority b)
               then (if acl_priority b <? acl_priority a then -1 else 1)
               else strcmp (acl_match a) (acl_match b))%Z.
Proof.
  intros Ha Hb. apply known_direction_cases in Ha.
  apply known_direction_cases in Hb. unfold acl_cmp.
  assert (F : dir_encode "from-lport" = Some 0%Z) by reflexivity.
  assert (T : dir_encode "to-lport" = Some 1%Z) by reflexivity.
  destruct Ha as [Ha|Ha], Hb as [Hb|Hb]; rewrite Ha, Hb, ?F, ?T;
    cbn [String.eqb Ascii.eqb Bool.eqb negb andb Z.eqb Z.ltb Z.compare
         Pos.eqb];
    repeat match goal with
           | |- context [if ?x then _ else _] => destruct x
           end; reflexivity.
Qed.

(** X6.  On ACLs whose directions [dir_encode] knows, [acl_cmp] is a
    comparator as [qsort] needs one: it returns, swapping the arguments
    flips the sign of the result, the result is zero exactly when the
    two ACLs agree on direction, priority and match, and it is
    transitive. *)
Theorem X6_acl_cmp_is_a_consistent_comparator (a b c : nbrec_acl) :
  known_direction a = true ->
  known_direction b = true ->
  known_direction c = true ->
  exists ab ba bc ac,
    acl_cmp a b = Some ab /\ acl_cmp b a = Some ba
    /\ acl_cmp b c = Some bc /\ acl_cmp a c = Some ac
    /\ Z.sgn ba = (- Z.sgn ab)%Z
    /\ (ab = 0%Z <-> same_keys a b)
    /\ ((ab <= 0)%Z -> (bc <= 0)%Z -> (ac <= 0)%Z).
Proof.
  intros Ha Hb Hc.
  rewrite (acl_cmp_known a b Ha Hb), (acl_cmp_known b a Hb Ha),
    (acl_cmp_known b c Hb Hc), (acl_cmp_known a c Ha Hc).
  do 4 eexists. do 4 (split; [reflexivity|]).
  apply known_direction_cases in Ha.
  apply known_direction_cases in Hb.
  apply known_direction_cases in Hc.
  pose proof (strcmp_antisym (acl_match a) (acl_match b)) as Hanti.
  pose proof (strcmp_eq (acl_match a) (acl_match b)) as Heq.
  pose proof (strcmp_trans (acl_match a) (acl_match b) (acl_match c))
    as Htrans.
  assert (Eff : String.eqb "from-lport" "from-lport" = true) by reflexivity.
  assert (Eft : String.eqb "from-lport" "to-lport" = false) by reflexivity.
  assert (Etf : String.eqb "to-lport" "from-lport" = false) by reflexivity.
  assert (Ett : String.eqb "to-lport" "to-lport" = true) by reflexivity.
  assert (Dft : "from-lport" <> "to-lport") by discriminate.
  assert (Dtf : "to-lport" <> "from-lport") by discriminate.
  unfold same_keys.
  destruct (Z.eqb_spec (acl_priority a) (acl_priority b)) as [Pab|Pab];
    destruct (Z.eqb_spec (acl_priority b) (acl_priority a)) as [Pba|Pba];
    try congruence;
    destruct (Z.eqb_spec (acl_priority b) (acl_priority c)) as [Pbc|Pbc];
    destruct (Z.eqb_spec (acl_priority a) (acl_priority c)) as [Pac|Pac];
    try congruence;
    destruct (Z.ltb_spec (acl_priority b) (acl_priority a));
    destruct (Z.ltb_spec (acl_priority a) (acl_priority b)); try lia;
    destruct (Z.ltb_spec (acl_priority c) (acl_priority b)); try lia;
    destruct (Z.ltb_spec (acl_priority c) (acl_priority a)); try lia;
    destruct Ha as [Ha|Ha], Hb as [Hb|Hb], Hc as [Hc|Hc];
    rewrite Ha, Hb, Hc, ?Eff, ?Eft, ?Etf, ?Ett; cbn [negb];
    (split; [first [reflexivity | rewrite Hanti; apply Z.sgn_opp]|]);
    (split;
     [split;
      [intros Hz;
       first [discriminate Hz
             | split; [reflexivity|split; [assumption|apply Heq; exact Hz]]]
      |intros (Hd & Hp & Hm); first [congruence | apply Heq; exact Hm]]
     |first [exact Htrans | intros; lia | intros; discriminate]]).
Qed.

Lemma acl_cmp_none (a b : nbrec_acl) :
  acl_cmp a b = None
  <-> known_direction a = false \/ known_direction b = false.
Proof.
  unfold acl_cmp, known_direction.
  destruct (dir_encode (acl_direction a)) as [da|];
    destruct (dir_encode (acl_direction b)) as [db|];
    repeat match goal with
           | |- context [if ?x then _ else _] => destruct x
           end;
    split; try discriminate; try tauto; intros [H|H]; discriminate.
Qed.

Lemma strcmp_negative (x y : string) :
  (strcmp x y < 0)%Z <-> String.compare x y = Lt.
Proof.
  unfold strcmp. destruct (String.compare x y); split; intros H;
    try reflexivity; try discriminate; lia.
Qed.

(** X7.  The order of [acl_cmp]: an ACL sorts before another one when it
    is a from-lport ACL and the other a to-lport one, or, the directions
    being the same, when its priority is the higher one, or, the
    priorities being the same too, when its match is the smaller text in
    the bytewise order.  The comparison ends in [OVS_NOT_REACHED] exactly
    when one of the two directions is not one that [dir_encode] knows. *)
Theorem X7_acl_cmp_order (a b : nbrec_acl) :
  ((exists z, acl_cmp a b = Some z /\ (z < 0)%Z)
   <-> known_direction a = true /\ known_direction b = true
       /\ ((acl_direction a = "from-lport" /\ acl_direction b = "to-lport")
           \/ (acl_direction a = acl_direction b
               /\ ((acl_priority b < acl_priority a)%Z
                   \/ (acl_priority a = acl_priority b
                       /\ String.compare (acl_match a) (acl_match b)
                          = Lt)))))
  /\ (acl_cmp a b = None
      <-> known_direction a = false \/ known_direction b = false).
Proof.
  split; [|apply acl_cmp_none].
  destruct (known_direction a) eqn:Ha; destruct (known_direction b) eqn:Hb.
  2-4: split;
    [intros (z & E & _);
     assert (N : acl_cmp a b = None) by (apply acl_cmp_none; tauto);
     congruence
    |intros (H1 & H2 & _); discriminate].
  rewrite (acl_cmp_known a b Ha Hb).
  apply known_direction_cases in Ha. apply known_direction_cases in Hb.
  pose proof (strcmp_negative (acl_match a) (acl_match b)) as Hneg.
  assert (Eff : String.eqb "from-lport" "from-lport" = true) by reflexivity.
  assert (Eft : String.eqb "from-lport" "to-lport" = false) by reflexivity.
  assert (Etf : String.eqb "to-lport" "from-lport" = false) by reflexivity.
  assert (Ett : String.eqb "to-lport" "to-lport" = true) by reflexivity.
  destruct (Z.eqb_spec (acl_priority a) (acl_priority b)) as [Pab|Pab];
    destruct (Z.ltb_spec (acl_priority b) (acl_priority a));
    destruct Ha as [Ha|Ha], Hb as [Hb|Hb];
    rewrite Ha, Hb, ?Eff, ?Eft, ?Etf, ?Ett; cbn [negb];
    (split;
     [intros (z & E & Hz); injection E as <-;
      split; [reflexivity|split; [reflexivity|]];
      first [left; split; reflexivity
            | right; split; [reflexivity|];
              first [left; assumption
                    | right; split; [assumption|apply Hneg; exact Hz]]
            | lia]
     |intros (_ & _ & [[Hd1 Hd2]|[Hd [Hp|[Hp Hm]]]]);
      first [discriminate
            | lia
            | eexists; split; [reflexivity|];
              first [lia | apply Hneg; exact Hm]]]).
Qed.

End AclOrder.

(* ===================================================================== *)
(** ** Lookups by name or uuid *)
(* ===================================================================== *)

Section Lookups.

Import Northbound.

Context {library : Library}.

Lemma lswitch_by_name_run id rows : forall found s,
  lswitch_by_name id rows found s =
  match found, filter (fun l => String.eqb (lswitch_name l) id) rows with
  | _, [] => returns found s
  | None, [l] => returns (Some l) s
  | _, _ =>
      stops (fatal ("Multiple logical switches named '" ++ id
                    ++ "'.  Use a UUID.")) s
  end.
Proof.
  induction rows as [|iter rows IH]; intros found s; simpl.
  - now destruct found.
  - rewrite strcmp_eqb.
    destruct (String.eqb (lswitch_name iter) id); cbn [negb].
    + destruct found as [l|]; [reflexivity|].
      rewrite IH.
      now destruct (filter _ rows).
    + apply IH.
Qed.

Lemma lswitch_by_name_or_uuid_run
    (ctx : nb_context) (id : string) (must_exist : bool)
    (s : handler_state) :
  lswitch_by_name_or_uuid ctx id must_exist s =
  match lswitch_for_id ctx id with
  | Some l => returns (Some l) s
  | None =>
      match lswitches_named ctx id with
      | [] =>
          if must_exist
          then stops (fatal (id ++ ": lswitch " ++ id_kind id
                             ++ " not found")) s
          else returns None s
      | [l] => returns (Some l) s
      | _ :: _ :: _ =>
          stops (fatal ("Multiple logical switches named '" ++ id
                        ++ "'.  Use a UUID.")) s
      end
  end.
Proof.
  unfold lswitch_by_name_or_uuid, lswitch_for_id, lswitches_named, id_kind.
  unfold Northbound.bind.
  destruct (match uuid_from_string id with Some _ => _ | None => _ end)
    as [l|]; [reflexivity|].
  rewrite lswitch_by_name_run.
  destruct (filter _ _) as [|l [|l' rest]]; try reflexivity.
  destruct must_exist; reflexivity.
Qed.

(** X8.  How [lswitch_by_name_or_uuid] resolves an identifier.  If the
    identifier reads as a uuid and a switch has that uuid, that switch
    is returned, whatever the names are.  Otherwise the switches are
    searched by name: a single switch of that name is returned; two or
    more end the command with the diagnostic that asks for a uuid; none
    is a null result, or with [must_exist] a diagnostic that names the
    identifier and tells whether it read as a uuid or as a name.  The
    lookup changes nothing. *)
Theorem X8_lswitch_by_name_or_uuid_resolution
    (ctx : nb_context) (id : string) (must_exist : bool)
    (s : handler_state) :
  lswitch_by_name_or_uuid ctx id must_exist s =
  match lswitch_for_id ctx id with
  | Some l => returns (Some l) s
  | None =>
      match lswitches_named ctx id with
      | [] =>
          if must_exist
          then stops (fatal (id ++ ": lswitch " ++ id_kind id
                             ++ " not found")) s
          else returns None s
      | [l] => returns (Some l) s
      | _ :: _ :: _ =>
          stops (fatal ("Multiple logical switches named '" ++ id
                        ++ "'.  Use a UUID.")) s
      end
  end.
Proof. apply lswitch_by_name_or_uuid_run. Qed.

Lemma lport_by_name_run id rows :
  lport_by_name id rows
  = hd_error (filter (fun p => String.eqb (lport_name p) id) rows).
Proof.
  induction rows as [|p rows IH]; simpl; [reflexivity|].
  rewrite strcmp_eqb. now destruct (String.eqb (lport_name p) id).
Qed.

Lemma lport_by_name_or_uuid_run
    (ctx : nb_context) (id : string) (must_exist : bool)
    (s : handler_state) :
  lport_by_name_or_uuid ctx id must_exist s =
  match lport_for_id ctx id with
  | Some p => returns (Some p) s
  | None =>
      match lports_named ctx id with
      | p :: _ => returns (Some p) s
      | [] =>
          if must_exist
          then stops (fatal (id ++ ": lport " ++ id_kind id
                             ++ " not found")) s
          else returns None s
      end
  end.
Proof.
  unfold lport_by_name_or_uuid, lport_for_id, lports_named, id_kind.
  destruct (match uuid_from_string id with Some _ => _ | None => _ end)
    as [p|]; [reflexivity|].
  rewrite lport_by_name_run.
  destruct (filter _ _) as [|p rest]; simpl; [|reflexivity].
  destruct must_exist; reflexivity.
Qed.

(** X9.  How [lport_by_name_or_uuid] resolves an identifier: a port
    with that uuid if the identifier reads as one, else the first port of
    the table that has that name.  Unlike the lookup of switches it does
    not complain when several ports share the name.  With no match the
    result is null, or with [must_exist] the diagnostic.  The lookup
    changes nothing. *)
Theorem X9_lport_by_name_or_uuid_first_match
    (ctx : nb_context) (id : string) (must_exist : bool)
    (s : handler_state) :
  lport_by_name_or_uuid ctx id must_exist s =
  match lport_for_id ctx id with
  | Some p => returns (Some p) s
  | None =>
      match lports_named ctx id with
      | p :: _ => returns (Some p) s
      | [] =>
          if must_exist
          then stops (fatal (id ++ ": lport " ++ id_kind id
                             ++ " not found")) s
          else returns None s
      end
  end.
Proof. apply lport_by_name_or_uuid_run. Qed.

(** A lookup with [must_exist] set returns a row or dies with a
    diagnostic; the branch of the null result is never taken. *)
Lemma the_lswitch_run ctx id s :
  (exists l, the_lswitch ctx id s = returns l s
             /\ lswitch_by_name_or_uuid ctx id true s = returns (Some l) s)
  \/ (exists msg, the_lswitch ctx id s = stops (fatal msg) s).
Proof.
  unfold the_lswitch, Northbound.bind.
  rewrite lswitch_by_name_or_uuid_run.
  destruct (lswitch_for_id ctx id) as [l|]; [left; eauto|].
  destruct (lswitches_named ctx id) as [|l [|l' rest]]; eauto.
Qed.

Lemma the_lport_run ctx id s :
  (exists p, the_lport ctx id s = returns p s
             /\ lport_by_name_or_uuid ctx id true s = returns (Some p) s)
  \/ (exists msg, the_lport ctx id s = stops (fatal msg) s).
Proof.
  unfold the_lport, Northbound.bind.
  rewrite lport_by_name_or_uuid_run.
  destruct (lport_for_id ctx id) as [p|]; [left; eauto|].
  destruct (lports_named ctx id) as [|p rest]; eauto.
Qed.

End Lookups.

(* ===================================================================== *)
(** ** [lswitch-add] *)
(* ===================================================================== *)

Section SwitchCommands.

Import Northbound.

Context {library : Library}.

Lemma lswitch_add_existing_run name may_exist rows s :
  lswitch_add_existing name may_exist rows s =
  if existsb (fun l => String.eqb (lswitch_name l) name) rows
  then if may_exist then returns true s
       else stops (fatal (name
                          ++ ": an lswitch with this name already exists")) s
  else returns false s.
Proof.
  induction rows as [|l rows IH]; simpl; [reflexivity|].
  rewrite strcmp_eqb.
  destruct (String.eqb (lswitch_name l) name); simpl; [|exact IH].
  destruct may_exist; reflexivity.
Qed.

Lemma after_calls_two s c1 c2 :
  {| h_output := h_output s; h_stdout := h_stdout s;
     h_calls := (h_calls s ++ [c1]) ++ [c2];
     h_inserted := S (h_inserted s) |}
  = after_calls s [c1; c2] 1.
Proof. unfold after_calls. now rewrite <- app_assoc. Qed.

(** [nbctl_lswitch_add] by cases. *)
Lemma nbctl_lswitch_add_run ctx s :
  nbctl_lswitch_add ctx s =
  let may_exist := has_option ctx "--may-exist" in
  let add_duplicate := has_option ctx "--add-duplicate" in
  if may_exist && add_duplicate
  then stops (fatal "--may-exist and --add-duplicate may not be used together")
             s
  else
    match lswitch_add_name ctx with
    | Some name =>
        if negb add_duplicate && lswitch_exists ctx name
        then if may_exist then returns tt s
             else stops (fatal (name ++ ": an lswitch with this name "
                                ++ "already exists")) s
        else returns tt
               (after_calls s
                  [nbrec_logical_switch_insert (h_inserted s);
                   nbrec_logical_switch_set_name (New (h_inserted s)) name]
                  1)
    | None =>
        if may_exist
        then stops (fatal "--may-exist requires specifying a name") s
        else if add_duplicate
        then stops (fatal "--add-duplicate requires specifying a name") s
        else returns tt
               (after_calls s [nbrec_logical_switch_insert (h_inserted s)] 1)
    end.
Proof.
  unfold nbctl_lswitch_add, lswitch_add_name, lswitch_exists, argc.
  unfold Northbound.bind, arg, Northbound.ret, Northbound.ctl_fatal,
    insert, call.
  cbv zeta.
  destruct (has_option ctx "--may-exist") eqn:Hm;
    destruct (has_option ctx "--add-duplicate") eqn:Hd;
    destruct (nb_argv ctx) as [|a0 [|a1 [|a2 rest]]]; cbn;
    rewrite ?lswitch_add_existing_run;
    try reflexivity;
    try (destruct (existsb _ _); cbn; try reflexivity);
    unfold after_calls; cbn; rewrite <- ?app_assoc; reflexivity.
Qed.

(** X10.  [lswitch-add] keeps the names of switches distinct unless it
    is told not to.  Without [--add-duplicate], when the handler returns
    it has either left everything as it was, [--may-exist] being given
    and a switch of the given name being there already, or it has
    inserted one switch, and then either no name was given or no switch
    of the table has the given name, which is the one it sets on the new
    row. *)
Theorem X10_lswitch_add_keeps_names_distinct
    (ctx : nb_context) (s s' : handler_state) :
  nbctl_lswitch_add ctx s = returns tt s' ->
  has_option ctx "--add-duplicate" = false ->
  (s' = s
   /\ has_option ctx "--may-exist" = true
   /\ exists name, lswitch_add_name ctx = Some name
                   /\ lswitch_exists ctx name = true)
  \/ (lswitch_add_name ctx = None
      /\ s' = after_calls s [nbrec_logical_switch_insert (h_inserted s)] 1)
  \/ (exists name,
        lswitch_add_name ctx = Some name
        /\ Forall (fun l => lswitch_name l <> name)
                  (logical_switches (nb_idl_view ctx))
        /\ s' = after_calls s
                  [nbrec_logical_switch_insert (h_inserted s);
                   nbrec_logical_switch_set_name (New (h_inserted s)) name]
                  1).
Proof.
  intros Hrun Hd. rewrite nbctl_lswitch_add_run in Hrun. cbv zeta in Hrun.
  rewrite Hd, andb_false_r in Hrun. cbn [negb andb] in Hrun.
  destruct (lswitch_add_name ctx) as [name|].
  - destruct (lswitch_exists ctx name) eqn:He.
    + destruct (has_option ctx "--may-exist"); [|discriminate].
      left. injection Hrun as <-. eauto.
    + right. right. exists name. injection Hrun as <-.
      split; [reflexivity|]. split; [|reflexivity].
      unfold lswitch_exists in He. apply Forall_forall. intros l Hin Hn.
      assert (T : existsb (fun l => String.eqb (lswitch_name l) name)
                    (logical_switches (nb_idl_view ctx)) = true).
      { apply existsb_exists. exists l. split; [exact Hin|].
        now apply String.eqb_eq. }
      congruence.
  - destruct (has_option ctx "--may-exist"); [discriminate|].
    right. left. injection Hrun as <-. split; reflexivity.
Qed.

(** X11.  The options of [lswitch-add].  [--may-exist] and
    [--add-duplicate] together end the command, whatever else is given;
    each of them alone ends it when no name is given; without
    [--may-exist] and [--add-duplicate] a name that a switch already has
    ends it; and with [--add-duplicate] a switch is inserted under the
    given name whether or not one has it.  Where the command ends, it has
    changed nothing. *)
Theorem X11_lswitch_add_options (ctx : nb_context) (s : handler_state) :
  let may_exist := has_option ctx "--may-exist" in
  let add_duplicate := has_option ctx "--add-duplicate" in
  let run := nbctl_lswitch_add ctx s in
  (may_exist = true /\ add_duplicate = true ->
   run = stops (fatal "--may-exist and --add-duplicate may not be used together")
               s)
  /\ (may_exist = true /\ add_duplicate = false
      /\ lswitch_add_name ctx = None ->
      run = stops (fatal "--may-exist requires specifying a name") s)
  /\ (may_exist = false /\ add_duplicate = true
      /\ lswitch_add_name ctx = None ->
      run = stops (fatal "--add-duplicate requires specifying a name") s)
  /\ (forall name,
        may_exist = false /\ add_duplicate = false
        /\ lswitch_add_name ctx = Some name
        /\ lswitch_exists ctx name = true ->
        run = stops (fatal (name ++ ": an lswitch with this name "
                            ++ "already exists")) s)
  /\ (forall name,
        may_exist = false /\ add_duplicate = true
        /\ lswitch_add_name ctx = Some name ->
        run = returns tt
                (after_calls s
                   [nbrec_logical_switch_insert (h_inserted s);
                    nbrec_logical_switch_set_name (New (h_inserted s)) name]
                   1)).
Proof.
  intros may_exist add_duplicate run. unfold run.
  rewrite nbctl_lswitch_add_run. cbv zeta.
  fold may_exist. fold add_duplicate.
  split; [intros [-> ->]; reflexivity|].
  split; [intros (-> & -> & ->); reflexivity|].
  split; [intros (-> & -> & ->); reflexivity|].
  split; [intros name (-> & -> & -> & ->); reflexivity|].
  intros name (-> & -> & ->). reflexivity.
Qed.

End SwitchCommands.

(* ===================================================================== *)
(** ** Removing an element from an array of row pointers *)
(* ===================================================================== *)

Section SwapRemove.

Import Northbound.

Variable A : Type.

Lemma firstn_length_app (l1 r : list A) :
  firstn (List.length l1) (l1 ++ r) = l1.
Proof.
  rewrite firstn_app, firstn_all, Nat.sub_diag. cbn [firstn].
  apply app_nil_r.
Qed.

Lemma skipn_length_app (l1 r : list A) (x : A) :
  skipn (S (List.length l1)) (l1 ++ x :: r) = r.
Proof.
  induction l1 as [|a l1 IH]; [reflexivity|]. exact IH.
Qed.

Lemma nth_error_length_app (l1 r : list A) (x : A) :
  nth_error (l1 ++ x :: r) (List.length l1) = Some x.
Proof.
  induction l1 as [|a l1 IH]; [reflexivity|]. exact IH.
Qed.

Lemma swap_remove_last (l1 : list A) (x : A) :
  swap_remove (List.length l1) (l1 ++ [x]) = l1.
Proof.
  unfold swap_remove.
  rewrite length_app. cbn [List.length].
  replace (List.length l1 + 1 - 1) with (List.length l1) by lia.
  rewrite nth_error_length_app, firstn_length_app, skipn_length_app.
  apply firstn_length_app.
Qed.

Lemma swap_remove_inner (l1 l2 : list A) (x y : A) :
  swap_remove (List.length l1) (l1 ++ x :: l2 ++ [y]) = l1 ++ y :: l2.
Proof.
  unfold swap_remove.
  assert (L : List.length (l1 ++ x :: l2 ++ [y]) - 1
              = List.length (l1 ++ x :: l2)).
  { rewrite !length_app. cbn [List.length]. rewrite length_app.
    cbn [List.length]. lia. }
  rewrite L.
  assert (N : nth_error (l1 ++ x :: l2 ++ [y]) (List.length (l1 ++ x :: l2))
              = Some y).
  { replace (l1 ++ x :: l2 ++ [y]) with ((l1 ++ x :: l2) ++ [y])
      by (rewrite <- app_assoc; reflexivity).
    apply nth_error_length_app. }
  rewrite N, firstn_length_app, skipn_length_app.
  replace (l1 ++ y :: l2 ++ [y]) with ((l1 ++ y :: l2) ++ [y])
    by (rewrite <- app_assoc; reflexivity).
  replace (List.length (l1 ++ x :: l2)) with (List.length (l1 ++ y :: l2))
    by (rewrite !length_app; reflexivity).
  apply firstn_length_app.
Qed.

(** Removing the element at a valid index preserves every other element,
    once each; the last element moves into the gap. *)
Lemma swap_remove_permutation (idx : nat) (l : list A) (x : A) :
  nth_error l idx = Some x ->
  Permutation (x :: swap_remove idx l) l
  /\ List.length (swap_remove idx l) = List.length l - 1.
Proof.
  intros H. apply nth_error_split in H.
  destruct H as (l1 & l2 & -> & <-).
  destruct (exists_last (l := x :: l2)) as (l2' & y & E); [discriminate|].
  destruct l2' as [|x' l2']; cbn [app] in E.
  - injection E as Ex El. subst.
    rewrite swap_remove_last. split.
    + apply Permutation_cons_append.
    + rewrite length_app. cbn [List.length]. lia.
  - injection E as Ex El. subst.
    rewrite swap_remove_inner. split.
    + etransitivity; [apply Permutation_middle|].
      apply Permutation_app_head. apply perm_skip.
      apply Permutation_cons_append.
    + rewrite !length_app. cbn [List.length]. rewrite length_app.
      cbn [List.length]. lia.
Qed.

End SwapRemove.

(* ===================================================================== *)
(** ** [lport-del] *)
(* ===================================================================== *)

Section PortRemoval.

Import Northbound.

Context {library : Library}.

Lemma port_index_found lport ports : forall k i,
  port_index lport ports k = Some i ->
  exists p, nth_error ports (i - k) = Some p
            /\ lport_uuid p = lport_uuid lport /\ k <= i.
Proof.
  induction ports as [|p ports IH]; intros k i; simpl; [discriminate|].
  destruct (N.eqb_spec (lport_uuid p) (lport_uuid lport)) as [E|E].
  - intros [= <-]. exists p. rewrite Nat.sub_diag. auto.
  - intros H. destruct (IH _ _ H) as (q & Hq & Hu & Hk).
    exists q. replace (i - k) with (S (i - S k)) by lia.
    repeat split; [exact Hq|exact Hu|lia].
Qed.

Lemma switch_of_port_found lport rows lswitch i :
  switch_of_port lport rows = Some (lswitch, i) ->
  In lswitch rows
  /\ exists p, nth_error (lswitch_ports lswitch) i = Some p
               /\ lport_uuid p = lport_uuid lport.
Proof.
  induction rows as [|l rows IH]; simpl; [discriminate|].
  destruct (port_index lport (lswitch_ports l) 0) as [k|] eqn:E.
  - intros [= <- <-]. split; [now left|].
    destruct (port_index_found _ _ _ E) as (p & Hp & Hu & _).
    rewrite Nat.sub_0_r in Hp. eauto.
  - intros H. destruct (IH H) as [Hin Hp]. split; [now right|exact Hp].
Qed.

Lemma after_calls_three s c1 c2 c3 :
  {| h_output := h_output s; h_stdout := h_stdout s;
     h_calls := ((h_calls s ++ [c1]) ++ [c2]) ++ [c3];
     h_inserted := h_inserted s |}
  = after_calls s [c1; c2; c3] 0.
Proof. unfold after_calls. now rewrite <- !app_assoc. Qed.

(** [nbctl_lport_del] once the lookup has found the port. *)
Lemma nbctl_lport_del_found ctx id found s s' :
  nth_error (nb_argv ctx) 1 = Some id ->
  lport_by_name_or_uuid ctx id (negb (has_option ctx "--if-exists")) s
  = returns (Some found) s ->
  nbctl_lport_del ctx s = returns tt s' ->
  exists lswitch lport rest,
    In lswitch (logical_switches (nb_idl_view ctx))
    /\ In lport (lswitch_ports lswitch)
    /\ lport_uuid lport = lport_uuid found
    /\ Permutation (port_row lport :: rest)
                   (map port_row (lswitch_ports lswitch))
    /\ List.length rest = List.length (lswitch_ports lswitch) - 1
    /\ s' = after_calls s
              [nbrec_logical_switch_verify_ports (Row (lswitch_uuid lswitch));
               nbrec_logical_switch_set_ports (Row (lswitch_uuid lswitch))
                 rest;
               nbrec_logical_port_delete (port_row lport)]
              0.
Proof.
  intros Hid Hfound. unfold nbctl_lport_del, Northbound.bind, arg.
  rewrite Hid, Hfound.
  destruct (switch_of_port found _) as [[lswitch i]|] eqn:Esw;
    [|discriminate].
  destruct (switch_of_port_found _ _ Esw) as (Hin & p & Hp & Hu).
  unfold remove_lport. rewrite Hp.
  unfold Northbound.bind, call. cbn.
  intros [= <-].
  assert (Hrow : nth_error (map port_row (lswitch_ports lswitch)) i
                 = Some (port_row p))
    by (rewrite nth_error_map, Hp; reflexivity).
  destruct (swap_remove_permutation _ _ Hrow) as [Hperm Hlen].
  exists lswitch, p, (swap_remove i (map port_row (lswitch_ports lswitch))).
  split; [exact Hin|].
  split; [eapply nth_error_In; exact Hp|].
  split; [exact Hu|].
  split; [exact Hperm|].
  split; [now rewrite Hlen, length_map|].
  apply after_calls_three.
Qed.

(** X12.  What [lport-del] writes.  When the handler returns it has
    either changed nothing, [--if-exists] being given and the lookup
    having found no port, or it has found the port in a switch of the
    table and made three calls: the check of that switch's ports, the
    assignment of a new array of ports, and the deletion of the port.
    The new array holds every other port of the switch once and is one
    shorter; the ports need not keep their order, because the last one
    moves into the gap. *)
Theorem X12_lport_del_removes_one_port
    (ctx : nb_context) (s s' : handler_state) :
  nbctl_lport_del ctx s = returns tt s' ->
  (s' = s /\ has_option ctx "--if-exists" = true
   /\ exists id, nth_error (nb_argv ctx) 1 = Some id
                 /\ lport_by_name_or_uuid ctx id false s = returns None s)
  \/ (exists id found lswitch lport rest,
        nth_error (nb_argv ctx) 1 = Some id
        /\ lport_by_name_or_uuid ctx id true s = returns (Some found) s
        /\ In lswitch (logical_switches (nb_idl_view ctx))
        /\ In lport (lswitch_ports lswitch)
        /\ lport_uuid lport = lport_uuid found
        /\ Permutation (port_row lport :: rest)
                       (map port_row (lswitch_ports lswitch))
        /\ List.length rest = List.length (lswitch_ports lswitch) - 1
        /\ s' = after_calls s
                  [nbrec_logical_switch_verify_ports
                     (Row (lswitch_uuid lswitch));
                   nbrec_logical_switch_set_ports
                     (Row (lswitch_uuid lswitch)) rest;
                   nbrec_logical_port_delete (port_row lport)]
                  0).
Proof.
  intros Hrun.
  destruct (nth_error (nb_argv ctx) 1) as [id|] eqn:Hid.
  2: { unfold nbctl_lport_del, Northbound.bind, arg in Hrun.
       rewrite Hid in Hrun. discriminate. }
  pose proof (lport_by_name_or_uuid_run ctx id
                (negb (has_option ctx "--if-exists")) s) as Hl.
  pose proof (lport_by_name_or_uuid_run ctx id true s) as Ht.
  pose proof (lport_by_name_or_uuid_run ctx id false s) as Hf.
  destruct (lport_for_id ctx id) as [found|] eqn:Eu.
  - right.
    destruct (@nbctl_lport_del_found ctx id found s s' Hid Hl Hrun)
      as (lswitch & lport & rest & H).
    exists id, found, lswitch, lport, rest. split; [reflexivity|].
    split; [exact Ht|exact H].
  - destruct (lports_named ctx id) as [|found others] eqn:En.
    + left. unfold nbctl_lport_del, Northbound.bind, arg in Hrun.
      rewrite Hid, Hl in Hrun.
      destruct (has_option ctx "--if-exists"); cbn [negb] in Hrun;
        [|discriminate].
      injection Hrun as <-. split; [reflexivity|]. split; [reflexivity|].
      exists id. split; [reflexivity|exact Hf].
    + right.
      destruct (@nbctl_lport_del_found ctx id found s s' Hid Hl Hrun)
        as (lswitch & lport & rest & H).
      exists id, found, lswitch, lport, rest. split; [reflexivity|].
      split; [exact Ht|exact H].
Qed.

End PortRemoval.

(* ===================================================================== *)
(** ** [acl-del] *)
(* ===================================================================== *)

Section AclRemoval.

Import Northbound.

Context {library : Library}.

Lemma matching_acl_run priority m direction acls : forall k,
  match matching_acl priority m direction acls k with
  | Some i =>
      exists acl, nth_error acls (i - k) = Some acl
                  /\ acl_selected priority m direction acl = true
                  /\ k <= i
  | None => Forall (fun acl => acl_selected priority m direction acl = false)
                   acls
  end.
Proof.
  induction acls as [|acl acls IH]; intros k; simpl; [constructor|].
  rewrite !strcmp_eqb.
  destruct ((priority =? acl_priority acl)%Z && String.eqb m (acl_match acl)
            && String.eqb direction (acl_direction acl)) eqn:E.
  - exists acl. rewrite Nat.sub_diag. auto.
  - specialize (IH (S k)).
    destruct (matching_acl priority m direction acls (S k)) as [i|].
    + destruct IH as (a & Ha & Hs & Hk). exists a.
      replace (i - k) with (S (i - S k)) by lia.
      repeat split; [exact Ha|exact Hs|lia].
    + constructor; assumption.
Qed.

Lemma after_calls_two_plain s c1 c2 :
  {| h_output := h_output s; h_stdout := h_stdout s;
     h_calls := (h_calls s ++ [c1]) ++ [c2];
     h_inserted := h_inserted s |}
  = after_calls s [c1; c2] 0.
Proof. unfold after_calls. now rewrite <- app_assoc. Qed.

Lemma after_calls_none s : after_calls s [] 0 = s.
Proof. unfold after_calls. rewrite app_nil_r. now destruct s. Qed.

(** X13.  [acl-del] with a direction, a priority and a match removes at
    most one ACL.  When the handler returns, the switch was found and the
    direction and the priority were accepted; then either no ACL of the
    switch has the three keys and nothing was written, or the handler
    checked the ACLs of the switch and assigned a new array that is one
    shorter and holds every ACL but one that has the three keys, the
    last one having moved into the gap. *)
Theorem X13_acl_del_removes_one_acl
    (ctx : nb_context) (cmd id a2 a3 a4 : string) (s s' : handler_state) :
  nb_argv ctx = [cmd; id; a2; a3; a4] ->
  nbctl_acl_del ctx s = returns tt s' ->
  exists lswitch direction priority,
    the_lswitch ctx id s = returns lswitch s
    /\ parse_direction a2 s = returns direction s
    /\ parse_priority a3 s = returns priority s
    /\ ((s' = s
         /\ Forall (fun acl => acl_selected priority a4 direction acl = false)
                   (lswitch_acls lswitch))
        \/ (exists acl rest,
              In acl (lswitch_acls lswitch)
              /\ acl_selected priority a4 direction acl = true
              /\ Permutation (acl_row acl :: rest)
                             (map acl_row (lswitch_acls lswitch))
              /\ List.length rest = List.length (lswitch_acls lswitch) - 1
              /\ s' = after_calls s
                        [nbrec_logical_switch_verify_acls
                           (Row (lswitch_uuid lswitch));
                         nbrec_logical_switch_set_acls
                           (Row (lswitch_uuid lswitch)) rest]
                        0)).
Proof.
  intros Hargv. unfold nbctl_acl_del, argc.
  erewrite bind_arg by (rewrite Hargv; reflexivity).
  destruct (reads_only_run s (the_lswitch_reads ctx id))
    as [[lswitch El]|[why El]];
    [rewrite (@bind_returns_run _ _ _ _ _ _ _ El)
    |rewrite (@bind_stops_run _ _ _ _ _ _ _ El); discriminate].
  rewrite Hargv. cbn [List.length Nat.eqb negb andb].
  rewrite bind_ret_run.
  erewrite bind_arg by (rewrite Hargv; reflexivity).
  destruct (reads_only_run s (parse_direction_reads a2))
    as [[direction Ed]|[why Ed]];
    [rewrite (@bind_returns_run _ _ _ _ _ _ _ Ed)
    |rewrite (@bind_stops_run _ _ _ _ _ _ _ Ed); discriminate].
  erewrite bind_arg by (rewrite Hargv; reflexivity).
  destruct (reads_only_run s (parse_priority_reads a3))
    as [[priority Ep]|[why Ep]];
    [rewrite (@bind_returns_run _ _ _ _ _ _ _ Ep)
    |rewrite (@bind_stops_run _ _ _ _ _ _ _ Ep); discriminate].
  erewrite bind_arg by (rewrite Hargv; reflexivity).
  intros Hrun. exists lswitch, direction, priority.
  split; [exact El|]. split; [exact Ed|]. split; [exact Ep|].
  pose proof (matching_acl_run priority a4 direction (lswitch_acls lswitch) 0)
    as Hm.
  destruct (matching_acl priority a4 direction (lswitch_acls lswitch) 0)
    as [i|].
  - right. destruct Hm as (acl & Hacl & Hsel & _).
    rewrite Nat.sub_0_r in Hacl.
    unfold Northbound.bind, call in Hrun. cbn in Hrun.
    injection Hrun as <-.
    assert (Hrow : nth_error (map acl_row (lswitch_acls lswitch)) i
                   = Some (acl_row acl))
      by (rewrite nth_error_map, Hacl; reflexivity).
    destruct (swap_remove_permutation _ _ Hrow) as [Hperm Hlen].
    exists acl, (swap_remove i (map acl_row (lswitch_acls lswitch))).
    split; [eapply nth_error_In; exact Hacl|].
    split; [exact Hsel|].
    split; [exact Hperm|].
    split; [now rewrite Hlen, length_map|].
    apply after_calls_two_plain.
  - left. injection Hrun as <-. split; [reflexivity|exact Hm].
Qed.

(** X14.  [acl-del] with fewer keys.  With the switch alone it checks
    the ACLs of the switch and assigns the empty array.  With a
    direction it assigns the ACLs of the other direction, in the order
    they had.  With a direction and one more argument it ends with its
    diagnostic, having written nothing.  In each case the switch must
    have been found, and the direction accepted, first. *)
Theorem X14_acl_del_by_direction
    (ctx : nb_context) (cmd id : string) (s : handler_state)
    (lswitch : nbrec_logical_switch) :
  the_lswitch ctx id s = returns lswitch s ->
  let this := Row (lswitch_uuid lswitch) in
  (nb_argv ctx = [cmd; id] ->
   nbctl_acl_del ctx s
   = returns tt
       (after_calls s [nbrec_logical_switch_verify_acls this;
                       nbrec_logical_switch_set_acls this []] 0))
  /\ (forall a2 direction,
        nb_argv ctx = [cmd; id; a2] ->
        parse_direction a2 s = returns direction s ->
        nbctl_acl_del ctx s
        = returns tt
            (after_calls s
               [nbrec_logical_switch_verify_acls this;
                nbrec_logical_switch_set_acls this
                  (map acl_row
                     (filter (fun acl =>
                                negb (String.eqb direction
                                                 (acl_direction acl)))
                             (lswitch_acls lswitch)))]
               0))
  /\ (forall a2 a3,
        nb_argv ctx = [cmd; id; a2; a3] ->
        nbctl_acl_del ctx s
        = stops (fatal "cannot specify priority without match") s).
Proof.
  intros El this.
  split; [|split].
  - intros Hargv. unfold nbctl_acl_del, argc.
    erewrite bind_arg by (rewrite Hargv; reflexivity).
    rewrite (@bind_returns_run _ _ _ _ _ _ _ El).
    rewrite Hargv. cbn [List.length Nat.eqb negb andb].
    rewrite bind_ret_run.
    unfold Northbound.bind, Northbound.ret, call. cbn.
    f_equal. apply after_calls_two_plain.
  - intros a2 direction Hargv Ed. unfold nbctl_acl_del, argc.
    erewrite bind_arg by (rewrite Hargv; reflexivity).
    rewrite (@bind_returns_run _ _ _ _ _ _ _ El).
    rewrite Hargv. cbn [List.length Nat.eqb negb andb].
    rewrite bind_ret_run.
    erewrite bind_arg by (rewrite Hargv; reflexivity).
    rewrite (@bind_returns_run _ _ _ _ _ _ _ Ed).
    unfold Northbound.bind, Northbound.ret, call. cbn.
    f_equal. rewrite <- after_calls_two_plain. do 5 f_equal.
    apply filter_ext. intros acl. now rewrite strcmp_eqb.
  - intros a2 a3 Hargv. unfold nbctl_acl_del, argc.
    erewrite bind_arg by (rewrite Hargv; reflexivity).
    rewrite (@bind_returns_run _ _ _ _ _ _ _ El).
    rewrite Hargv. reflexivity.
Qed.

End AclRemoval.

(* ===================================================================== *)
(** ** [lport-set-options] and [lport-add] *)
(* ===================================================================== *)

Ltac step_read H lemma :=
  let a := fresh "a" in
  let why := fresh "why" in
  let E := fresh "E" in
  match type of H with
  | Northbound.bind ?m ?f ?s = _ =>
      destruct (@reads_only_run _ m s lemma) as [[a E]|[why E]];
      [rewrite (@bind_returns_run _ _ m f s _ _ E) in H
      |rewrite (@bind_stops_run _ _ m f s _ _ E) in H; discriminate]
  end.

Section PortCommands.

Import Northbound.

Context {library : Library}.

Lemma strsep_run (a : string) :
  match strsep a with
  | (key, Some value) =>
      a = (key ++ "=" ++ value)%string /\ has_equals key = false
      /\ has_equals a = true
  | (key, None) => key = a /\ has_equals a = false
  end.
Proof.
  induction a as [|c a IH]; simpl; [auto|].
  destruct (Ascii.eqb_spec c "="%char) as [->|Hc]; simpl.
  - auto.
  - destruct (strsep a) as [key [value|]].
    + destruct IH as (-> & Hk & Ha). simpl.
      destruct (Ascii.eqb_spec c "="%char); [contradiction|].
      simpl. rewrite Hk. auto.
    + destruct IH as [-> Ha]. auto.
Qed.

Lemma parse_options_run (args : list string) :
  map option_text (parse_options args) = filter has_equals args
  /\ Forall (fun node => has_equals (fst node) = false) (parse_options args).
Proof.
  induction args as [|a args [IH1 IH2]]; simpl; [auto|].
  pose proof (strsep_run a) as Ha.
  destruct (strsep a) as [key [value|]].
  - destruct Ha as (Ea & Hk & Hh). rewrite Hh. cbn [map]. split.
    + rewrite IH1. unfold option_text at 1. cbn [fst snd].
      now rewrite <- Ea.
    + constructor; assumption.
  - destruct Ha as [_ Hh]. rewrite Hh. auto.
Qed.

(** X15.  What [lport-set-options] stores.  Once the port is found the
    handler makes one call, which assigns the options of the port; it
    cannot fail.  Each argument after the port that contains an equals
    sign gives one option, in the order of the arguments: its key is the
    text before the first equals sign, its value the text after it, so
    that key, equals sign and value spell the argument again, which is
    the line that [lport-get-options] prints for the option.  Arguments
    without an equals sign are dropped without a diagnostic. *)
Theorem X15_lport_set_options_round_trip
    (ctx : nb_context) (id : string) (lport : nbrec_logical_port)
    (s : handler_state) :
  nth_error (nb_argv ctx) 1 = Some id ->
  the_lport ctx id s = returns lport s ->
  exists opts,
    nbctl_lport_set_options ctx s
    = returns tt
        (after_calls s
           [nbrec_logical_port_set_options (port_row lport) opts] 0)
    /\ map option_text opts = filter has_equals (skipn 2 (nb_argv ctx))
    /\ Forall (fun node => has_equals (fst node) = false) opts.
Proof.
  intros Hid El. exists (parse_options (skipn 2 (nb_argv ctx))).
  split; [|apply parse_options_run].
  unfold nbctl_lport_set_options.
  erewrite bind_arg by exact Hid.
  rewrite (@bind_returns_run _ _ _ _ _ _ _ El).
  reflexivity.
Qed.

(** X21.  What [lport-add] writes.  When the handler returns, the
    switch was found, and either the port was there already,
    [--may-exist] was given and nothing was written, or no port answers
    to the name and the handler has inserted one port, set its name,
    with the four-argument form set its parent and its tag, a number of
    0..4095 read from the last argument, and assigned to the switch its
    old ports followed by the new one.  The three-argument form sets
    neither parent nor tag. *)
Theorem X21_lport_add_appends_the_port
    (ctx : nb_context) (s s' : handler_state) :
  nbctl_lport_add ctx s = returns tt s' ->
  exists id lswitch name,
    nth_error (nb_argv ctx) 1 = Some id
    /\ the_lswitch ctx id s = returns lswitch s
    /\ nth_error (nb_argv ctx) 2 = Some name
    /\ ((s' = s /\ has_option ctx "--may-exist" = true
         /\ exists lport,
              lport_by_name_or_uuid ctx name false s = returns (Some lport) s)
        \/ (lport_by_name_or_uuid ctx name false s = returns None s
            /\ exists parent_tag,
                 ((argc ctx = 3 /\ parent_tag = [])
                  \/ (exists parent a4 t,
                        argc ctx = 5
                        /\ nth_error (nb_argv ctx) 3 = Some parent
                        /\ nth_error (nb_argv ctx) 4 = Some a4
                        /\ scan_d64 a4 = Some t
                        /\ (0 <= t <= 4095)%Z
                        /\ parent_tag
                           = [nbrec_logical_port_set_parent_name
                                (New (h_inserted s)) (Some parent);
                              nbrec_logical_port_set_tag
                                (New (h_inserted s)) [t]]))
                 /\ s' = after_calls s
                           ([nbrec_logical_port_insert (h_inserted s);
                             nbrec_logical_port_set_name
                               (New (h_inserted s)) name]
                            ++ parent_tag
                            ++ [nbrec_logical_switch_verify_ports
                                  (Row (lswitch_uuid lswitch));
                                nbrec_logical_switch_set_ports
                                  (Row (lswitch_uuid lswitch))
                                  (map port_row (lswitch_ports lswitch)
                                   ++ [New (h_inserted s)])])
                           1)).
Proof.
  intros Hrun. unfold nbctl_lport_add in Hrun.
  destruct (nth_error (nb_argv ctx) 1) as [id|] eqn:H1.
  2: { unfold Northbound.bind at 1, arg in Hrun. rewrite H1 in Hrun.
       discriminate. }
  erewrite bind_arg in Hrun by exact H1.
  step_read Hrun (the_lswitch_reads ctx id). rename a into lswitch.
  exists id, lswitch.
  match type of Hrun with
  | Northbound.bind ?m ?f s = _ =>
      assert (Hm : (exists parent_name tag,
                      m s = returns (parent_name, tag) s
                      /\ ((argc ctx = 3 /\ parent_name = None
                           /\ tag = (-1)%Z)
                          \/ (exists parent a4,
                                argc ctx = 5 /\ parent_name = Some parent
                                /\ nth_error (nb_argv ctx) 3 = Some parent
                                /\ nth_error (nb_argv ctx) 4 = Some a4
                                /\ scan_d64 a4 = Some tag
                                /\ (0 <= tag <= 4095)%Z)))
                   \/ exists why, m s = stops why s)
  end.
  { destruct (Nat.eqb_spec (argc ctx) 3) as [A3|A3].
    - left. exists None, (-1)%Z. split; [reflexivity|]. left. auto.
    - destruct (Nat.eqb_spec (argc ctx) 5) as [A5|A5]; [|right; eexists;
                                                        reflexivity].
      unfold Northbound.bind, arg.
      destruct (nth_error (nb_argv ctx) 3) as [a3|] eqn:H3;
        [|right; eexists; reflexivity].
      destruct (nth_error (nb_argv ctx) 4) as [a4|] eqn:H4;
        [|right; eexists; reflexivity].
      destruct (scan_d64 a4) as [t|] eqn:Hs;
        [|right; eexists; reflexivity].
      destruct (Z.ltb_spec t 0); [right; eexists; reflexivity|].
      destruct (Z.ltb_spec 4095 t); [right; eexists; reflexivity|].
      left. exists (Some a3), t. split; [reflexivity|].
      right. exists a3, a4. repeat split; try assumption; lia. }
  destruct Hm as [(parent_name & tag & Em & Hcases)|[why Em]];
    [rewrite (@bind_returns_run _ _ _ _ _ _ _ Em) in Hrun
    |rewrite (@bind_stops_run _ _ _ _ _ _ _ Em) in Hrun; discriminate].
  cbn [fst snd] in Hrun.
  destruct (nth_error (nb_argv ctx) 2) as [name|] eqn:H2.
  2: { unfold Northbound.bind at 1, arg in Hrun. rewrite H2 in Hrun.
       discriminate. }
  erewrite bind_arg in Hrun by exact H2.
  exists name. split; [reflexivity|]. split; [exact E|].
  split; [reflexivity|].
  step_read Hrun (lport_by_name_or_uuid_reads ctx name false).
  destruct a as [lport|].
  - left.
    destruct (has_option ctx "--may-exist") eqn:Hmay; cbn [negb] in Hrun;
      [|discriminate].
    rewrite bind_ret_run in Hrun.
    step_read Hrun (lport_to_lswitch_reads (nb_idl_view ctx) lport).
    destruct (negb _); [discriminate|]. rewrite bind_ret_run in Hrun.
    split; [|split; [reflexivity|exists lport; exact E0]].
    destruct parent_name as [parent|].
    + destruct (lport_parent_name lport) as [existing|]; [|discriminate].
      destruct (negb _); [discriminate|]. rewrite bind_ret_run in Hrun.
      destruct (lport_tag lport) as [|t ts]; [discriminate|].
      destruct (negb _); [discriminate|]. now injection Hrun as <-.
    + destruct (lport_parent_name lport); [discriminate|].
      now injection Hrun as <-.
  - right. split; [exact E0|].
    unfold Northbound.bind, insert, call, Northbound.ret in Hrun.
    cbn in Hrun.
    destruct Hcases as [(A3 & -> & ->)|(parent & a4 & A5 & -> & H3 & H4
                                         & Hs & Ht)].
    + exists []. split; [left; auto|].
      cbn in Hrun. injection Hrun as <-.
      unfold after_calls. cbn. now rewrite <- !app_assoc.
    + exists [nbrec_logical_port_set_parent_name (New (h_inserted s))
                (Some parent);
              nbrec_logical_port_set_tag (New (h_inserted s)) [tag]].
      split.
      * right. exists parent, a4, tag. repeat split; try assumption; lia.
      * destruct (Z.leb_spec 0 tag); [|lia].
        cbn in Hrun. injection Hrun as <-.
        unfold after_calls. cbn. now rewrite <- !app_assoc.
Qed.

End PortCommands.

(* ===================================================================== *)
(** ** Contracts of the handlers, piece by piece *)
(* ===================================================================== *)

Section ContractFacts.

Import Northbound.

Context {library : Library}.

(** *** Handlers that always return *)

Lemma never_stops_bind {A B} (m : handler A) (f : A -> handler B) :
  never_stops m -> (forall a, never_stops (f a)) ->
  never_stops (Northbound.bind m f).
Proof.
  intros Hm Hf s. destruct (Hm s) as (a & s1 & E).
  unfold Northbound.bind. rewrite E. apply Hf.
Qed.

Lemma never_stops_for_each {A} (rows : list A) (body : A -> handler unit) :
  (forall r, never_stops (body r)) -> never_stops (for_each rows body).
Proof.
  intros H. induction rows as [|r rows IH]; simpl.
  - intros s. do 2 eexists. reflexivity.
  - apply never_stops_bind; [apply H|intros _; exact IH].
Qed.

(** *** Handlers that stop before they write *)

Lemma stops_clean_of_reads {A} (m : handler A) :
  reads_only m -> stops_clean m.
Proof.
  intros H s why s' E. specialize (H s). rewrite E in H. exact H.
Qed.

Lemma stops_clean_of_never {A} (m : handler A) :
  never_stops m -> stops_clean m.
Proof.
  intros H s why s' E. destruct (H s) as (a & s1 & E1). congruence.
Qed.

Lemma stops_clean_bind {A B} (m : handler A) (f : A -> handler B) :
  reads_only m -> (forall a, stops_clean (f a)) ->
  stops_clean (Northbound.bind m f).
Proof.
  intros Hm Hf s why s'.
  destruct (reads_only_run s Hm) as [[a E]|[w E]].
  - rewrite (@bind_returns_run _ _ _ _ _ _ _ E). apply Hf.
  - rewrite (@bind_stops_run _ _ _ _ _ _ _ E). congruence.
Qed.

(** *** Handlers that stop with a diagnostic only *)

Lemma stops_diagnosed_bind_post {A B} (Q : A -> Prop) (m : handler A)
    (f : A -> handler B) :
  (forall s a s1, m s = returns a s1 -> Q a) ->
  stops_diagnosed m -> (forall a, Q a -> stops_diagnosed (f a)) ->
  stops_diagnosed (Northbound.bind m f).
Proof.
  intros HQ Hm Hf s why s'. unfold Northbound.bind.
  destruct (m s) as [a s1|w s1] eqn:E.
  - apply (Hf a (HQ _ _ _ E)).
  - intros [= <- <-]. eapply Hm. exact E.
Qed.

Lemma stops_diagnosed_bind {A B} (m : handler A) (f : A -> handler B) :
  stops_diagnosed m -> (forall a, stops_diagnosed (f a)) ->
  stops_diagnosed (Northbound.bind m f).
Proof.
  intros Hm Hf.
  apply (stops_diagnosed_bind_post (fun _ => True)); auto.
Qed.

Lemma stops_diagnosed_of_never {A} (m : handler A) :
  never_stops m -> stops_diagnosed m.
Proof.
  intros H s why s' E. destruct (H s) as (a & s1 & E1). congruence.
Qed.

Lemma stops_diagnosed_ctl_fatal {A} msg :
  stops_diagnosed (@Northbound.ctl_fatal A msg).
Proof. intros s why s' [= <- <-]. eauto. Qed.

Lemma stops_diagnosed_arg ctx i :
  i < argc ctx -> stops_diagnosed (arg ctx i).
Proof.
  intros Hi s why s'. unfold arg.
  destruct (nth_error (nb_argv ctx) i) eqn:E; [discriminate|].
  apply nth_error_None in E. unfold argc in Hi. lia.
Qed.

Lemma stops_diagnosed_for_each {A} (rows : list A)
    (body : A -> handler unit) :
  (forall r, stops_diagnosed (body r)) ->
  stops_diagnosed (for_each rows body).
Proof.
  intros H. induction rows as [|r rows IH]; simpl.
  - apply stops_diagnosed_of_never. intros s. do 2 eexists. reflexivity.
  - apply stops_diagnosed_bind; [apply H|intros _; exact IH].
Qed.

Lemma lswitch_by_name_or_uuid_diagnosed ctx id must_exist :
  stops_diagnosed (lswitch_by_name_or_uuid ctx id must_exist).
Proof.
  intros s why s'. rewrite lswitch_by_name_or_uuid_run.
  destruct (lswitch_for_id ctx id); [discriminate|].
  destruct (lswitches_named ctx id) as [|l [|l' rest]];
    try destruct must_exist; try discriminate; intros [= <- <-]; eauto.
Qed.

Lemma lport_by_name_or_uuid_diagnosed ctx id must_exist :
  stops_diagnosed (lport_by_name_or_uuid ctx id must_exist).
Proof.
  intros s why s'. rewrite lport_by_name_or_uuid_run.
  destruct (lport_for_id ctx id); [discriminate|].
  destruct (lports_named ctx id) as [|p rest];
    try destruct must_exist; try discriminate; intros [= <- <-]; eauto.
Qed.

Lemma the_lswitch_diagnosed ctx id : stops_diagnosed (the_lswitch ctx id).
Proof.
  intros s why s' E.
  destruct (the_lswitch_run ctx id s) as [(l & E1 & _)|[msg E1]];
    rewrite E1 in E; [discriminate|].
  injection E as <- <-. eauto.
Qed.

Lemma the_lport_diagnosed ctx id : stops_diagnosed (the_lport ctx id).
Proof.
  intros s why s' E.
  destruct (the_lport_run ctx id s) as [(l & E1 & _)|[msg E1]];
    rewrite E1 in E; [discriminate|].
  injection E as <- <-. eauto.
Qed.

(** A switch that the lookup returns is a row of the table. *)
Lemma lswitch_by_name_or_uuid_in ctx id must_exist s l s' :
  lswitch_by_name_or_uuid ctx id must_exist s = returns (Some l) s' ->
  In l (logical_switches (nb_idl_view ctx)).
Proof.
  rewrite lswitch_by_name_or_uuid_run.
  unfold lswitch_for_id, nbrec_logical_switch_get_for_uuid.
  assert (Hnamed : forall x, In x (lswitches_named ctx id) ->
                             In x (logical_switches (nb_idl_view ctx))).
  { intros x H. unfold lswitches_named in H. apply filter_In in H. tauto. }
  destruct (match uuid_from_string id with Some _ => _ | None => _ end)
    as [l1|] eqn:F.
  - intros [= <- _]. destruct (uuid_from_string id); [|discriminate].
    apply find_some in F. tauto.
  - destruct (lswitches_named ctx id) as [|l1 [|l2 rest]];
      try destruct must_exist; try discriminate.
    all: intros [= <- _]; apply Hnamed; now left.
Qed.

Lemma the_lswitch_in ctx id s l s' :
  the_lswitch ctx id s = returns l s' ->
  In l (logical_switches (nb_idl_view ctx)).
Proof.
  unfold the_lswitch, Northbound.bind.
  destruct (lswitch_by_name_or_uuid ctx id true s) as [[l1|] s1|] eqn:E;
    try discriminate.
  intros [= <- _]. eapply lswitch_by_name_or_uuid_in. exact E.
Qed.

Lemma lport_to_lswitch_diagnosed idl lport :
  stops_diagnosed (lport_to_lswitch idl lport).
Proof.
  unfold lport_to_lswitch.
  destruct (switch_of_port _ _) as [[l i]|];
    [intros s why s'; discriminate|apply stops_diagnosed_ctl_fatal].
Qed.

Lemma parse_direction_diagnosed a : stops_diagnosed (parse_direction a).
Proof.
  unfold parse_direction.
  repeat destruct (Ascii.eqb _ _);
    first [apply stops_diagnosed_ctl_fatal|intros s why s'; discriminate].
Qed.

Lemma parse_priority_diagnosed a : stops_diagnosed (parse_priority a).
Proof.
  unfold parse_priority.
  destruct (scan_d64 a); [|apply stops_diagnosed_ctl_fatal].
  destruct (_ || _);
    [apply stops_diagnosed_ctl_fatal|intros s why s'; discriminate].
Qed.

Lemma lswitch_add_existing_diagnosed name may_exist rows :
  stops_diagnosed (lswitch_add_existing name may_exist rows).
Proof.
  intros s why s'. rewrite lswitch_add_existing_run.
  destruct (existsb _ _); [|discriminate].
  destruct may_exist; [discriminate|]. intros [= <- <-]. eauto.
Qed.

Lemma check_addresses_diagnosed addrs :
  stops_diagnosed (check_addresses addrs).
Proof.
  induction addrs as [|a addrs IH]; simpl;
    [intros s why s'; discriminate|].
  destruct (_ && _); [apply stops_diagnosed_ctl_fatal|exact IH].
Qed.

Lemma remove_lport_never_stops lswitch idx :
  idx < List.length (lswitch_ports lswitch) ->
  never_stops (remove_lport lswitch idx).
Proof.
  intros H. unfold remove_lport.
  destruct (nth_error (lswitch_ports lswitch) idx) eqn:E.
  - intros s. do 2 eexists. reflexivity.
  - apply nth_error_None in E. lia.
Qed.

Lemma switch_of_port_index lport rows lswitch i :
  switch_of_port lport rows = Some (lswitch, i) ->
  i < List.length (lswitch_ports lswitch).
Proof.
  intros H. destruct (switch_of_port_found _ _ H) as (_ & p & Hp & _).
  apply nth_error_Some. congruence.
Qed.

(** *** What the handlers return *)

Lemma parse_priority_returns a s p s' :
  parse_priority a s = returns p s' -> (0 <= p <= 32767)%Z.
Proof.
  unfold parse_priority. destruct (scan_d64 a) as [z|]; [|discriminate].
  destruct (Z.ltb_spec z 0); [discriminate|].
  destruct (Z.ltb_spec 32767 z); [discriminate|].
  intros [= <- _]. lia.
Qed.

Lemma parse_direction_returns a s d s' :
  parse_direction a s = returns d s' ->
  d = "from-lport" \/ d = "to-lport".
Proof.
  unfold parse_direction.
  destruct (Ascii.eqb _ _); [intros [= <- _]; now right|].
  destruct (Ascii.eqb _ _); [intros [= <- _]; now left|discriminate].
Qed.

Lemma check_addresses_returns addrs s s' :
  check_addresses addrs s = returns tt s' ->
  Forall (fun a => a = "unknown" \/ scan_eth_addr a = true) addrs.
Proof.
  induction addrs as [|a addrs IH]; simpl; [constructor|].
  rewrite strcmp_eqb.
  destruct (String.eqb_spec a "unknown") as [->|Hn]; cbn [negb andb].
  - intros H. constructor; [now left|apply IH; exact H].
  - destruct (scan_eth_addr a) eqn:Es; cbn [negb]; [|discriminate].
    intros H. constructor; [now right|apply IH; exact H].
Qed.

End ContractFacts.

Section MoreContractFacts.

Import Northbound.

Context {library : Library}.

Lemma preserves_bind_fatal {A B X} (part : handler_state -> X) msg
    (f : A -> handler B) :
  preserves part (Northbound.bind (Northbound.ctl_fatal msg) f).
Proof. intros s. reflexivity. Qed.

Lemma stops_diagnosed_bind_fatal {A B} msg (f : A -> handler B) :
  stops_diagnosed (Northbound.bind (Northbound.ctl_fatal msg) f).
Proof. intros s why s' [= <- <-]. eauto. Qed.

Lemma stops_diagnosed_ret {A} (a : A) : stops_diagnosed (Northbound.ret a).
Proof. intros s why s'. discriminate. Qed.

Lemma arg_ret ctx i a :
  nth_error (nb_argv ctx) i = Some a -> arg ctx i = Northbound.ret a.
Proof. intros E. unfold arg. rewrite E. reflexivity. Qed.

Lemma arg_stops ctx i :
  nth_error (nb_argv ctx) i = None ->
  arg ctx i = fun s => stops (past_argv i) s.
Proof. intros E. unfold arg. rewrite E. reflexivity. Qed.

Lemma preserves_bind_stops {A B X} (part : handler_state -> X) why
    (f : A -> handler B) :
  preserves part (Northbound.bind (fun s => stops why s) f).
Proof. intros s. reflexivity. Qed.

Lemma calls_satisfy_keeps {A} ok (m : handler A) :
  keeps_calls m -> calls_satisfy ok m.
Proof.
  intros H s. exists []. pose proof (H s) as E. cbv beta in E.
  injection E as H1 H2. rewrite H1, app_nil_r. auto.
Qed.

Lemma calls_satisfy_call ok c : ok c -> calls_satisfy ok (call c).
Proof. intros H s. exists [c]. simpl. auto. Qed.

Lemma calls_satisfy_insert ok c :
  (forall k, ok (c k)) -> calls_satisfy ok (insert c).
Proof. intros H s. exists [c (h_inserted s)]. simpl. auto. Qed.

Lemma calls_satisfy_bind_post {A B} (Q : A -> Prop) ok (m : handler A)
    (f : A -> handler B) :
  (forall s a s1, m s = returns a s1 -> Q a) ->
  calls_satisfy ok m -> (forall a, Q a -> calls_satisfy ok (f a)) ->
  calls_satisfy ok (Northbound.bind m f).
Proof.
  intros HQ Hm Hf s. unfold Northbound.bind.
  destruct (Hm s) as (cs & E & Hcs).
  destruct (m s) as [a s1|why s1] eqn:Em; simpl in E.
  - destruct (Hf a (HQ _ _ _ Em) s1) as (cs' & E' & Hcs').
    exists (cs ++ cs'). rewrite E', E, app_assoc. split; [reflexivity|].
    apply Forall_app. auto.
  - exists cs. auto.
Qed.

Lemma calls_satisfy_bind {A B} ok (m : handler A) (f : A -> handler B) :
  calls_satisfy ok m -> (forall a, calls_satisfy ok (f a)) ->
  calls_satisfy ok (Northbound.bind m f).
Proof.
  intros Hm Hf. apply (calls_satisfy_bind_post (fun _ => True)); auto.
Qed.

End MoreContractFacts.

Ltac preserves_step :=
  match goal with
  | |- preserves _ (Northbound.bind (Northbound.ctl_fatal _) _) =>
      apply preserves_bind_fatal
  | |- preserves _ (Northbound.bind _ _) => apply preserves_bind; [|intro]
  | |- preserves _ (Northbound.ret _) => apply preserves_ret
  | |- preserves _ (Northbound.ctl_fatal _) => apply preserves_ctl_fatal
  | |- preserves _ Northbound.OVS_NOT_REACHED => apply preserves_not_reached
  | |- preserves _ (Northbound.arg _ _) => apply preserves_arg
  | |- preserves _ (Northbound.the_lswitch _ _) =>
      apply preserves_of_reads_only; apply the_lswitch_reads
  | |- preserves _ (Northbound.the_lport _ _) =>
      apply preserves_of_reads_only; apply the_lport_reads
  | |- preserves _ (Northbound.lswitch_by_name_or_uuid _ _ _) =>
      apply preserves_of_reads_only; apply lswitch_by_name_or_uuid_reads
  | |- preserves _ (Northbound.lport_by_name_or_uuid _ _ _) =>
      apply preserves_of_reads_only; apply lport_by_name_or_uuid_reads
  | |- preserves _ (Northbound.lport_to_lswitch _ _) =>
      apply preserves_of_reads_only; apply lport_to_lswitch_reads
  | |- preserves _ (Northbound.parse_direction _) =>
      apply preserves_of_reads_only; apply parse_direction_reads
  | |- preserves _ (Northbound.parse_priority _) =>
      apply preserves_of_reads_only; apply parse_priority_reads
  | |- preserves _ (Northbound.lswitch_add_existing _ _ _) =>
      apply preserves_of_reads_only; apply lswitch_add_existing_reads
  | |- preserves _ (Northbound.check_addresses _) =>
      apply preserves_of_reads_only; apply check_addresses_reads
  | |- preserves _ (Northbound.for_each _ _) => apply preserves_for_each; intro
  | |- preserves _ (Northbound.put_values _) => unfold Northbound.put_values
  | |- preserves _ (Northbound.put_lines _) => unfold Northbound.put_lines
  | |- preserves _ (Northbound.remove_lport _ _) =>
      unfold Northbound.remove_lport
  | |- preserves _ (match ?x with _ => _ end) => destruct x
  | |- preserves _ _ => solve [intros ?; reflexivity]
  end.

Ltac never_step :=
  match goal with
  | |- never_stops (Northbound.bind _ _) =>
      apply never_stops_bind; [|intro]
  | |- never_stops (Northbound.for_each _ _) =>
      apply never_stops_for_each; intro
  | |- never_stops (Northbound.put_values _) => unfold Northbound.put_values
  | |- never_stops (Northbound.put_lines _) => unfold Northbound.put_lines
  | H : Northbound.switch_of_port _ _ = Some (?l, ?i)
    |- never_stops (Northbound.remove_lport ?l ?i) =>
      apply remove_lport_never_stops;
      eapply switch_of_port_index; exact H
  | |- never_stops (match ?x with _ => _ end) => destruct x
  | |- never_stops _ => solve [intros ?; do 2 eexists; reflexivity]
  end.

Ltac clean_step :=
  match goal with
  | |- stops_clean (match ?x with _ => _ end) => destruct x eqn:?
  | |- stops_clean _ =>
      first
        [ solve [apply stops_clean_of_reads; unfold reads_only;
                 repeat preserves_step]
        | solve [apply stops_clean_of_never; repeat never_step]
        | apply stops_clean_bind;
          [solve [unfold reads_only; repeat preserves_step]|intro] ]
  end.


Ltac diag_step :=
  match goal with
  | |- stops_diagnosed (Northbound.bind (Northbound.ctl_fatal _) _) =>
      apply stops_diagnosed_bind_fatal
  | |- stops_diagnosed (Northbound.bind _ _) =>
      apply stops_diagnosed_bind; [|intro]
  | |- stops_diagnosed (Northbound.ret _) => apply stops_diagnosed_ret
  | |- stops_diagnosed (Northbound.ctl_fatal _) =>
      apply stops_diagnosed_ctl_fatal
  | |- stops_diagnosed (Northbound.arg _ _) =>
      apply stops_diagnosed_arg; lia
  | |- stops_diagnosed (Northbound.the_lswitch _ _) =>
      apply the_lswitch_diagnosed
  | |- stops_diagnosed (Northbound.the_lport _ _) =>
      apply the_lport_diagnosed
  | |- stops_diagnosed (Northbound.lswitch_by_name_or_uuid _ _ _) =>
      apply lswitch_by_name_or_uuid_diagnosed
  | |- stops_diagnosed (Northbound.lport_by_name_or_uuid _ _ _) =>
      apply lport_by_name_or_uuid_diagnosed
  | |- stops_diagnosed (Northbound.lport_to_lswitch _ _) =>
      apply lport_to_lswitch_diagnosed
  | |- stops_diagnosed (Northbound.parse_direction _) =>
      apply parse_direction_diagnosed
  | |- stops_diagnosed (Northbound.parse_priority _) =>
      apply parse_priority_diagnosed
  | |- stops_diagnosed (Northbound.lswitch_add_existing _ _ _) =>
      apply lswitch_add_existing_diagnosed
  | |- stops_diagnosed (Northbound.check_addresses _) =>
      apply check_addresses_diagnosed
  | |- stops_diagnosed (match ?x with _ => _ end) => destruct x eqn:?
  | |- stops_diagnosed _ =>
      solve [apply stops_diagnosed_of_never; repeat never_step]
  end.

Ltac calls_step :=
  match goal with
  | |- calls_satisfy _ (Northbound.bind (Northbound.parse_priority _) _) =>
      apply (calls_satisfy_bind_post (fun p => (0 <= p <= 32767)%Z));
      [intros ? ? ?; apply parse_priority_returns
      |apply calls_satisfy_keeps; unfold keeps_calls; repeat preserves_step
      |intros ? ?]
  | |- calls_satisfy _ (Northbound.bind (Northbound.parse_direction _) _) =>
      apply (calls_satisfy_bind_post
               (fun d => d = "from-lport"%string \/ d = "to-lport"%string));
      [intros ? ? ?; apply parse_direction_returns
      |apply calls_satisfy_keeps; unfold keeps_calls; repeat preserves_step
      |intros ? ?]
  | |- calls_satisfy _
         (Northbound.bind (Northbound.check_addresses ?l) _) =>
      apply (calls_satisfy_bind_post
               (fun _ : unit =>
                  Forall (fun a => a = "unknown"%string
                                   \/ Northbound.scan_eth_addr a = true) l));
      [intros ? [] ?; apply check_addresses_returns
      |apply calls_satisfy_keeps; unfold keeps_calls; repeat preserves_step
      |intros ? ?]
  | |- calls_satisfy _ (Northbound.bind _ _) =>
      apply calls_satisfy_bind; [|intro]
  | |- calls_satisfy _ (Northbound.call _) =>
      apply calls_satisfy_call; cbn [valid_call];
      first [exact I | assumption | lia | eexists; reflexivity]
  | |- calls_satisfy _ (Northbound.insert _) =>
      apply calls_satisfy_insert; intro; exact I
  | |- calls_satisfy _ (Northbound.remove_lport _ _) =>
      unfold Northbound.remove_lport
  | |- calls_satisfy _ (match ?x with _ => _ end) => destruct x eqn:?
  | |- calls_satisfy _ _ =>
      solve [apply calls_satisfy_keeps; unfold keeps_calls;
             repeat preserves_step]
  end.

Ltac split_argc ctx :=
  repeat match goal with
         | |- context [(Northbound.argc ctx =? ?k)%nat] =>
             destruct (Nat.eqb_spec (Northbound.argc ctx) k)
         end;
  cbn [negb andb].

(** The handlers by name, and the cases of the table. *)
Ltac unfold_handlers :=
  cbv delta [Northbound.nbctl_show Northbound.nbctl_lswitch_add
             Northbound.nbctl_lswitch_del Northbound.nbctl_lswitch_list
             Northbound.nbctl_acl_add Northbound.nbctl_acl_del
             Northbound.nbctl_acl_list Northbound.nbctl_lport_add
             Northbound.nbctl_lport_del Northbound.nbctl_lport_list
             Northbound.nbctl_lport_get_parent
             Northbound.nbctl_lport_get_tag
             Northbound.nbctl_lport_set_addresses
             Northbound.nbctl_lport_get_addresses
             Northbound.nbctl_lport_set_port_security
             Northbound.nbctl_lport_get_port_security
             Northbound.nbctl_lport_get_up
             Northbound.nbctl_lport_set_enabled
             Northbound.nbctl_lport_get_enabled
             Northbound.nbctl_lport_set_type
             Northbound.nbctl_lport_get_type
             Northbound.nbctl_lport_set_options
             Northbound.nbctl_lport_get_options]; cbv beta zeta.

Ltac table_cases Hin :=
  unfold Northbound.nbctl_commands in Hin; cbn [In] in Hin;
  repeat (destruct Hin as [<-|Hin]); [..|contradiction].

Section TableFacts.

Import Northbound.

Context {library : Library}.

Lemma read_only_commands_keep_calls c h ctx :
  In c nbctl_commands -> nb_mode_of c = RO -> nb_run c = Some h ->
  keeps_calls (h ctx).
Proof.
  intros Hin Hmode Hrun. table_cases Hin;
    cbn in Hmode; try discriminate Hmode;
    cbn in Hrun; injection Hrun as <-;
    unfold keeps_calls; unfold_handlers; repeat preserves_step.
Qed.

Lemma commands_keep_stdout c h ctx :
  In c nbctl_commands -> nb_run c = Some h ->
  String.eqb (nb_name c) "acl-list" = false ->
  keeps_stdout (h ctx).
Proof.
  intros Hin Hrun Hname. table_cases Hin;
    cbn in Hname; try discriminate Hname;
    cbn in Hrun; injection Hrun as <-;
    unfold keeps_stdout; unfold_handlers; repeat preserves_step.
Qed.

Lemma nbctl_acl_add_stops_clean ctx : stops_clean (nbctl_acl_add ctx).
Proof.
  destruct (nth_error (nb_argv ctx) 5) as [a5|] eqn:E5.
  - assert (E4 : exists a4, nth_error (nb_argv ctx) 4 = Some a4).
    { destruct (nth_error (nb_argv ctx) 4) eqn:E; [eauto|].
      apply nth_error_None in E.
      assert (nth_error (nb_argv ctx) 5 <> None) by congruence.
      apply nth_error_Some in H. lia. }
    destruct E4 as [a4 E4].
    unfold nbctl_acl_add. rewrite (arg_ret _ _ E4).
    repeat clean_step.
  - unfold nbctl_acl_add. rewrite (arg_stops _ _ E5).
    apply stops_clean_of_reads. apply preserves_bind_stops.
Qed.

Lemma commands_stop_clean c h ctx :
  In c nbctl_commands -> nb_run c = Some h -> stops_clean (h ctx).
Proof.
  intros Hin Hrun. table_cases Hin; cbn in Hrun; injection Hrun as <-;
    try apply nbctl_acl_add_stops_clean;
    unfold_handlers; repeat clean_step.
Qed.

Lemma nbctl_acl_list_diagnosed ctx :
  1 < argc ctx -> directions_known ctx ->
  stops_diagnosed (nbctl_acl_list ctx).
Proof.
  intros Hargc Hdirs. unfold nbctl_acl_list.
  apply stops_diagnosed_bind; [diag_step|intros id].
  apply (stops_diagnosed_bind_post
           (fun l => In l (logical_switches (nb_idl_view ctx)))).
  - intros s l s1. apply the_lswitch_in.
  - apply the_lswitch_diagnosed.
  - intros l Hin. cbv zeta.
    assert (Hk : existsb
                   (fun acl => match dir_encode (acl_direction acl) with
                               | Some _ => false
                               | None => true
                               end) (lswitch_acls l) = false).
    { unfold directions_known in Hdirs.
      rewrite Forall_forall in Hdirs. specialize (Hdirs l Hin).
      induction Hdirs as [|acl acls Hacl _ IH]; [reflexivity|].
      simpl. unfold known_direction in Hacl.
      destruct (dir_encode (acl_direction acl)); [exact IH|discriminate]. }
    rewrite Hk, andb_false_r.
    apply stops_diagnosed_of_never. repeat never_step.
Qed.

Lemma commands_stop_diagnosed c h ctx :
  In c nbctl_commands -> nb_run c = Some h ->
  arity_allowed c ctx -> directions_known ctx ->
  String.eqb (nb_name c) "lport-set-port-security" = false ->
  stops_diagnosed (h ctx).
Proof.
  intros Hin Hrun Harity Hdirs Hname. unfold arity_allowed in Harity.
  table_cases Hin; cbn in Hname; try discriminate Hname;
    cbn in Hrun; injection Hrun as <-;
    cbn [nb_min_args nb_max_args command] in Harity;
    unfold INT_MAX in Harity;
    try (apply nbctl_acl_list_diagnosed; [lia|exact Hdirs]);
    unfold_handlers; split_argc ctx; try lia; repeat diag_step.
Qed.

Lemma nbctl_acl_add_calls ctx : calls_satisfy valid_call (nbctl_acl_add ctx).
Proof.
  unfold nbctl_acl_add.
  apply calls_satisfy_bind; [calls_step|intros action].
  apply calls_satisfy_bind; [calls_step|intros id].
  apply calls_satisfy_bind; [calls_step|intros lswitch].
  apply calls_satisfy_bind; [calls_step|intros a2].
  calls_step.
  apply calls_satisfy_bind; [calls_step|intros a3].
  calls_step.
  match goal with
  | |- calls_satisfy _ (if ?c then _ else _) => destruct c eqn:C
  end.
  - apply calls_satisfy_keeps; unfold keeps_calls; repeat preserves_step.
  - assert (Hact : In action ["allow"; "allow-related"; "drop";
                              "reject"]%string).
    { rewrite !strcmp_eqb in C.
      destruct (String.eqb_spec action "allow"); [simpl; auto|].
      destruct (String.eqb_spec action "allow-related"); [simpl; auto|].
      destruct (String.eqb_spec action "drop"); [simpl; auto|].
      destruct (String.eqb_spec action "reject"); [simpl; auto|].
      discriminate C. }
    repeat calls_step.
Qed.

Lemma nbctl_lport_add_calls ctx :
  calls_satisfy valid_call (nbctl_lport_add ctx).
Proof.
  unfold nbctl_lport_add. cbv zeta.
  apply calls_satisfy_bind; [calls_step|intros id].
  apply calls_satisfy_bind; [calls_step|intros lswitch].
  apply (calls_satisfy_bind_post
           (fun pt : option string * Z =>
              snd pt = (-1)%Z \/ (0 <= snd pt <= 4095)%Z)).
  - intros s pt s1. split_argc ctx.
    + intros [= <- _]. now left.
    + unfold Northbound.bind, arg.
      destruct (nth_error (nb_argv ctx) 3); [|discriminate].
      destruct (nth_error (nb_argv ctx) 4) as [a4|]; [|discriminate].
      destruct (scan_d64 a4) as [t|]; [|discriminate].
      destruct (Z.ltb_spec t 0); [discriminate|].
      destruct (Z.ltb_spec 4095 t); [discriminate|].
      intros [= <- _]. right. simpl. lia.
    + discriminate.
  - apply calls_satisfy_keeps; unfold keeps_calls; repeat preserves_step.
  - intros [parent_name tag] Hpt. cbn [fst snd] in *.
    apply calls_satisfy_bind; [calls_step|intros lport_name].
    apply calls_satisfy_bind; [calls_step|intros [lport|]].
    + apply calls_satisfy_keeps; unfold keeps_calls; repeat preserves_step.
    + apply calls_satisfy_bind; [calls_step|intros lport].
      apply calls_satisfy_bind; [calls_step|intros _].
      apply calls_satisfy_bind; [|intros _; repeat calls_step].
      destruct (Z.leb_spec 0 tag); [|calls_step].
      apply calls_satisfy_bind; [calls_step|intros _].
      apply calls_satisfy_call. cbn [valid_call].
      exists tag. split; [reflexivity|lia].
Qed.

Lemma commands_make_valid_calls c h ctx :
  In c nbctl_commands -> nb_run c = Some h ->
  calls_satisfy valid_call (h ctx).
Proof.
  intros Hin Hrun. table_cases Hin; cbn in Hrun; injection Hrun as <-;
    try apply nbctl_acl_add_calls; try apply nbctl_lport_add_calls;
    unfold_handlers; repeat calls_step.
Qed.

End TableFacts.

(* ===================================================================== *)
(** ** Properties of every command of the table *)
(* ===================================================================== *)

Section TableClaims.

Import Northbound.

Context {library : Library}.

(** X16.  Every handler of [nbctl_commands] validates before it writes:
    when a handler stops, whether through [ctl_fatal] or otherwise, it
    has made no setter call, inserted no row and written no output; the
    state is the one it started from. *)
Theorem X16_handlers_stop_before_they_write
    (c : nb_command_syntax) (h : nb_context -> handler unit)
    (ctx : nb_context) (s s' : handler_state) (why : stop) :
  In c nbctl_commands ->
  nb_run c = Some h ->
  h ctx s = stops why s' ->
  s' = s.
Proof.
  intros Hin Hrun. apply (commands_stop_clean ctx Hin Hrun).
Qed.

(** X17.  The commands that the table marks read-only keep their word:
    whatever the arguments and the database, and however the handler
    ends, it has made no setter call and inserted no row. *)
Theorem X17_read_only_commands_write_nothing
    (c : nb_command_syntax) (h : nb_context -> handler unit)
    (ctx : nb_context) (s : handler_state) :
  In c nbctl_commands ->
  nb_mode_of c = RO ->
  nb_run c = Some h ->
  h_calls (final (h ctx s)) = h_calls s
  /\ h_inserted (final (h ctx s)) = h_inserted s.
Proof.
  intros Hin Hmode Hrun.
  pose proof (read_only_commands_keep_calls ctx Hin Hmode Hrun s) as E.
  cbv beta in E. injection E as H1 H2. auto.
Qed.

Lemma for_each_printf {A} (f : A -> string) (rows : list A) : forall s,
  for_each rows (fun r => printf (f r)) s
  = returns tt (after_printf s (map f rows)).
Proof.
  induction rows as [|r rows IH]; intros s; simpl.
  - unfold Northbound.ret, after_printf. rewrite app_nil_r. now destruct s.
  - unfold Northbound.bind, printf. rewrite IH. unfold after_printf. cbn.
    now rewrite <- app_assoc.
Qed.

(** X18.  [acl-list] prints with [printf]: it never touches
    [ctx->output], and it makes no setter call.  Provided [qsort]
    permutes the array it is given, a run that returns has found the
    switch and written exactly one line per ACL of the switch to the
    standard output, each in the format of the handler, and nothing
    else. *)
Theorem X18_acl_list_prints_past_the_output_buffer
    (ctx : nb_context) (s : handler_state) :
  (forall cmp l, Permutation (qsort cmp l) l) ->
  h_output (final (nbctl_acl_list ctx s)) = h_output s
  /\ h_calls (final (nbctl_acl_list ctx s)) = h_calls s
  /\ (forall s',
        nbctl_acl_list ctx s = returns tt s' ->
        exists id lswitch lines,
          nth_error (nb_argv ctx) 1 = Some id
          /\ the_lswitch ctx id s = returns lswitch s
          /\ Permutation lines (map acl_line (lswitch_acls lswitch))
          /\ s' = after_printf s lines).
Proof.
  intros Hqsort.
  split; [|split].
  - assert (H : keeps_output (nbctl_acl_list ctx))
      by (unfold keeps_output; unfold_handlers; repeat preserves_step).
    apply H.
  - assert (Hin : In (command "acl-list" 1 1 "LSWITCH" nbctl_acl_list "" RO)
                     nbctl_commands) by (simpl; tauto).
    pose proof (read_only_commands_keep_calls ctx Hin eq_refl eq_refl s)
      as E.
    cbv beta in E. now injection E as H1 H2.
  - intros s' Hrun. unfold nbctl_acl_list in Hrun.
    destruct (nth_error (nb_argv ctx) 1) as [id|] eqn:H1.
    2: { unfold Northbound.bind at 1, arg in Hrun. rewrite H1 in Hrun.
         discriminate. }
    erewrite bind_arg in Hrun by exact H1.
    step_read Hrun (the_lswitch_reads ctx id). rename a into lswitch.
    cbv zeta in Hrun.
    destruct (_ && _); [discriminate|].
    rewrite for_each_printf in Hrun. injection Hrun as <-.
    exists id, lswitch,
      (map acl_line (qsort acl_cmp_value (lswitch_acls lswitch))).
    repeat split; [exact E|].
    apply Permutation_map. apply Hqsort.
Qed.

(** X19.  Within the arities that the table allows, and on a database
    whose ACLs have the two directions of the schema, every handler but
    one returns or dies with a diagnostic of [ctl_fatal]: it reads no
    argument past the end of [argv] and does not reach
    [OVS_NOT_REACHED].  The exception is [lport-set-port-security]: the
    table lets it run with no argument at all, and the handler then
    reads [argv[1]], which is past the end. *)
Theorem X19_handlers_return_or_die_with_a_diagnostic :
  (forall c h ctx s why s',
      In c nbctl_commands ->
      nb_run c = Some h ->
      arity_allowed c ctx ->
      directions_known ctx ->
      String.eqb (nb_name c) "lport-set-port-security" = false ->
      h ctx s = stops why s' ->
      exists msg, why = fatal msg)
  /\ (exists c,
        In c nbctl_commands
        /\ nb_name c = "lport-set-port-security"
        /\ nb_run c = Some nbctl_lport_set_port_security
        /\ forall ctx s,
             argc ctx = 1 ->
             arity_allowed c ctx
             /\ nbctl_lport_set_port_security ctx s
                = stops (past_argv 1) s).
Proof.
  split.
  - intros c h ctx s why s' Hin Hrun Harity Hdirs Hname.
    apply (commands_stop_diagnosed Hin Hrun Harity Hdirs Hname).
  - exists (command "lport-set-port-security" 0 INT_MAX "LPORT [ADDRS]..."
                    nbctl_lport_set_port_security "" RW).
    split; [simpl; tauto|]. split; [reflexivity|]. split; [reflexivity|].
    intros ctx s Hargc. split.
    + unfold arity_allowed. rewrite Hargc. cbn. unfold INT_MAX. lia.
    + unfold nbctl_lport_set_port_security, Northbound.bind, arg.
      unfold argc in Hargc.
      destruct (nb_argv ctx) as [|a0 [|a1 rest]]; try discriminate.
      reflexivity.
Qed.


(** X22.  Of the handlers of [nbctl_commands], [acl-list] is the only
    one that writes to the standard output itself: whatever the
    arguments and the database, and however it ends, every other handler
    leaves the standard output as it is, so that its text, if any, is in
    [ctx->output]. *)
Theorem X22_other_handlers_leave_stdout_alone
    (c : nb_command_syntax) (h : nb_context -> handler unit)
    (ctx : nb_context) (s : handler_state) :
  In c nbctl_commands ->
  nb_run c = Some h ->
  String.eqb (nb_name c) "acl-list" = false ->
  h_stdout (final (h ctx s)) = h_stdout s.
Proof.
  intros Hin Hrun Hname.
  apply (commands_keep_stdout ctx Hin Hrun Hname).
Qed.

End TableClaims.

(* ===================================================================== *)
(** ** The handlers and the engine on the fixtures *)
(* ===================================================================== *)

Section NorthboundRuns.

Import Northbound.

#[local] Existing Instance NorthboundFixture.library.

Lemma insert_by_permutation {A} (le : A -> A -> bool) (x : A) (l : list A) :
  Permutation (NorthboundFixture.insert_by le x l) (x :: l).
Proof.
  induction l as [|y l IH]; simpl; [reflexivity|].
  destruct (le x y); [reflexivity|].
  etransitivity; [apply perm_skip; exact IH|apply perm_swap].
Qed.

Lemma sort_by_permutation {A} (le : A -> A -> bool) (l : list A) :
  Permutation (NorthboundFixture.sort_by le l) l.
Proof.
  induction l as [|x l IH]; simpl; [reflexivity|].
  etransitivity; [apply insert_by_permutation|apply perm_skip; exact IH].
Qed.

(** One run of [main] that is tried again once and then succeeds. *)
Lemma X1_witness :
  exists r,
    life idle
      (run_trace
         (main (Fixture.globals false false) 3 "add r1 -- add r2"
            Fixture.add_batch (Fixture.start 1)))
    = Some r.
Proof.
  destruct (@X1_session_and_transaction_life_cycle Fixture.session
              (Fixture.globals false false) 3 "add r1 -- add r2"
              Fixture.add_batch (Fixture.start 1) eq_refl)
    as (r & L & _).
  exists r. exact L.
Defined.

(** The batch with output left over in its first command runs as the
    batch as parsed does. *)
Lemma X3_witness :
  do_nbctl (Fixture.globals false false) "add r1 -- add r2"
    NorthboundFixture.stale_batch (Fixture.start 0)
  = do_nbctl (Fixture.globals false false) "add r1 -- add r2"
      Fixture.add_batch (Fixture.start 0).
Proof.
  exact (proj1
    (@X3_attempt_ignores_stale_output Fixture.session
       (Fixture.globals false false) "add r1 -- add r2"
       NorthboundFixture.stale_batch Fixture.add_batch (Fixture.start 0)
       eq_refl)).
Defined.

Lemma X6_witness :
  exists ab ba bc ac,
    acl_cmp NorthboundFixture.acl3 NorthboundFixture.acl2 = Some ab
    /\ acl_cmp NorthboundFixture.acl2 NorthboundFixture.acl3 = Some ba
    /\ acl_cmp NorthboundFixture.acl2 NorthboundFixture.acl1 = Some bc
    /\ acl_cmp NorthboundFixture.acl3 NorthboundFixture.acl1 = Some ac
    /\ Z.sgn ba = (- Z.sgn ab)%Z
    /\ (ab = 0%Z <-> same_keys NorthboundFixture.acl3 NorthboundFixture.acl2)
    /\ ((ab <= 0)%Z -> (bc <= 0)%Z -> (ac <= 0)%Z).
Proof.
  exact (@X6_acl_cmp_is_a_consistent_comparator
           NorthboundFixture.acl3 NorthboundFixture.acl2
           NorthboundFixture.acl1 eq_refl eq_refl eq_refl).
Defined.

(** [lswitch-add sw3]: no switch has the name, and one is inserted. *)
Lemma X10_witness :
  exists name,
    lswitch_add_name NorthboundFixture.add_sw3 = Some name
    /\ Forall (fun l => lswitch_name l <> name)
              (logical_switches NorthboundFixture.database)
    /\ final (nbctl_lswitch_add NorthboundFixture.add_sw3
                NorthboundFixture.start)
       = after_calls NorthboundFixture.start
           [nbrec_logical_switch_insert 0;
            nbrec_logical_switch_set_name (New 0) name] 1.
Proof.
  destruct (@X10_lswitch_add_keeps_names_distinct
              NorthboundFixture.add_sw3 NorthboundFixture.start
              (final (nbctl_lswitch_add NorthboundFixture.add_sw3
                        NorthboundFixture.start))
              eq_refl eq_refl)
    as [(_ & H & _)|[(H & _)|H]]; [discriminate H|discriminate H|exact H].
Defined.

(** [lport-del lp2] on the switch with the ports lp1, lp2 and lp3: lp3
    takes the place of lp2. *)
Lemma X12_witness :
  exists lswitch lport rest,
    In lswitch (logical_switches NorthboundFixture.database)
    /\ In lport (lswitch_ports lswitch)
    /\ Permutation (port_row lport :: rest)
                   (map port_row (lswitch_ports lswitch))
    /\ final (nbctl_lport_del NorthboundFixture.del_lp2
                NorthboundFixture.start)
       = after_calls NorthboundFixture.start
           [nbrec_logical_switch_verify_ports (Row (lswitch_uuid lswitch));
            nbrec_logical_switch_set_ports (Row (lswitch_uuid lswitch)) rest;
            nbrec_logical_port_delete (port_row lport)]
           0.
Proof.
  assert (E : nbctl_lport_del NorthboundFixture.del_lp2
                NorthboundFixture.start
              = returns tt
                  (final (nbctl_lport_del NorthboundFixture.del_lp2
                            NorthboundFixture.start)))
    by (vm_compute; reflexivity).
  destruct (X12_lport_del_removes_one_port NorthboundFixture.del_lp2
              NorthboundFixture.start E)
    as [(_ & H & _)
       |(id & found & lswitch & lport & rest & _ & _ & H1 & H2 & _ & H3
         & _ & H4)];
    [discriminate H|].
  exists lswitch, lport, rest. auto.
Defined.

(** [acl-del sw1 from-lport 100 tcp] removes the one ACL with these
    keys. *)
Lemma X13_witness :
  exists lswitch direction priority,
    the_lswitch NorthboundFixture.del_acl "sw1" NorthboundFixture.start
    = returns lswitch NorthboundFixture.start
    /\ parse_direction "from-lport" NorthboundFixture.start
       = returns direction NorthboundFixture.start
    /\ parse_priority "100" NorthboundFixture.start
       = returns priority NorthboundFixture.start.
Proof.
  assert (E : nbctl_acl_del NorthboundFixture.del_acl NorthboundFixture.start
              = returns tt
                  (final (nbctl_acl_del NorthboundFixture.del_acl
                            NorthboundFixture.start)))
    by (vm_compute; reflexivity).
  destruct (X13_acl_del_removes_one_acl NorthboundFixture.del_acl
              NorthboundFixture.start
              (cmd := "acl-del") (id := "sw1") (a2 := "from-lport")
              (a3 := "100") (a4 := "tcp") eq_refl E)
    as (lswitch & direction & priority & H1 & H2 & H3 & _).
  exists lswitch, direction, priority. auto.
Defined.

(** [acl-del sw1] assigns the empty array. *)
Lemma X14_witness :
  nbctl_acl_del NorthboundFixture.del_acls NorthboundFixture.start
  = returns tt
      (after_calls NorthboundFixture.start
         [nbrec_logical_switch_verify_acls (Row 1%N);
          nbrec_logical_switch_set_acls (Row 1%N) []] 0).
Proof.
  assert (E : the_lswitch NorthboundFixture.del_acls "sw1"
                NorthboundFixture.start
              = returns NorthboundFixture.sw1 NorthboundFixture.start)
    by (vm_compute; reflexivity).
  exact (proj1 (X14_acl_del_by_direction NorthboundFixture.del_acls
                  "acl-del" "sw1" E) eq_refl).
Defined.

(** [lport-set-options lp1 a=b novalue c=d=e] stores two options. *)
Lemma X15_witness :
  exists opts,
    nbctl_lport_set_options NorthboundFixture.set_opts
      NorthboundFixture.start
    = returns tt
        (after_calls NorthboundFixture.start
           [nbrec_logical_port_set_options
              (port_row NorthboundFixture.lp1) opts] 0)
    /\ map option_text opts
       = filter has_equals
           (skipn 2 (nb_argv NorthboundFixture.set_opts))
    /\ Forall (fun node => has_equals (fst node) = false) opts.
Proof.
  assert (E : the_lport NorthboundFixture.set_opts "lp1"
                NorthboundFixture.start
              = returns NorthboundFixture.lp1 NorthboundFixture.start)
    by (vm_compute; reflexivity).
  exact (X15_lport_set_options_round_trip NorthboundFixture.set_opts
           (id := "lp1") eq_refl E).
Defined.

(** [lswitch-del nosuch] dies, having written nothing. *)
Lemma X16_witness :
  final (nbctl_lswitch_del NorthboundFixture.del_nosuch
           NorthboundFixture.start)
  = NorthboundFixture.start.
Proof.
  assert (Hin : In (command "lswitch-del" 1 1 "LSWITCH" nbctl_lswitch_del
                            "--if-exists" RW) nbctl_commands)
    by (simpl; tauto).
  assert (E : nbctl_lswitch_del NorthboundFixture.del_nosuch
                NorthboundFixture.start
              = stops (fatal "nosuch: lswitch name not found")
                  (final (nbctl_lswitch_del NorthboundFixture.del_nosuch
                            NorthboundFixture.start)))
    by (vm_compute; reflexivity).
  exact (X16_handlers_stop_before_they_write NorthboundFixture.del_nosuch
           NorthboundFixture.start Hin eq_refl E).
Defined.

(** [show] makes no setter call. *)
Lemma X17_witness :
  h_calls (final (nbctl_show NorthboundFixture.show_all
                    NorthboundFixture.start))
  = h_calls NorthboundFixture.start
  /\ h_inserted (final (nbctl_show NorthboundFixture.show_all
                          NorthboundFixture.start))
     = h_inserted NorthboundFixture.start.
Proof.
  assert (Hin : In (command "show" 0 1 "[LSWITCH]" nbctl_show "" RO)
                   nbctl_commands) by (simpl; tauto).
  exact (X17_read_only_commands_write_nothing NorthboundFixture.show_all
           NorthboundFixture.start Hin eq_refl eq_refl).
Defined.

(** [acl-list sw1] leaves the output buffer alone. *)
Lemma X18_witness :
  h_output (final (nbctl_acl_list NorthboundFixture.list_acls
                     NorthboundFixture.start))
  = h_output NorthboundFixture.start.
Proof.
  exact (proj1
    (X18_acl_list_prints_past_the_output_buffer NorthboundFixture.list_acls
       NorthboundFixture.start (fun cmp l => sort_by_permutation _ l))).
Defined.


(** [lport-add sw1 lp4 lp1 42] *)
Lemma X21_witness :
  exists id lswitch name,
    nth_error (nb_argv NorthboundFixture.add_lp4) 1 = Some id
    /\ the_lswitch NorthboundFixture.add_lp4 id NorthboundFixture.start
       = returns lswitch NorthboundFixture.start
    /\ nth_error (nb_argv NorthboundFixture.add_lp4) 2 = Some name.
Proof.
  assert (E : nbctl_lport_add NorthboundFixture.add_lp4
                NorthboundFixture.start
              = returns tt
                  (final (nbctl_lport_add NorthboundFixture.add_lp4
                            NorthboundFixture.start)))
    by (vm_compute; reflexivity).
  destruct (X21_lport_add_appends_the_port NorthboundFixture.add_lp4
              NorthboundFixture.start E)
    as (id & lswitch & name & H1 & H2 & H3 & _).
  exists id, lswitch, name. auto.
Defined.

(** [show] leaves the standard output alone. *)
Lemma X22_witness :
  h_stdout (final (nbctl_show NorthboundFixture.show_all
                     NorthboundFixture.start))
  = h_stdout NorthboundFixture.start.
Proof.
  assert (Hin : In (command "show" 0 1 "[LSWITCH]" nbctl_show "" RO)
                   nbctl_commands) by (simpl; tauto).
  exact (X22_other_handlers_leave_stdout_alone NorthboundFixture.show_all
           NorthboundFixture.start Hin eq_refl eq_refl).
Defined.

End NorthboundRuns.
